(** * Verification of the store anonymiser (pkg/sqlite/anonymise.go)

    A shallow embedding of the anonymiser: Go strings are byte strings
    ([string], one [ascii] per byte), the relational store is a finite map
    from table names to lists of rows, statements built with the query
    builder are a small syntax with an interpreter, and the Go code is
    written in a state monad whose results are a value, a returned error,
    a panic, or exhaustion of the loop budget. *)

From Stdlib Require Import ZArith NArith List String Ascii Lia Bool DecimalString.
From Stdlib Require OrderedTypeEx.
From stdpp Require Import base option list strings gmap.

Open Scope string_scope.

(** ** Go strings, runes and UTF-8 *)

(** A Go [rune] is a Unicode code point. *)
Definition rune := N.

Definition RuneError : rune := 0xFFFD%N.

Definition inRange (lo hi b : N) : bool := ((lo <=? b) && (b <=? hi))%N.

(** Continuation byte of a multi-byte sequence. *)
Definition isCont (b : N) : bool := inRange 0x80 0xBF b.

(** Low six bits of a continuation byte. *)
Definition low6 (b : N) : N := N.land b 0x3F.

Definition twoOk (b0 b1 : N) : bool := inRange 0xC2 0xDF b0 && isCont b1.

Definition rune2 (b0 b1 : N) : rune :=
  N.lor (N.shiftl (N.land b0 0x1F) 6) (low6 b1).

Definition threeOk (b0 b1 b2 : N) : bool :=
  inRange 0xE0 0xEF b0
  && (if (b0 =? 0xE0)%N then inRange 0xA0 0xBF b1
      else if (b0 =? 0xED)%N then inRange 0x80 0x9F b1
      else isCont b1)
  && isCont b2.

Definition rune3 (b0 b1 b2 : N) : rune :=
  N.lor (N.lor (N.shiftl (N.land b0 0x0F) 12) (N.shiftl (low6 b1) 6)) (low6 b2).

Definition fourOk (b0 b1 b2 b3 : N) : bool :=
  inRange 0xF0 0xF4 b0
  && (if (b0 =? 0xF0)%N then inRange 0x90 0xBF b1
      else if (b0 =? 0xF4)%N then inRange 0x80 0x8F b1
      else isCont b1)
  && isCont b2 && isCont b3.

Definition rune4 (b0 b1 b2 b3 : N) : rune :=
  N.lor (N.lor (N.lor (N.shiftl (N.land b0 0x07) 18) (N.shiftl (low6 b1) 12))
               (N.shiftl (low6 b2) 6)) (low6 b3).

(** [for _, c := range s]: the runes of [s] in order.  A byte that does not
    start a well-formed UTF-8 sequence yields [RuneError] and advances by
    one byte. *)
Fixpoint range_string (s : string) : list rune :=
  match s with
  | EmptyString => []
  | String a0 t =>
    let b0 := N_of_ascii a0 in
    if (b0 <? 0x80)%N then b0 :: range_string t
    else
      match t with
      | EmptyString => RuneError :: range_string t
      | String a1 t1 =>
        let b1 := N_of_ascii a1 in
        if twoOk b0 b1 then rune2 b0 b1 :: range_string t1
        else
          match t1 with
          | EmptyString => RuneError :: range_string t
          | String a2 t2 =>
            let b2 := N_of_ascii a2 in
            if threeOk b0 b1 b2 then rune3 b0 b1 b2 :: range_string t2
            else
              match t2 with
              | EmptyString => RuneError :: range_string t
              | String a3 t3 =>
                let b3 := N_of_ascii a3 in
                if fourOk b0 b1 b2 b3 then rune4 b0 b1 b2 b3 :: range_string t3
                else RuneError :: range_string t
              end
          end
      end
  end.

Definition byteString (b : N) : string := String (ascii_of_N b) EmptyString.

(** [utf8.AppendRune]: the UTF-8 encoding of a rune; surrogates and values
    above U+10FFFF are encoded as [RuneError]. *)
Definition utf8_encode (r : rune) : string :=
  let three (c : N) :=
    byteString (N.lor 0xE0 (N.shiftr c 12))
    +:+ byteString (N.lor 0x80 (low6 (N.shiftr c 6)))
    +:+ byteString (N.lor 0x80 (low6 c)) in
  if (r <=? 0x7F)%N then byteString r
  else if (r <=? 0x7FF)%N then
    byteString (N.lor 0xC0 (N.shiftr r 6)) +:+ byteString (N.lor 0x80 (low6 r))
  else if (0x10FFFF <? r)%N || inRange 0xD800 0xDFFF r then three RuneError
  else if (r <=? 0xFFFF)%N then three r
  else
    byteString (N.lor 0xF0 (N.shiftr r 18))
    +:+ byteString (N.lor 0x80 (low6 (N.shiftr r 12)))
    +:+ byteString (N.lor 0x80 (low6 (N.shiftr r 6)))
    +:+ byteString (N.lor 0x80 (low6 r)).

(** [unicode.IsSpace]: the Latin-1 spaces, then the White_Space table. *)
Definition IsSpace (r : rune) : bool :=
  if (r <=? 0xFF)%N then
    inRange 0x09 0x0D r || (r =? 0x20)%N || (r =? 0x85)%N || (r =? 0xA0)%N
  else
    (r =? 0x1680)%N || inRange 0x2000 0x200A r || inRange 0x2028 0x2029 r
    || (r =? 0x202F)%N || (r =? 0x205F)%N || (r =? 0x3000)%N.

(** The code points [unicode.IsSpace] accepts. *)
Definition spaces : list rune :=
  [ 0x09; 0x0A; 0x0B; 0x0C; 0x0D; 0x20; 0x85; 0xA0; 0x1680;
    0x2000; 0x2001; 0x2002; 0x2003; 0x2004; 0x2005; 0x2006; 0x2007; 0x2008;
    0x2009; 0x200A; 0x2028; 0x2029; 0x202F; 0x205F; 0x3000 ]%N.

(** A string of single-byte (7-bit) symbols. *)
Fixpoint isASCII (s : string) : bool :=
  match s with
  | EmptyString => true
  | String a t => (N_of_ascii a <? 0x80)%N && isASCII t
  end.

(** [strconv.Itoa] and SQLite's integer-to-text conversion. *)
Definition itoa (z : Z) : string := NilEmpty.string_of_int (Z.to_int z).

(** The two obfuscation alphabets. *)
Definition letters : string :=
  "abcdefghijklmnopqrstuvwxyzABCDEFGHIJKLMNOPQRSTUVWXYZ0123456789".
Definition hex : string := "0123456789abcdef".

(** [filepath.Separator] (the Unix value). *)
Definition Separator : string := "/".

(** ** The relational store *)

(** A stored value: SQLite's NULL, INTEGER, TEXT and BLOB storage classes. *)
Inductive value : Type :=
| VNull
| VInt (z : Z)
| VText (s : string)
| VBlob (b : string).

#[global] Instance value_eq_dec : EqDecision value.
Proof. solve_decision. Defined.

(** A row maps column names to values; a column the row does not bind reads
    as NULL.  A table is the list of its rows in storage order, a store
    (database file) maps table names to tables. *)
Abbreviation row := (gmap string value) (only parsing).
Abbreviation table := (list (gmap string value)) (only parsing).
Abbreviation database := (gmap string (list (gmap string value))) (only parsing).

Definition col (r : row) (c : string) : value := default VNull (r !! c).

(** SQL equality and ordering; a comparison involving NULL is never true.
    Storage classes order as INTEGER < TEXT < BLOB, text and blobs compare
    bytewise. *)
Definition sql_eq (a b : value) : bool :=
  match a, b with
  | VInt x, VInt y => (x =? y)%Z
  | VText x, VText y => String.eqb x y
  | VBlob x, VBlob y => String.eqb x y
  | _, _ => false
  end.

Definition sql_gt (a b : value) : bool :=
  match a, b with
  | VInt x, VInt y => (y <? x)%Z
  | VText x, VText y => String.ltb y x
  | VBlob x, VBlob y => String.ltb y x
  | VText _, VInt _ => true
  | VBlob _, VInt _ => true
  | VBlob _, VText _ => true
  | _, _ => false
  end.

(** Text of a value as the SQL concatenation operator sees it. *)
Definition sql_text (v : value) : option string :=
  match v with
  | VNull => None
  | VInt z => Some (itoa z)
  | VText s => Some s
  | VBlob b => Some b
  end.

(** [a || b]. *)
Definition sql_concat (a b : value) : value :=
  match sql_text a, sql_text b with
  | Some x, Some y => VText (x +:+ y)
  | _, _ => VNull
  end.

(** [CAST(v AS VARCHAR)]. *)
Definition castVarchar (v : value) : value :=
  match sql_text v with
  | Some s => VText s
  | None => VNull
  end.

(** Predicates of a WHERE clause, as the code builds them. *)
Inductive cond : Type :=
| IsNull (c : string)                       (* col IS NULL *)
| Eq (c : string) (v : value)               (* col = ? *)
| Gt (c : string) (v : value)               (* col > ? *)
| TupleGt (c1 c2 : string) (v1 v2 : value). (* (c1, c2) > (?, ?) *)

Definition holds (r : row) (w : cond) : bool :=
  match w with
  | IsNull c => bool_decide (col r c = VNull)
  | Eq c v => sql_eq (col r c) v
  | Gt c v => sql_gt (col r c) v
  | TupleGt c1 c2 v1 v2 =>
      sql_gt (col r c1) v1 || (sql_eq (col r c1) v1 && sql_gt (col r c2) v2)
  end.

Definition matches (ws : list cond) (r : row) : bool := forallb (holds r) ws.

(** Right-hand sides of SET. *)
Inductive setexpr : Type :=
| Lit (v : value)                       (* a bound value *)
| CastVarchar (c : string)              (* CAST(col AS VARCHAR) *)
| Concat3 (a b : value) (c : string).   (* ? || ? || col *)

Definition eval_set (r : row) (e : setexpr) : value :=
  match e with
  | Lit v => v
  | CastVarchar c => castVarchar (col r c)
  | Concat3 a b c => sql_concat (sql_concat a b) (col r c)
  end.

(** [goqu.Record]: column name to new value; all right-hand sides are
    evaluated on the row as it was before the update. *)
Definition apply_set (set : gmap string setexpr) (r : row) : row :=
  (eval_set r <$> set) ∪ r.

Inductive stmt : Type :=
| Update (t : string) (set : gmap string setexpr) (where_ : list cond)
| DeleteFrom (t : string).

Record query : Type := Query {
  q_from : string;
  q_select : list string;
  q_where : list cond;
  q_limit : option nat
}.

Inductive error : Type :=
| SqlError (msg : string)
| ScanError (msg : string)
| IOError (msg : string)
| RandError
| Wrap (prefix : string) (e : error).   (* fmt.Errorf("prefix: %w", e) *)

Definition update_rows (set : gmap string setexpr) (ws : list cond) (t : table) : table :=
  map (fun r => if matches ws r then apply_set set r else r) t.

Definition run_stmt (s : stmt) (d : database) : error + database :=
  match s with
  | Update t set ws =>
      match d !! t with
      | Some rows => inr (<[t := update_rows set ws rows]> d)
      | None => inl (SqlError ("no such table: " +:+ t))
      end
  | DeleteFrom t =>
      match d !! t with
      | Some _ => inr (<[t := []]> d)
      | None => inl (SqlError ("no such table: " +:+ t))
      end
  end.

Definition take_limit {A} (l : option nat) (xs : list A) : list A :=
  match l with
  | Some n => firstn n xs
  | None => xs
  end.

(** Rows of a SELECT without ORDER BY come in storage order. *)
Definition select_rows (q : query) (t : table) : list (list value) :=
  map (fun r => map (col r) (q_select q))
      (take_limit (q_limit q) (filter (fun r => matches (q_where q) r = true) t)).

Definition run_query (q : query) (d : database) : error + list (list value) :=
  match d !! q_from q with
  | Some rows => inr (select_rows q rows)
  | None => inl (SqlError ("no such table: " +:+ q_from q))
  end.

(** ** Program state and the execution monad *)

(** One read of [crypto/rand.Reader]. *)
Inductive draw : Type :=
| RandErr
| RandNum (n : nat).

(** Failures the environment can inject into file-level operations. *)
Record Faults : Type := {
  vacuum_fails : bool;
  open_fails : bool;
  remove_fails : bool
}.

Record St : Type := mkSt {
  files : gmap string (gmap string (list (gmap string value)));  (* store files by path *)
  opened : gset string;             (* paths with an open connection *)
  rnd : nat -> draw;                (* the secure random source *)
  rpos : nat;                       (* reads made so far *)
  faults : Faults;
  log : list string                 (* logger output *)
}.

Definition set_files (f : gmap string (gmap string (list (gmap string value)))
                          -> gmap string (gmap string (list (gmap string value))))
  (st : St) : St :=
  mkSt (f (files st)) (opened st) (rnd st) (rpos st) (faults st) (log st).

Definition set_opened (f : gset string -> gset string) (st : St) : St :=
  mkSt (files st) (f (opened st)) (rnd st) (rpos st) (faults st) (log st).

Inductive result (A : Type) : Type :=
| Ok (a : A)
| Err (e : error)
| Panic (msg : string)
| OutOfFuel.

Arguments Ok {A} a.
Arguments Err {A} e.
Arguments Panic {A} msg.
Arguments OutOfFuel {A}.

Definition M (A : Type) : Type := St -> result A * St.

Definition ret {A} (a : A) : M A := fun st => (Ok a, st).

Definition bind {A B} (m : M A) (k : A -> M B) : M B := fun st =>
  match m st with
  | (Ok a, st') => k a st'
  | (Err e, st') => (Err e, st')
  | (Panic msg, st') => (Panic msg, st')
  | (OutOfFuel, st') => (OutOfFuel, st')
  end.

Notation "x <- m ;; k" := (bind m (fun x => k))
  (at level 100, m at next level, right associativity).
Definition fail {A} (e : error) : M A := fun st => (Err e, st).
Definition panic {A} (msg : string) : M A := fun st => (Panic msg, st).
Definition outOfFuel {A} : M A := fun st => (OutOfFuel, st).

Definition lift {A} (x : error + A) : M A :=
  match x with
  | inl e => fail e
  | inr a => ret a
  end.

(** [fmt.Errorf("prefix: %w", err)] on the error path. *)
Definition wrapErr {A} (prefix : string) (m : M A) : M A := fun st =>
  match m st with
  | (Err e, st') => (Err (Wrap prefix e), st')
  | other => other
  end.

(** [defer cleanup()]: the cleanup runs when the body returns or panics. *)
Definition defer {A B} (cleanup : M B) (body : M A) : M A := fun st =>
  match body st with
  | (OutOfFuel, st') => (OutOfFuel, st')
  | (r, st') => (r, snd (cleanup st'))
  end.

(** [logger.Infof]. *)
Definition logger_Infof (msg : string) : M unit := fun st =>
  (Ok tt, mkSt (files st) (opened st) (rnd st) (rpos st) (faults st) (log st ++ [msg])).

(** [rand.Int(rand.Reader, max)]: a number below [max], or the reader's
    error; panics when [max] is not positive. *)
Definition rand_Int (max : nat) : M (error + nat) := fun st =>
  match max with
  | O => (Panic "crypto/rand: argument to Int is <= 0", st)
  | S _ =>
    let st' := mkSt (files st) (opened st) (rnd st) (S (rpos st)) (faults st) (log st) in
    match rnd st (rpos st) with
    | RandErr => (Ok (inl RandError), st')
    | RandNum n => (Ok (inr (n mod max)), st')
    end
  end.

(** ** Database handles and the helpers of the package *)

Record Database : Type := { dbPath : string }.

(** [type Anonymiser struct { *Database }] *)
Record Anonymiser : Type := mkAnonymiser { anonDatabase : Database }.

Definition workPath (db : Anonymiser) : string := dbPath (anonDatabase db).

(** Modelled from the spec: the table-manager constants ([sceneTableMgr.table]
    and the like, [idColumn], [fileIDColumn]) are declared elsewhere in the
    package; the names agree with the literals [deleteBlobs] uses. *)
Definition idColumn : string := "id".
Definition fileIDColumn : string := "file_id".
Definition folderTable : string := "folders".
Definition fileTable : string := "files".
Definition fingerprintTable : string := "files_fingerprints".
Definition sceneTable : string := "scenes".
Definition sceneMarkerTable : string := "scene_markers".
Definition imageTable : string := "images".
Definition galleryTable : string := "galleries".
Definition performerTable : string := "performers".
Definition studioTable : string := "studios".
Definition tagTable : string := "tags".
Definition movieTable : string := "movies".
Definition performersAliasesTable : string := "performer_aliases".
Definition studioAliasesTable : string := "studio_aliases".
Definition tagAliasesTable : string := "tag_aliases".

(** The page size of every scan, [Limit(1000)]. *)
Definition pageSize : nat := 1000.
Definition logEvery : Z := 10000.

(** Modelled from the spec: the package's [exec(ctx, stmt)] (and
    [db.db.Exec], which the truncations call directly) runs one statement on
    the store file behind the handle. *)
Definition exec (db : Anonymiser) (s : stmt) : M unit := fun st =>
  match files st !! workPath db with
  | None => (Err (SqlError "unable to open database file"), st)
  | Some d =>
    match run_stmt s d with
    | inl e => (Err e, st)
    | inr d' => (Ok tt, set_files (insert (workPath db) d') st)
    end
  end.

(** The result set of a query on the store file behind the handle. *)
Definition queryRows (db : Anonymiser) (q : query) : M (list (list value)) := fun st =>
  match files st !! workPath db with
  | None => (Err (SqlError "unable to open database file"), st)
  | Some d =>
    match run_query q d with
    | inl e => (Err e, st)
    | inr rows => (Ok rows, st)
    end
  end.

Definition restore (p : string) (old : option database)
  (fs : gmap string (gmap string (list (gmap string value))))
  : gmap string (gmap string (list (gmap string value))) :=
  match old with
  | Some d => <[p := d]> fs
  | None => delete p fs
  end.

(** Modelled from the spec: [txn.WithTxn] is the transaction-scoped execution
    context (begin/commit/rollback): the body's writes are committed when it
    returns without error and rolled back when it returns an error; a panic
    rolls back and keeps unwinding. *)
Definition WithTxn {A} (db : Anonymiser) (fn : M A) : M A := fun st =>
  let snap := files st !! workPath db in
  match fn st with
  | (Ok a, st') => (Ok a, st')
  | (OutOfFuel, st') => (OutOfFuel, st')
  | (r, st') => (r, set_files (restore (workPath db) snap) st')
  end.

(** The loop of [queryFunc] over the rows of a result set: the callback runs
    once per row, threading the variables it captures, and the first error
    ends the loop. *)
Fixpoint forRows {S} (rows : list (list value)) (f : list value -> S -> M S) (s : S) : M S :=
  match rows with
  | [] => ret s
  | r :: rs => s' <- f r s ;; forRows rs f s'
  end.

(** Modelled from the spec: [queryFunc(ctx, query, single = false, f)] runs
    the query and invokes [f] per row of the page. *)
Definition queryFunc {S} (db : Anonymiser) (q : query)
  (f : list value -> S -> M S) (s : S) : M S :=
  rows <- queryRows db q ;; forRows rows f s.

(** [rows.Scan] into an [int], a [string] and a [sql.NullString].  An
    integer scans into a string as its decimal text; text is not parsed into
    an [int] (identifier columns hold integers). *)
Definition scan_int (v : value) : error + Z :=
  match v with
  | VInt z => inr z
  | VNull => inl (ScanError "converting NULL to int is unsupported")
  | _ => inl (ScanError "converting to int: invalid syntax")
  end.

Definition scan_string (v : value) : error + string :=
  match sql_text v with
  | Some s => inr s
  | None => inl (ScanError "converting NULL to string is unsupported")
  end.

(** [sql.NullString]: [None] is [Valid = false]. *)
Definition scan_NullString (v : value) : option string := sql_text v.

(** The [String] field of a [sql.NullString]. *)
Definition NullString_String (n : option string) : string := default "" n.

Definition columnCount {A} : M A := fail (ScanError "sql: wrong number of destination arguments").

(** Modelled from the spec: [utils.Do] runs the functions in sequence and
    returns the first error. *)
Fixpoint Do (fns : list (M unit)) : M unit :=
  match fns with
  | [] => ret tt
  | f :: fs => _ <- f ;; Do fs
  end.

(** Modelled from the spec: [Database.Close] closes the handle. *)
Definition Close (db : Anonymiser) : M unit := fun st =>
  (Ok tt, set_opened (fun o => o ∖ {[workPath db]}) st).

(** Modelled from the spec: [Database.Remove] (Discard) closes the store and
    deletes the backing file; the deletion can fail. *)
Definition Remove (db : Anonymiser) : M unit := fun st =>
  let st' := set_opened (fun o => o ∖ {[workPath db]}) st in
  if remove_fails (faults st) then (Err (IOError "Error removing database"), st')
  else (Ok tt, set_files (delete (workPath db)) st').

(** Modelled from the spec: [Database.Open] opens the file at the path as an
    independent handle; the open can fail. *)
Definition Open (db : Database) : M unit := fun st =>
  if open_fails (faults st) then (Err (IOError "unable to open database file"), st)
  else (Ok tt, set_opened (fun o => {[dbPath db]} ∪ o) st).

(** [VACUUM INTO "outPath"] on the source handle: an exact copy of the
    source at a path that must not exist yet. *)
Definition vacuumInto (db : Database) (outPath : string) : M unit := fun st =>
  if vacuum_fails (faults st) then (Err (SqlError "disk I/O error"), st)
  else
    match files st !! dbPath db with
    | None => (Err (SqlError "unable to open database file"), st)
    | Some d =>
      match files st !! outPath with
      | Some _ => (Err (SqlError "output file already exists"), st)
      | None => (Ok tt, set_files (insert outPath d) st)
      end
    end.

(** Modelled from the spec: [optimise] is the final store compaction; it
    leaves every row as it is. *)
Definition optimise (db : Anonymiser) : M unit := ret tt.

(** ** The anonymiser *)

Definition NewAnonymiser (db : Database) (outPath : string) : M Anonymiser :=
  _ <- wrapErr ("vacuuming into " +:+ outPath) (vacuumInto db outPath) ;;
  let newDB := {| dbPath := outPath |} in
  _ <- wrapErr ("opening " +:+ outPath) (Open newDB) ;;
  ret (mkAnonymiser newDB).

Definition truncateColumn (db : Anonymiser) (tableName column : string) : M unit :=
  exec db (Update tableName {[ column := Lit VNull ]} []).

Definition truncateTable (db : Anonymiser) (tableName : string) : M unit :=
  exec db (DeleteFrom tableName).

Definition deleteBlobs (db : Anonymiser) : M unit :=
  Do [ truncateColumn db "tags" "image_blob";
       truncateColumn db "studios" "image_blob";
       truncateColumn db "performers" "image_blob";
       truncateColumn db "scenes" "cover_blob";
       truncateColumn db "movies" "front_image_blob";
       truncateColumn db "movies" "back_image_blob";
       truncateTable db "blobs" ].

Definition deleteStashIDs (db : Anonymiser) : M unit :=
  Do [ truncateTable db "scene_stash_ids";
       truncateTable db "studio_stash_ids";
       truncateTable db "performer_stash_ids" ].

(** The body of the [range] loop of [obfuscateString], with the builder
    [out] as an accumulator. *)
Fixpoint obfuscateLoop (cs : list rune) (dict : string) (out : string) : M string :=
  match cs with
  | [] => ret out
  | c :: cs' =>
    if IsSpace c then obfuscateLoop cs' dict (out +:+ utf8_encode c)
    else
      num <- rand_Int (String.length dict) ;;
      match num with
      | inl _ => panic "error generating random number"
      | inr n =>
        match String.get n dict with
        | Some b => obfuscateLoop cs' dict (out +:+ String b EmptyString)
        | None => panic "runtime error: index out of range"
        end
      end
  end.

Definition obfuscateString (in_ dict : string) : M string :=
  obfuscateLoop (range_string in_) dict EmptyString.

Definition obfuscateNullString (out : gmap string setexpr) (column : string)
  (in_ : option string) : M (gmap string setexpr) :=
  match in_ with
  | Some s => o <- obfuscateString s letters ;; ret (<[column := Lit (VText o)]> out)
  | None => ret out
  end.

Definition anonymiseText (db : Anonymiser) (table column value : string) : M unit :=
  o <- obfuscateString value letters ;;
  let set : gmap string setexpr := {[ column := Lit (VText o) ]} in
  wrapErr ("anonymising " +:+ column)
    (exec db (Update table set [Eq column (VText value)])).

Definition anonymiseFingerprint (db : Anonymiser) (table column value : string) : M unit :=
  o <- obfuscateString value hex ;;
  let set : gmap string setexpr := {[ column := Lit (VText o) ]} in
  wrapErr ("anonymising " +:+ column)
    (exec db (Update table set [Eq column (VText value)])).

(** *** Folders *)

Fixpoint anonymiseFoldersRecurse (fuel : nat) (db : Anonymiser)
  (parentFolderID : Z) (parentPath : string) : M unit :=
  match fuel with
  | O => outOfFuel
  | S fuel' =>
    let table := folderTable in
    let stmt :=
      if (parentFolderID =? 0)%Z then
        Update table {[ "path" := CastVarchar idColumn ]} [IsNull "parent_folder_id"]
      else
        Update table {[ "path" := Concat3 (VText parentPath) (VText Separator) "id" ]}
               [Eq "parent_folder_id" (VInt parentFolderID)] in
    _ <- wrapErr ("anonymising " +:+ table) (exec db stmt) ;;
    (* now recurse to sub-folders *)
    let query :=
      Query table [idColumn; "path"]
            (if (parentFolderID =? 0)%Z then [IsNull "parent_folder_id"]
             else [Eq "parent_folder_id" (VInt parentFolderID)])
            None in
    queryFunc db query (fun r _ =>
      match r with
      | [vid; vpath] =>
        id <- lift (scan_int vid) ;;
        path <- lift (scan_string vpath) ;;
        anonymiseFoldersRecurse fuel' db id path
      | _ => columnCount
      end) tt
  end.

Definition anonymiseFolders (fuel : nat) (db : Anonymiser) : M unit :=
  _ <- logger_Infof "Anonymising folders" ;;
  WithTxn db (anonymiseFoldersRecurse fuel db 0 "").

(** *** Files *)

Definition anonymiseFiles (db : Anonymiser) : M unit :=
  _ <- logger_Infof "Anonymising files" ;;
  WithTxn db
    (let table := fileTable in
     let stmt := Update table {[ "basename" := CastVarchar idColumn ]} [] in
     wrapErr ("anonymising " +:+ table) (exec db stmt)).

(** *** Paged scans *)

(** [for gotSome := true; gotSome; { ... }]: every iteration runs one page,
    which reports whether it saw a row and the loop variables it leaves. *)
Fixpoint pageLoop {C} (fuel : nat) (page : C -> M (bool * C)) (c : C) : M C :=
  match fuel with
  | O => outOfFuel
  | S fuel' =>
    r <- page c ;;
    if fst r then pageLoop fuel' page (snd r) else ret (snd r)
  end.

(** [if total%logEvery == 0 { logger.Infof("Anonymised %d what", total) }] *)
Definition logProgress (total : Z) (what : string) : M unit :=
  if (total mod logEvery =? 0)%Z then
    logger_Infof ("Anonymised " +:+ itoa total +:+ " " +:+ what)
  else ret tt.

(** [if len(set) > 0 { exec(Update(table).Set(set).Where(id = id)) }] *)
Definition updateByID (db : Anonymiser) (table : string)
  (set : gmap string setexpr) (id : Z) : M unit :=
  if decide (set = ∅) then ret tt
  else
    wrapErr ("anonymising " +:+ table)
      (exec db (Update table set [Eq idColumn (VInt id)])).

(** The page query of the scans keyed on [id]. *)
Definition idPageQuery (table : string) (cols : list string) (lastID : Z) : query :=
  Query table (idColumn :: cols) [Gt idColumn (VInt lastID)] (Some pageSize).

(** Loop variables of a scan keyed on [id]: [lastID] and [total]. *)
Definition idCursor : Type := (Z * Z)%type.

Definition anonymiseFingerprints (fuel : nat) (db : Anonymiser) : M unit :=
  _ <- logger_Infof "Anonymising fingerprints" ;;
  let table := fingerprintTable in
  _ <- pageLoop fuel (fun c : Z * string * Z =>
         let '(lastID, lastType, total) := c in
         WithTxn db
           (let query :=
              Query table [fileIDColumn; "type"; "fingerprint"]
                    [TupleGt "file_id" "type" (VInt lastID) (VText lastType)]
                    (Some pageSize) in
            queryFunc db query (fun r s =>
              let '(_, (_, _, total)) := s in
              match r with
              | [vid; vtyp; vfingerprint] =>
                id <- lift (scan_int vid) ;;
                typ <- lift (scan_string vtyp) ;;
                fingerprint <- lift (scan_string vfingerprint) ;;
                _ <- anonymiseFingerprint db table "fingerprint" fingerprint ;;
                let total := (total + 1)%Z in
                _ <- logProgress total "fingerprints" ;;
                ret (true, (id, typ, total))
              | _ => columnCount
              end) (false, c)))
       (0%Z, "", 0%Z) ;;
  ret tt.

Definition anonymiseScenes (fuel : nat) (db : Anonymiser) : M unit :=
  _ <- logger_Infof "Anonymising scenes" ;;
  let table := sceneTable in
  _ <- pageLoop fuel (fun c : idCursor =>
         WithTxn db
           (queryFunc db
              (idPageQuery table ["title"; "details"; "url"; "code"; "director"] (fst c))
              (fun r s =>
                 let total := snd (snd s) in
                 match r with
                 | [vid; vtitle; vdetails; vurl; vcode; vdirector] =>
                   id <- lift (scan_int vid) ;;
                   let title := scan_NullString vtitle in
                   let details := scan_NullString vdetails in
                   let url := scan_NullString vurl in
                   let code := scan_NullString vcode in
                   let director := scan_NullString vdirector in
                   set <- obfuscateNullString ∅ "title" title ;;
                   set <- obfuscateNullString set "details" details ;;
                   set <- obfuscateNullString set "url" url ;;
                   _ <- updateByID db table set id ;;
                   _ <- match code with
                        | Some v => anonymiseText db table "code" v
                        | None => ret tt
                        end ;;
                   _ <- match director with
                        | Some v => anonymiseText db table "director" v
                        | None => ret tt
                        end ;;
                   let total := (total + 1)%Z in
                   _ <- logProgress total "scenes" ;;
                   ret (true, (id, total))
                 | _ => columnCount
                 end) (false, c)))
       (0%Z, 0%Z) ;;
  ret tt.

Definition anonymiseMarkers (fuel : nat) (db : Anonymiser) : M unit :=
  _ <- logger_Infof "Anonymising scene markers" ;;
  let table := sceneMarkerTable in
  _ <- pageLoop fuel (fun c : idCursor =>
         WithTxn db
           (queryFunc db (idPageQuery table ["title"] (fst c))
              (fun r s =>
                 let total := snd (snd s) in
                 match r with
                 | [vid; vtitle] =>
                   id <- lift (scan_int vid) ;;
                   title <- lift (scan_string vtitle) ;;
                   _ <- anonymiseText db table "title" title ;;
                   let total := (total + 1)%Z in
                   _ <- logProgress total "scene markers" ;;
                   ret (true, (id, total))
                 | _ => columnCount
                 end) (false, c)))
       (0%Z, 0%Z) ;;
  ret tt.

(** The callback shared in shape by the scans that patch a row by [id]:
    scan [id] and the listed nullable columns, obfuscate every column that
    is set into one record, write it where [id] matches. *)
Fixpoint obfuscateColumns (set : gmap string setexpr) (cols : list string)
  (vals : list value) : M (gmap string setexpr) :=
  match cols, vals with
  | c :: cols', v :: vals' =>
    set' <- obfuscateNullString set c (scan_NullString v) ;;
    obfuscateColumns set' cols' vals'
  | _, _ => ret set
  end.

Definition patchVisit (db : Anonymiser) (table what : string) (cols : list string)
  (r : list value) (s : bool * idCursor) : M (bool * idCursor) :=
  let total := snd (snd s) in
  match r with
  | vid :: vals =>
    if decide (length vals = length cols) then
      id <- lift (scan_int vid) ;;
      set <- obfuscateColumns ∅ cols vals ;;
      _ <- updateByID db table set id ;;
      let total := (total + 1)%Z in
      _ <- logProgress total what ;;
      ret (true, (id, total))
    else columnCount
  | [] => columnCount
  end.

Definition patchScan (fuel : nat) (db : Anonymiser) (table what : string)
  (cols : list string) : M idCursor :=
  pageLoop fuel (fun c : idCursor =>
    WithTxn db
      (queryFunc db (idPageQuery table cols (fst c))
         (patchVisit db table what cols) (false, c)))
    (0%Z, 0%Z).

Definition anonymiseImages (fuel : nat) (db : Anonymiser) : M unit :=
  _ <- logger_Infof "Anonymising images" ;;
  _ <- patchScan fuel db imageTable "images" ["title"; "url"] ;;
  ret tt.

Definition anonymiseGalleries (fuel : nat) (db : Anonymiser) : M unit :=
  _ <- logger_Infof "Anonymising galleries" ;;
  _ <- patchScan fuel db galleryTable "galleries" ["title"; "details"] ;;
  ret tt.

(** A [sql.NullString] bound as a statement argument. *)
Definition NullString_value (n : option string) : value :=
  match n with
  | Some s => VText s
  | None => VNull
  end.

(** The loop of [anonymiseAliases]; it leaves [lastID], [lastAlias] and
    [total]. *)
Definition aliasesScan (fuel : nat) (db : Anonymiser) (table idColumn : string)
  : M (Z * string * Z) :=
  pageLoop fuel (fun c : Z * string * Z =>
    let '(lastID, lastAlias, _) := c in
    WithTxn db
      (let query :=
         Query table [idColumn; "alias"]
               [TupleGt idColumn "alias" (VInt lastID) (VText lastAlias)]
               (Some pageSize) in
       queryFunc db query (fun r s =>
         let '(_, (_, _, total)) := s in
         match r with
         | [vid; valias] =>
           id <- lift (scan_int vid) ;;
           let alias := scan_NullString valias in
           set <- obfuscateNullString ∅ "alias" alias ;;
           _ <- (if decide (set = ∅) then ret tt
                 else
                   wrapErr ("anonymising " +:+ table)
                     (exec db (Update table set
                                 [Eq idColumn (VInt id);
                                  Eq "alias" (NullString_value alias)]))) ;;
           let total := (total + 1)%Z in
           _ <- logProgress total (table +:+ " aliases") ;;
           ret (true, (id, NullString_String alias, total))
         | _ => columnCount
         end) (false, c)))
    (0%Z, "", 0%Z).

Definition anonymiseAliases (fuel : nat) (db : Anonymiser) (table idColumn : string)
  : M unit :=
  _ <- aliasesScan fuel db table idColumn ;;
  ret tt.

Definition anonymisePerformers (fuel : nat) (db : Anonymiser) : M unit :=
  _ <- logger_Infof "Anonymising performers" ;;
  _ <- patchScan fuel db performerTable "performers"
         ["name"; "details"; "url"; "twitter"; "instagram"; "tattoos"; "piercings"] ;;
  anonymiseAliases fuel db performersAliasesTable "performer_id".

Definition anonymiseStudios (fuel : nat) (db : Anonymiser) : M unit :=
  _ <- logger_Infof "Anonymising studios" ;;
  _ <- patchScan fuel db studioTable "studios" ["name"; "url"; "details"] ;;
  anonymiseAliases fuel db studioAliasesTable "studio_id".

Definition anonymiseTags (fuel : nat) (db : Anonymiser) : M unit :=
  _ <- logger_Infof "Anonymising tags" ;;
  _ <- patchScan fuel db tagTable "tags" ["name"; "description"] ;;
  anonymiseAliases fuel db tagAliasesTable "tag_id".

Definition anonymiseMovies (fuel : nat) (db : Anonymiser) : M unit :=
  _ <- logger_Infof "Anonymising movies" ;;
  _ <- patchScan fuel db movieTable "movies"
         ["name"; "aliases"; "synopsis"; "url"; "director"] ;;
  ret tt.

(** *** The run *)

Definition stages (fuel : nat) (db : Anonymiser) : list (M unit) :=
  [ deleteBlobs db;
    deleteStashIDs db;
    anonymiseFolders fuel db;
    anonymiseFiles db;
    anonymiseFingerprints fuel db;
    anonymiseScenes fuel db;
    anonymiseMarkers fuel db;
    anonymiseImages fuel db;
    anonymiseGalleries fuel db;
    anonymisePerformers fuel db;
    anonymiseStudios fuel db;
    anonymiseTags fuel db;
    anonymiseMovies fuel db;
    optimise db ].

Definition Anonymise (fuel : nat) (db : Anonymiser) : M unit := fun st =>
  match defer (Close db) (Do (stages fuel db)) st with
  | (Err err, st') =>
    (* delete the database *)
    (Err err, snd (Remove db st'))
  | other => other
  end.

(** A caller: create the working copy of the store behind [src] at
    [outPath], then anonymise it. *)
Definition anonymiseDatabase (fuel : nat) (src : Database) (outPath : string) : M unit :=
  db <- NewAnonymiser src outPath ;;
  Anonymise fuel db.

(** ** Sample stores *)

Definition mkRow (kvs : list (string * value)) : gmap string value := list_to_map kvs.

Definition noFaults : Faults :=
  {| vacuum_fails := false; open_fails := false; remove_fails := false |}.

(** The reader that returns [ns] in order and then zeros. *)
Definition readerOf (ns : list nat) : nat -> draw :=
  fun i => RandNum (nth i ns 0).

(** The reader that is unavailable from read [k] on. *)
Definition readerFailingAt (k : nat) (ns : list nat) : nat -> draw :=
  fun i => if (i <? k)%nat then RandNum (nth i ns 0) else RandErr.

Definition emptyTables : gmap string (list (gmap string value)) :=
  list_to_map
    (map (fun t => (t, []))
       [ "tags"; "studios"; "performers"; "scenes"; "movies"; "blobs";
         "scene_stash_ids"; "studio_stash_ids"; "performer_stash_ids";
         folderTable; fileTable; fingerprintTable; sceneMarkerTable; imageTable;
         galleryTable; performersAliasesTable; studioAliasesTable; tagAliasesTable ]).

(** A store with the given tables and every other table empty. *)
Definition storeOf (ts : list (string * list (gmap string value)))
  : gmap string (list (gmap string value)) :=
  list_to_map ts ∪ emptyTables.

Definition initSt (fs : list (string * gmap string (list (gmap string value))))
  (r : nat -> draw) (f : Faults) : St :=
  mkSt (list_to_map fs) ∅ r 0 f [].

Definition srcDB : Database := {| dbPath := "stash.sqlite" |}.
Definition outDB : Anonymiser := mkAnonymiser {| dbPath := "anon.sqlite" |}.

(** The table of a store file, if both exist. *)
Definition tableOf (st : St) (path t : string) : option (list (gmap string value)) :=
  d ← files st !! path; d !! t.

(** ** Notions used in the statements *)

(** [obf_rel dict cs o]: [o] is what the loop of [obfuscateString] appends
    for the runes [cs]: a space is written back as it is, any other rune
    becomes one byte of [dict]. *)
Inductive obf_rel (dict : string) : list rune → string → Prop :=
| obf_nil : obf_rel dict [] ""
| obf_space c cs o :
    IsSpace c = true → obf_rel dict cs o →
    obf_rel dict (c :: cs) (utf8_encode c +:+ o)
| obf_char c cs o n b :
    IsSpace c = false → String.get n dict = Some b → obf_rel dict cs o →
    obf_rel dict (c :: cs) (String b o).

(** The random source never fails. *)
Definition alive (st : St) : Prop := ∀ i, rnd st i ≠ RandErr.


(** The two bytes of U+00E9 in UTF-8. *)
Definition eacute : string := String (ascii_of_N 0xC3) (String (ascii_of_N 0xA9) "").

(** The state in which table [t] of the store file at [p] holds [rows]. *)
Definition putTable (p t : string) (rows : list (gmap string value)) (st : St) : St :=
  set_files (fun fs =>
    match fs !! p with
    | Some d => <[p := <[t := rows]> d]> fs
    | None => fs
    end) st.

Definition sampleFiles : list (gmap string value) :=
  [ mkRow [("id", VInt 7); ("basename", VText "holiday.mp4")];
    mkRow [("id", VInt 8); ("basename", VText "8")] ].

Definition sampleFilesSt : St :=
  initSt [("anon.sqlite", storeOf [(fileTable, sampleFiles)])] (readerOf []) noFaults.

(** ** The folder tree *)

(** The tree structure of the folder table: [id] and [parent_folder_id] of
    every row. *)
Definition skeleton (rows : list (gmap string value)) : list (value * value) :=
  map (fun r => (col r "id", col r "parent_folder_id")) rows.

Definition hasParent (sk : list (value * value)) (i p : Z) : Prop :=
  (VInt i, VInt p) ∈ sk.

(** The folder table is a forest: integer non-zero identifiers, each once;
    every parent reference is NULL or the identifier of a row; and parents
    rank strictly above their children for some ranking [ht], so that no
    folder is its own ancestor. *)
Record folderForest (sk : list (value * value)) (ht : Z → nat) : Prop := {
  ff_ids : ∀ v pp, (v, pp) ∈ sk → ∃ i, v = VInt i ∧ i ≠ 0%Z;
  ff_parents : ∀ v pp, (v, pp) ∈ sk → pp = VNull ∨ ∃ p, pp = VInt p;
  ff_unique : ∀ v pp pp', (v, pp) ∈ sk → (v, pp') ∈ sk → pp = pp';
  ff_fk : ∀ i p, hasParent sk i p → ∃ pp, (VInt p, pp) ∈ sk;
  ff_acyclic : ∀ i p, hasParent sk i p → (ht i < ht p)%nat
}.

(** [relPath sk a i s]: folder [i] lies strictly below folder [a], and [s]
    is the path from [a] down to [i], one separator and identifier per
    level. *)
Inductive relPath (sk : list (value * value)) (a : Z) : Z → string → Prop :=
| rp_child i :
    hasParent sk i a → relPath sk a i (Separator +:+ itoa i)
| rp_step i p s :
    hasParent sk i p → relPath sk a p s →
    relPath sk a i (s +:+ Separator +:+ itoa i).

(** What a recursive call for folder [a] with path [pa] does to a row. *)
Definition subtreeDone (sk : list (value * value)) (a : Z) (pa : string)
  (r r' : gmap string value) : Prop :=
  (∀ c, c ≠ "path" → r' !! c = r !! c)
  ∧ (∀ i s, col r "id" = VInt i → relPath sk a i s →
       col r' "path" = VText (pa +:+ s))
  ∧ (col r' "path" = col r "path"
     ∨ ∃ i s, col r "id" = VInt i ∧ relPath sk a i s).

(** What the calls for the folders [kp] (identifier and path) do together. *)
Definition subtreesDone (sk : list (value * value)) (kp : list (Z * string))
  (r r' : gmap string value) : Prop :=
  (∀ c, c ≠ "path" → r' !! c = r !! c)
  ∧ (∀ i a pa s, col r "id" = VInt i → (a, pa) ∈ kp → relPath sk a i s →
       col r' "path" = VText (pa +:+ s))
  ∧ (col r' "path" = col r "path"
     ∨ ∃ i a pa s, col r "id" = VInt i ∧ (a, pa) ∈ kp ∧ relPath sk a i s).

(** Two of the folders [kp] never disagree on the path of a common
    descendant. *)
Definition compatible (sk : list (value * value)) (kp : list (Z * string)) : Prop :=
  ∀ a pa b pb i s t,
    (a, pa) ∈ kp → (b, pb) ∈ kp → relPath sk a i s → relPath sk b i t →
    pa +:+ s = pb +:+ t.

(** The children of folder [pid], each with the path the bulk update gives
    it. *)
Definition kidsOf (pid : Z) (ppath : string) (rows : list (gmap string value))
  : list (Z * string) :=
  omap (fun r =>
    match col r "id", col r "parent_folder_id" with
    | VInt c, VInt p =>
      if (p =? pid)%Z then Some (c, ppath +:+ Separator +:+ itoa c) else None
    | _, _ => None
    end) rows.

(** The root folders, each with its new path. *)
Definition rootsOf (rows : list (gmap string value)) : list (Z * string) :=
  omap (fun r =>
    match col r "id", col r "parent_folder_id" with
    | VInt c, VNull => Some (c, itoa c)
    | _, _ => None
    end) rows.

(** A row of the result set [SELECT id, path]. *)
Definition kidRow (k : Z * string) : list value := [VInt (fst k); VText (snd k)].

(** The SET clauses of the two bulk updates of the folder stage. *)
Definition childStmtSet (ppath : string) : gmap string setexpr :=
  {[ "path" := Concat3 (VText ppath) (VText Separator) "id" ]}.

Definition rootStmtSet : gmap string setexpr := {[ "path" := CastVarchar idColumn ]}.

(** The callback the folder stage passes to [queryFunc]. *)
Definition folderVisit (k : nat) (db : Anonymiser) (r : list value) (_ : unit) : M unit :=
  match r with
  | [vid; vpath] =>
    id <- lift (scan_int vid) ;;
    path <- lift (scan_string vpath) ;;
    anonymiseFoldersRecurse k db id path
  | _ => columnCount
  end.

(** What the whole folder stage does to the row of folder [i]: a root gets
    the text of its identifier, a folder below root [c] the path of [c]
    followed by its relative path. *)
Definition folderDone (sk : list (value * value)) (i : Z)
  (r r' : gmap string value) : Prop :=
  (∀ c, c ≠ "path" → r' !! c = r !! c)
  ∧ ((VInt i, VNull) ∈ sk → col r' "path" = VText (itoa i))
  ∧ (∀ c s, (VInt c, VNull) ∈ sk → relPath sk c i s →
       col r' "path" = VText (itoa c +:+ s)).

(** Folder A (id 5, no parent) and its subfolder B (id 9). *)
Definition sampleFolders : list (gmap string value) :=
  [ mkRow [("id", VInt 5); ("parent_folder_id", VNull); ("path", VText "/home/a")];
    mkRow [("id", VInt 9); ("parent_folder_id", VInt 5); ("path", VText "/home/a/b")] ].

Definition sampleFoldersSt : St :=
  initSt [("anon.sqlite", storeOf [(folderTable, sampleFolders)])] (readerOf []) noFaults.

Definition sampleRank (i : Z) : nat := if (i =? 5)%Z then 1 else 0.

(** What a call of [anonymiseFoldersRecurse] for a folder does, when the
    budget exceeds the rank of the folder. *)
Definition recurseSpec (db : Anonymiser) (ht : Z → nat) (k : nat) : Prop :=
  ∀ pid ppath st rows,
    pid ≠ 0%Z →
    tableOf st (workPath db) folderTable = Some rows →
    folderForest (skeleton rows) ht →
    (ht pid < k)%nat →
    ∃ rows',
      anonymiseFoldersRecurse k db pid ppath st
      = (Ok tt, putTable (workPath db) folderTable rows' st)
      ∧ Forall2 (subtreeDone (skeleton rows) pid ppath) rows rows'.

(** ** What every step of a run respects *)

Definition randomPanic : string := "error generating random number".

(** [runRel p st r st']: a computation started in [st] that ended in [st']
    with result [r] touched no store file but the one at [p], left the
    random source and the fault plan as they were, and either every number
    it drew was delivered, or its last draw, and only that one, failed and
    it panicked there. *)
Definition runRel (p : string) (st : St) {A} (r : result A) (st' : St) : Prop :=
  (∀ q, q ≠ p → files st' !! q = files st !! q)
  ∧ rnd st' = rnd st
  ∧ faults st' = faults st
  ∧ (rpos st ≤ rpos st')%nat
  ∧ ((∀ i, (rpos st ≤ i < rpos st')%nat → rnd st i ≠ RandErr)
     ∨ (r = Panic randomPanic ∧ (rpos st < rpos st')%nat
        ∧ rnd st (rpos st' - 1) = RandErr
        ∧ ∀ i, (rpos st ≤ i < rpos st' - 1)%nat → rnd st i ≠ RandErr)).

Definition sound (p : string) {A} (m : M A) : Prop :=
  ∀ st, runRel p st (m st).1 (m st).2.

(** A source store whose copy cannot be opened. *)
Definition openFailSt : St :=
  initSt [("stash.sqlite", storeOf [])] (readerOf [])
    {| vacuum_fails := false; open_fails := true; remove_fails := false |}.

(** A working copy with one titled scene, and a random source that is
    unavailable from the first read on. *)
Definition deadReaderSt : St :=
  initSt [("anon.sqlite",
           storeOf [(sceneTable, [mkRow [("id", VInt 1); ("title", VText "x")]])])]
    (readerFailingAt 0 []) noFaults.

(** A source store with two folders and an aliased performer. *)
Definition sampleSourceSt : St :=
  initSt [("stash.sqlite",
           storeOf [(folderTable, sampleFolders);
                    (performersAliasesTable,
                     [mkRow [("performer_id", VInt 1); ("alias", VText "a")]])])]
    (readerOf [1; 0]) noFaults.

(** One aliased performer; the first draw selects ['b'], the second ['a']. *)
Definition sampleAliasRows : list (gmap string value) :=
  [mkRow [("performer_id", VInt 1); ("alias", VText "a")]].

Definition sampleAliasSt : St :=
  initSt [("anon.sqlite", storeOf [(performersAliasesTable, sampleAliasRows)])]
    (readerOf [1; 0]) noFaults.


(** What the update of [anonymiseText] does to a row: the column [c] is
    overwritten with [o] where it equals [v]. *)
Definition replaceValue (c v o : string) (r : gmap string value) : gmap string value :=
  if sql_eq (col r c) (VText v) then <[c := VText o]> r else r.

(** Two scenes with the same title and the same code. *)
Definition sharedScenes : list (gmap string value) :=
  [ mkRow [("id", VInt 1); ("title", VText "ab"); ("code", VText "ab")];
    mkRow [("id", VInt 2); ("title", VText "ab"); ("code", VText "ab")] ].

Definition sharedCodeSt : St :=
  initSt [("anon.sqlite", storeOf [(sceneTable, sharedScenes)])]
    (readerOf [0; 0; 5; 5; 7; 7; 2; 2]) noFaults.

(** ** Entity types with an alias table *)















(** ** Invariants of a run *)

(** [maintains I m φ]: started in a state that satisfies [I], the
    computation [m] ends (however it ends) in a state that satisfies [I],
    and a value it returns satisfies [φ]. *)
Definition maintains (I : St → Prop) {A} (m : M A) (φ : A → Prop) : Prop :=
  ∀ st, I st → I (m st).2 ∧ ∀ a, (m st).1 = Ok a → φ a.

(** The invariant looks at the store files only. *)
Definition filesOnly (I : St → Prop) : Prop :=
  ∀ st st', files st' = files st → I st → I st'.

(** The invariant survives the rollback of a transaction on [db]. *)
Definition txnStable (I : St → Prop) (db : Anonymiser) : Prop :=
  ∀ st st', I st → I st' →
    I (set_files (restore (workPath db) (files st !! workPath db)) st').

(** The invariant survives running the statement [s] on [db]. *)
Definition stmtStable (I : St → Prop) (db : Anonymiser) (s : stmt) : Prop :=
  ∀ st d d', I st → files st !! workPath db = Some d → run_stmt s d = inr d' →
    I (set_files (insert (workPath db) d') st).


(** The page of a scan that patches rows by [id]. *)
Definition patchPage (db : Anonymiser) (table what : string) (cols : list string)
  (c : idCursor) : M (bool * idCursor) :=
  WithTxn db
    (queryFunc db (idPageQuery table cols (fst c))
       (patchVisit db table what cols) (false, c)).

(** What a page leaves in the loop variables: a new cursor strictly above
    the old one when it saw a row, the old variables when it saw none. *)
Definition cursorAdvanced (c : idCursor) (r : bool * idCursor) : Prop :=
  if fst r then (fst c < fst (snd r))%Z else snd r = c.

(** ** What a run writes *)

(** Column [c] of table [t] of the store file at [p] holds, row by row,
    the bindings [vals]. *)
Definition colFrozen (p t c : string) (vals : list (option value)) (st : St) : Prop :=
  ∃ rows, tableOf st p t = Some rows ∧ map (fun r : gmap string value => r !! c) rows = vals.

(** The columns the stages write, table by table. *)
Definition writtenColumns : list (string * string) :=
  [ ("tags", "image_blob"); ("studios", "image_blob"); ("performers", "image_blob");
    ("scenes", "cover_blob"); ("movies", "front_image_blob"); ("movies", "back_image_blob");
    (folderTable, "path"); (fileTable, "basename"); (fingerprintTable, "fingerprint");
    (sceneTable, "title"); (sceneTable, "details"); (sceneTable, "url");
    (sceneTable, "code"); (sceneTable, "director");
    (sceneMarkerTable, "title");
    (imageTable, "title"); (imageTable, "url");
    (galleryTable, "title"); (galleryTable, "details");
    (performerTable, "name"); (performerTable, "details"); (performerTable, "url");
    (performerTable, "twitter"); (performerTable, "instagram");
    (performerTable, "tattoos"); (performerTable, "piercings");
    (performersAliasesTable, "alias");
    (studioTable, "name"); (studioTable, "url"); (studioTable, "details");
    (studioAliasesTable, "alias");
    (tagTable, "name"); (tagTable, "description");
    (tagAliasesTable, "alias");
    (movieTable, "name"); (movieTable, "aliases"); (movieTable, "synopsis");
    (movieTable, "url"); (movieTable, "director") ].

(** The tables the run empties. *)
Definition truncatedTables : list string :=
  [ "blobs"; "scene_stash_ids"; "studio_stash_ids"; "performer_stash_ids" ].

(** Writing column [c'] of table [t'] leaves column [c] of table [t] alone. *)
Definition apart (t c t' c' : string) : Prop := t' ≠ t ∨ c' ≠ c.

(** A record that can be written to table [t'] without touching column [c]
    of table [t]. *)
Definition harmless (t c t' : string) (set : gmap string setexpr) : Prop :=
  t' ≠ t ∨ set !! c = None.

(** The computation does not stop for lack of budget. *)
Definition noTimeout {A} (m : M A) : Prop := ∀ st, (m st).1 ≠ OutOfFuel.

(** The rows of a table whose [id] (given as the bindings [vals] of the
    column) lies above the cursor: what a scan keyed on [id] has left to
    visit. *)
Definition pagesLeft (vals : list (option value)) (cursor : Z) : nat :=
  length (filter (fun v : option value => sql_gt (default VNull v) (VInt cursor) = true) vals).

(** What a page of a scan keyed on [id] leaves in the loop variables when it
    saw a row: the [id] of a row of the table, above the old cursor. *)
Definition cursorOnRow (vals : list (option value)) (c : idCursor)
  (r : bool * idCursor) : Prop :=
  fst r = true →
  ∃ v, v ∈ vals ∧ default VNull v = VInt (fst (snd r)) ∧ (fst c < fst (snd r))%Z.

(** Two images, the second without a url. *)
Definition sampleImages : list (gmap string value) :=
  [ mkRow [("id", VInt 1); ("title", VText "a b"); ("url", VText "x")];
    mkRow [("id", VInt 2); ("title", VText "c"); ("url", VNull)] ].

Definition sampleImagesSt : St :=
  initSt [("anon.sqlite", storeOf [(imageTable, sampleImages)])] (readerOf [3; 4; 5; 6]) noFaults.

(** ** Stripping *)

(** The columns [deleteBlobs] nulls. *)
Definition blobColumns : list (string * string) :=
  [ ("tags", "image_blob"); ("studios", "image_blob"); ("performers", "image_blob");
    ("scenes", "cover_blob"); ("movies", "front_image_blob"); ("movies", "back_image_blob") ].

Definition blobTables : list string :=
  [ "tags"; "studios"; "performers"; "scenes"; "movies"; "blobs" ].

Definition stashIDTables : list string :=
  [ "scene_stash_ids"; "studio_stash_ids"; "performer_stash_ids" ].

(** [nulled S p st st']: every table of the store file at [p] has in [st']
    the rows it had in [st], with the columns listed in [S] for that table
    set to NULL and every other binding as it was. *)
Definition nulled (S : list (string * string)) (p : string) (st st' : St) : Prop :=
  ∀ t rows, tableOf st p t = Some rows →
    ∃ rows', tableOf st' p t = Some rows'
      ∧ Forall2 (fun r r' : gmap string value =>
                   ∀ c, r' !! c = if bool_decide ((t, c) ∈ S) then Some VNull else r !! c)
                rows rows'.

(** A store with the tables the strippers touch. *)
Definition sampleBlobsSt : St :=
  initSt [("anon.sqlite",
           storeOf [("tags", [mkRow [("id", VInt 1); ("name", VText "x");
                                     ("image_blob", VBlob "png")]]);
                    ("blobs", [mkRow [("checksum", VText "ab"); ("blob", VBlob "png")]]);
                    ("scene_stash_ids", [mkRow [("scene_id", VInt 1);
                                                ("stash_id", VText "u-u-i-d")]])])]
    (readerOf []) noFaults.

(** ** What a scan keyed on [id] leaves in a row *)

(** [valObf v v']: [v'] is what a visit leaves in a nullable text column
    that held [v]: NULL (or no binding) stays as it is, anything else
    becomes an obfuscation of its text over the alphanumeric alphabet. *)
Definition valObf (v v' : option value) : Prop :=
  match scan_NullString (default VNull v) with
  | None => v' = v
  | Some s => ∃ o, v' = Some (VText o) ∧ obf_rel letters (range_string s) o
  end.

(** [rowObf cols r r']: row [r'] is row [r] with the columns [cols]
    obfuscated and every other binding as it was. *)
Definition rowObf (cols : list string) (r r' : gmap string value) : Prop :=
  ∀ c, if bool_decide (c ∈ cols) then valObf (r !! c) (r' !! c) else r' !! c = r !! c.

(** The rows hold integer identifiers in strictly ascending storage order,
    all above [lo]. *)
Fixpoint ascendingIDs (lo : Z) (rows : list (gmap string value)) : Prop :=
  match rows with
  | [] => True
  | r :: rs => ∃ z, col r idColumn = VInt z ∧ (lo < z)%Z ∧ ascendingIDs z rs
  end.

(** The row holds an integer identifier not above [hi]. *)
Definition idUpTo (hi : Z) (r : gmap string value) : Prop :=
  ∃ z, col r idColumn = VInt z ∧ (z ≤ hi)%Z.

(** The record a visit builds for row [r]: it binds the columns of [cols]
    that are set in [r], each to an obfuscation of its text. *)
Definition recordFor (cols : list string) (r : gmap string value)
  (set : gmap string setexpr) : Prop :=
  ∀ c, (c ∉ cols → set !! c = None)
       ∧ (c ∈ cols →
          match scan_NullString (col r c) with
          | None => set !! c = None
          | Some s => ∃ o, set !! c = Some (Lit (VText o))
                           ∧ obf_rel letters (range_string s) o
          end).

(** A working copy with no table at all. *)
Definition emptyStoreSt : St :=
  initSt [("anon.sqlite", ∅)] (readerOf []) noFaults.

(** ** What a scan that replaces by value leaves in a row *)

(** [reobfuscated dict s o]: [o] is [s] after one or more rounds of
    obfuscation over [dict]: rune by rune, a space stands where it stood
    and any other rune is a symbol of [dict]. *)
Definition reobfuscated (dict s o : string) : Prop :=
  Forall2 (fun c x => if IsSpace c then x = c else In x (range_string dict))
          (range_string s) (range_string o).

(** A text that has been replaced, once or more often. *)
Definition valTouched (dict : string) (v v' : option value) : Prop :=
  ∃ s o, v = Some (VText s) ∧ v' = Some (VText o) ∧ reobfuscated dict s o.

(** A column replaced by value, on a row the scan has not visited yet: as
    it was, or replaced along with an equal value of a visited row. *)
Definition valPending (dict : string) (v v' : option value) : Prop :=
  v' = v ∨ valTouched dict v v'.

(** A column replaced by value, on a visited row: a text has been replaced,
    anything else is as it was. *)
Definition valDone (dict : string) (v v' : option value) : Prop :=
  ((∀ s, v ≠ Some (VText s)) ∧ v' = v) ∨ valTouched dict v v'.

Definition rowPending (dict : string) (valcols : list string)
  (r r' : gmap string value) : Prop :=
  ∀ c, if bool_decide (c ∈ valcols) then valPending dict (r !! c) (r' !! c)
       else r' !! c = r !! c.

(** The visit of row [r], read as [s] when its page was selected. *)
Definition rowVisited (dict : string) (idcols valcols : list string)
  (s r r' : gmap string value) : Prop :=
  ∀ c, if bool_decide (c ∈ valcols) then
         valPending dict (r !! c) (r' !! c)
         ∧ (r !! c = s !! c → valDone dict (s !! c) (r' !! c))
       else if bool_decide (c ∈ idcols) then valObf (s !! c) (r' !! c)
       else r' !! c = r !! c.

(** A row after the scan: the columns [valcols], replaced by value, hold a
    replaced text (or what they held, if that was no text), the columns
    [idcols], patched by id, are obfuscated, every other column is as it
    was. *)
Definition rowDone (dict : string) (idcols valcols : list string)
  (r r' : gmap string value) : Prop :=
  ∀ c, if bool_decide (c ∈ valcols) then valDone dict (r !! c) (r' !! c)
       else if bool_decide (c ∈ idcols) then valObf (r !! c) (r' !! c)
       else r' !! c = r !! c.

(** What one replacement by value of column [c], made for the row read as
    [s], does to the rows of the table. *)
Definition stepOn (dict c : string) (s : gmap string value)
  (f : gmap string value → gmap string value) : Prop :=
  (∀ x c', c' ≠ c → f x !! c' = x !! c')
  ∧ (∀ x, valPending dict (x !! c) (f x !! c))
  ∧ (∀ x, x !! c = s !! c → valDone dict (s !! c) (f x !! c)).

(** The rows hold keys in strictly ascending storage order, all above
    [lo]. *)
Fixpoint ascendingKeys {K} (key : gmap string value → option K) (lt : K → K → Prop)
  (lo : K) (rows : list (gmap string value)) : Prop :=
  match rows with
  | [] => True
  | r :: rs => ∃ k, key r = Some k ∧ lt lo k ∧ ascendingKeys key lt k rs
  end.

Definition keyUpTo {K} (key : gmap string value → option K) (lt : K → K → Prop)
  (hi : K) (r : gmap string value) : Prop :=
  ∃ k, key r = Some k ∧ (k = hi ∨ lt k hi).

(** The page of a scan whose loop variables are a key and a counter. *)
Definition keyedPage {K} (db : Anonymiser) (pq : K → query)
  (visit : list value → bool * (K * Z) → M (bool * (K * Z))) (c : K * Z)
  : M (bool * (K * Z)) :=
  WithTxn db (queryFunc db (pq (fst c)) visit (false, c)).

(** The key of a scan on [id]. *)
Definition idKey (r : gmap string value) : option Z :=
  match col r idColumn with
  | VInt z => Some z
  | _ => None
  end.

(** The callback of [anonymiseScenes]. *)
Definition sceneVisit (db : Anonymiser) (r : list value) (s : bool * idCursor)
  : M (bool * idCursor) :=
  let table := sceneTable in
  let total := snd (snd s) in
  match r with
  | [vid; vtitle; vdetails; vurl; vcode; vdirector] =>
    id <- lift (scan_int vid) ;;
    let title := scan_NullString vtitle in
    let details := scan_NullString vdetails in
    let url := scan_NullString vurl in
    let code := scan_NullString vcode in
    let director := scan_NullString vdirector in
    set <- obfuscateNullString ∅ "title" title ;;
    set <- obfuscateNullString set "details" details ;;
    set <- obfuscateNullString set "url" url ;;
    _ <- updateByID db table set id ;;
    _ <- match code with
         | Some v => anonymiseText db table "code" v
         | None => ret tt
         end ;;
    _ <- match director with
         | Some v => anonymiseText db table "director" v
         | None => ret tt
         end ;;
    let total := (total + 1)%Z in
    _ <- logProgress total "scenes" ;;
    ret (true, (id, total))
  | _ => columnCount
  end.

(** The callback of [anonymiseMarkers]. *)
Definition markerVisit (db : Anonymiser) (r : list value) (s : bool * idCursor)
  : M (bool * idCursor) :=
  let table := sceneMarkerTable in
  let total := snd (snd s) in
  match r with
  | [vid; vtitle] =>
    id <- lift (scan_int vid) ;;
    title <- lift (scan_string vtitle) ;;
    _ <- anonymiseText db table "title" title ;;
    let total := (total + 1)%Z in
    _ <- logProgress total "scene markers" ;;
    ret (true, (id, total))
  | _ => columnCount
  end.

Definition sampleMarkers : list (gmap string value) :=
  [ mkRow [("id", VInt 1); ("title", VText "x y"); ("scene_id", VInt 4)];
    mkRow [("id", VInt 3); ("title", VText "x y"); ("scene_id", VInt 4)] ].

Definition sampleMarkersSt : St :=
  initSt [("anon.sqlite", storeOf [(sceneMarkerTable, sampleMarkers)])]
    (readerOf [1; 2; 3; 4]) noFaults.

(** The key of the fingerprint scan: [(file_id, type)], ordered as SQL
    orders row values. *)
Definition fpKey (r : gmap string value) : option (Z * string) :=
  match col r fileIDColumn, col r "type" with
  | VInt z, VText ty => Some (z, ty)
  | _, _ => None
  end.

Definition fpLt (a b : Z * string) : Prop :=
  (fst a < fst b)%Z ∨ (fst a = fst b ∧ String.ltb (snd a) (snd b) = true).

Definition fpQuery (k : Z * string) : query :=
  Query fingerprintTable [fileIDColumn; "type"; "fingerprint"]
        [TupleGt "file_id" "type" (VInt (fst k)) (VText (snd k))]
        (Some pageSize).

(** The callback of [anonymiseFingerprints]. *)
Definition fingerprintVisit (db : Anonymiser) (r : list value)
  (s : bool * (Z * string * Z)) : M (bool * (Z * string * Z)) :=
  let table := fingerprintTable in
  let '(_, (_, _, total)) := s in
  match r with
  | [vid; vtyp; vfingerprint] =>
    id <- lift (scan_int vid) ;;
    typ <- lift (scan_string vtyp) ;;
    fingerprint <- lift (scan_string vfingerprint) ;;
    _ <- anonymiseFingerprint db table "fingerprint" fingerprint ;;
    let total := (total + 1)%Z in
    _ <- logProgress total "fingerprints" ;;
    ret (true, (id, typ, total))
  | _ => columnCount
  end.

Definition sampleFingerprints : list (gmap string value) :=
  [ mkRow [("file_id", VInt 1); ("type", VText "md5"); ("fingerprint", VText "ab12")];
    mkRow [("file_id", VInt 1); ("type", VText "oshash"); ("fingerprint", VText "c d")];
    mkRow [("file_id", VInt 2); ("type", VText "md5"); ("fingerprint", VText "ab12")] ].

Definition sampleFingerprintsSt : St :=
  initSt [("anon.sqlite", storeOf [(fingerprintTable, sampleFingerprints)])]
    (readerOf [1; 2; 3; 4; 5; 6; 7; 8; 9; 10]) noFaults.

(** Two markers, the second without a title. *)
Definition untitledMarkerSt : St :=
  initSt [("anon.sqlite",
           storeOf [(sceneMarkerTable,
                     [ mkRow [("id", VInt 1); ("title", VText "x y")];
                       mkRow [("id", VInt 2); ("title", VNull)] ])])]
    (readerOf [1; 2]) noFaults.

(** * Properties *)

#[local] Arguments String.append !s1 s2 / : simpl nomatch.

(** ** Strings *)

Lemma append_nil_r (s : string) : s +:+ "" = s.
Proof. induction s as [|a s IH]; simpl; [done | by rewrite IH]. Qed.

Lemma append_assoc (a b c : string) : (a +:+ b) +:+ c = a +:+ (b +:+ c).
Proof. induction a as [|x a IH]; simpl; [done | by rewrite IH]. Qed.

Lemma length_append (a b : string) :
  String.length (a +:+ b) = (String.length a + String.length b)%nat.
Proof. induction a as [|x a IH]; simpl; [done | by rewrite IH]. Qed.

Lemma get_lt (s : string) (n : nat) :
  (n < String.length s)%nat → ∃ b, String.get n s = Some b.
Proof.
  revert n. induction s as [|a s IH]; intros n Hn; simpl in *; [lia |].
  destruct n as [|n]; [eauto |]. apply IH. lia.
Qed.

Lemma get_In (s : string) (n : nat) (b : ascii) :
  String.get n s = Some b → In b (list_ascii_of_string s).
Proof.
  revert n. induction s as [|a s IH]; intros n Hn; simpl in *; [done |].
  destruct n as [|n]; [left; congruence | right; eauto].
Qed.

Lemma range_string_ASCII (s : string) :
  isASCII s = true → range_string s = map N_of_ascii (list_ascii_of_string s).
Proof.
  induction s as [|a s IH]; simpl; [done |].
  intros [Ha Hs]%andb_true_iff. rewrite Ha. by rewrite IH.
Qed.

Lemma isASCII_In (s : string) (b : ascii) :
  isASCII s = true → In b (list_ascii_of_string s) → (N_of_ascii b < 0x80)%N.
Proof.
  induction s as [|a s IH]; simpl; [done |].
  intros [Ha Hs]%andb_true_iff [->|Hin]; [by apply N.ltb_lt | auto].
Qed.

(** ** Whitespace and UTF-8 *)

Lemma IsSpace_spaces (c : rune) : IsSpace c = true → In c spaces.
Proof.
  unfold IsSpace, inRange, spaces, rune in *. intros H.
  destruct (N.leb_spec c 0xFF) as [Hle|Hgt].
  - rewrite !orb_true_iff, !andb_true_iff, !N.leb_le, !N.eqb_eq in H.
    simpl. lia.
  - rewrite !orb_true_iff, !andb_true_iff, !N.leb_le, !N.eqb_eq in H.
    simpl. lia.
Qed.

(** Decoding the encoding of a space yields that space and continues after
    it. *)
Lemma range_string_space (c : rune) (rest : string) :
  IsSpace c = true →
  range_string (utf8_encode c +:+ rest) = c :: range_string rest.
Proof.
  intros H%IsSpace_spaces. unfold spaces in H. simpl in H.
  repeat (destruct H as [<-|H]; [reflexivity |]). done.
Qed.

Lemma range_string_byte (b : ascii) (rest : string) :
  (N_of_ascii b < 0x80)%N →
  range_string (String b rest) = N_of_ascii b :: range_string rest.
Proof. intros H%N.ltb_lt. simpl. by rewrite H. Qed.

Lemma space_encode_length (c : rune) :
  (c < 0x80)%N → String.length (utf8_encode c) = 1%nat.
Proof.
  intros H. unfold utf8_encode.
  destruct (N.leb_spec c 0x7F); [done | lia].
Qed.

(** ** Obfuscation *)

Lemma obfuscateLoop_inv (dict : string) (cs : list rune) :
  ∀ out st r st',
    obfuscateLoop cs dict out st = (Ok r, st') →
    ∃ o, r = out +:+ o ∧ obf_rel dict cs o.
Proof.
  induction cs as [|c cs IH]; intros out st r st' H; simpl in H.
  - inversion H; subst. exists "". rewrite append_nil_r. split; [done | constructor].
  - destruct (IsSpace c) eqn:Hc.
    + apply IH in H as (o & -> & Ho). exists (utf8_encode c +:+ o).
      rewrite append_assoc. split; [done | by constructor].
    + unfold bind, rand_Int in H.
      destruct (String.length dict) eqn:Hlen; [done |].
      destruct (rnd st (rpos st)) as [|n0]; [done |].
      destruct (String.get _ dict) as [b|] eqn:Hb; [|done].
      apply IH in H as (o & -> & Ho). exists (String b o).
      rewrite append_assoc. split; [done | by econstructor].
Qed.

Lemma obfuscateLoop_total (dict : string) (cs : list rune) :
  dict ≠ "" →
  ∀ out st, alive st →
    ∃ r st', obfuscateLoop cs dict out st = (Ok r, st') ∧ alive st'.
Proof.
  intros Hd. induction cs as [|c cs IH]; intros out st Hst; simpl.
  - by exists out, st.
  - destruct (IsSpace c); [by apply IH |].
    unfold bind, rand_Int.
    destruct (String.length dict) as [|k] eqn:Hlen.
    { destruct dict; [done | discriminate]. }
    pose proof (Hst (rpos st)) as Hr.
    destruct (rnd st (rpos st)) as [|n0] eqn:Hrnd; [done |].
    destruct (get_lt dict (n0 mod S k)) as [b Hb].
    { rewrite Hlen. apply Nat.mod_upper_bound. lia. }
    rewrite Hb. apply IH. intros i. apply Hst.
Qed.

(** The runes of the output, position by position. *)
Lemma obf_rel_runes (dict : string) (cs : list rune) (o : string) :
  isASCII dict = true → obf_rel dict cs o →
  Forall2 (fun c x => if IsSpace c then x = c else In x (range_string dict))
          cs (range_string o).
Proof.
  intros Hd. induction 1 as [|c cs o Hc _ IH|c cs o n b Hc Hb _ IH].
  - constructor.
  - rewrite range_string_space by done. constructor; [by rewrite Hc | done].
  - apply get_In in Hb. rewrite range_string_byte by eauto using isASCII_In.
    constructor; [|done]. rewrite Hc, range_string_ASCII by done.
    by apply in_map.
Qed.

Lemma obf_rel_length (dict : string) (cs : list rune) (o : string) :
  Forall (fun c => (c < 0x80)%N) cs → obf_rel dict cs o →
  String.length o = length cs.
Proof.
  intros Hcs. induction 1 as [|c cs o Hc _ IH|c cs o n b Hc Hb _ IH];
    inversion Hcs; subst; simpl in *.
  - done.
  - rewrite length_append, space_encode_length, IH by done. done.
  - by rewrite IH.
Qed.

Lemma range_string_ASCII_length (s : string) :
  isASCII s = true →
  length (range_string s) = String.length s
  ∧ Forall (fun c => (c < 0x80)%N) (range_string s).
Proof.
  induction s as [|a s IH]; simpl; [by split; [|constructor] |].
  intros [Ha Hs]%andb_true_iff. rewrite Ha. destruct (IH Hs) as [IH1 IH2].
  split; simpl; [by rewrite IH1 | constructor; [by apply N.ltb_lt | done]].
Qed.

(** C3 (as amended): for every string [s] and every non-empty alphabet [A]
    of single-byte symbols, with the random source available,
    [obfuscateString s A] returns a string with as many characters as [s]
    (position by position: [Forall2]), in which every whitespace character
    of [s] stands unchanged at its position and every non-whitespace
    character is a member of [A]; when [s] is itself single-byte text the
    byte length is the same too. *)
Theorem obfuscateString_shape (s A : string) (st : St) :
  A ≠ "" → isASCII A = true → alive st →
  ∃ out st',
    obfuscateString s A st = (Ok out, st')
    ∧ Forall2 (fun c o => (IsSpace c = true → o = c)
                          ∧ (IsSpace o = false → In o (range_string A)))
              (range_string s) (range_string out)
    ∧ (isASCII s = true → String.length out = String.length s).
Proof.
  intros HA Hascii Hst. unfold obfuscateString.
  destruct (obfuscateLoop_total A (range_string s) HA "" st Hst) as (r & st' & Hr & _).
  exists r, st'. split; [done |].
  apply obfuscateLoop_inv in Hr as (o & -> & Ho). simpl.
  split.
  - eapply Forall2_impl; [by apply obf_rel_runes |].
    intros c x Hcx. simpl in Hcx. destruct (IsSpace c) eqn:Hc.
    + subst x. split; [done | congruence].
    + split; [done | auto].
  - intros Hs. destruct (range_string_ASCII_length s Hs) as [Hlen Hall].
    rewrite <- Hlen. by eapply obf_rel_length.
Qed.

Lemma obfuscateString_shape_witness :
  letters ≠ "" ∧ isASCII letters = true
  ∧ alive (initSt [] (readerOf [3; 1]) noFaults)
  ∧ ∃ out st',
      obfuscateString "a b" letters (initSt [] (readerOf [3; 1]) noFaults) = (Ok out, st')
      ∧ Forall2 (fun c o => (IsSpace c = true → o = c)
                            ∧ (IsSpace o = false → In o (range_string letters)))
                (range_string "a b") (range_string out)
      ∧ (isASCII "a b" = true → String.length out = String.length "a b").
Proof.
  assert (H1 : letters ≠ "") by done.
  assert (H2 : isASCII letters = true) by reflexivity.
  assert (H3 : alive (initSt [] (readerOf [3; 1]) noFaults)) by (intros i; done).
  split; [exact H1 |]. split; [exact H2 |]. split; [exact H3 |].
  exact (obfuscateString_shape "a b" letters _ H1 H2 H3).
Defined.

(** C3, counterexample: the claim fails for "same length" read as bytes (a
    two-byte character becomes one alphabet byte) and read as characters
    (two bytes drawn from a multi-byte alphabet decode as one character). *)
Lemma obfuscateString_length_counterexample :
  (∃ s A st out st',
      obfuscateString s A st = (Ok out, st')
      ∧ String.length out ≠ String.length s)
  ∧ (∃ s A st out st',
      obfuscateString s A st = (Ok out, st')
      ∧ length (range_string out) ≠ length (range_string s)).
Proof.
  split.
  - exists eacute, letters, (initSt [] (readerOf [0]) noFaults).
    eexists _, _. split; [vm_compute; reflexivity | vm_compute; lia].
  - exists "ab", eacute, (initSt [] (readerOf [0; 1]) noFaults).
    eexists _, _. split; [vm_compute; reflexivity | vm_compute; lia].
Qed.





(** ** Running statements on a store file *)

Lemma tableOf_Some (st : St) (p t : string) (rows : list (gmap string value)) :
  tableOf st p t = Some rows ↔
  ∃ d, files st !! p = Some d ∧ d !! t = Some rows.
Proof.
  unfold tableOf. destruct (files st !! p) as [d|]; simpl; split.
  - eauto.
  - by intros (d' & [= <-] & ?).
  - done.
  - by intros (d' & ? & ?).
Qed.

Lemma tableOf_putTable (st : St) (p t : string) (rows0 rows : list (gmap string value)) :
  tableOf st p t = Some rows0 →
  tableOf (putTable p t rows st) p t = Some rows.
Proof.
  intros (d & Hd & _)%tableOf_Some. apply tableOf_Some.
  exists (<[t := rows]> d). unfold putTable. simpl. rewrite Hd.
  by rewrite !lookup_insert_eq.
Qed.

Lemma tableOf_putTable_ne (st : St) (p t t' : string) (rows : list (gmap string value)) :
  t' ≠ t → tableOf (putTable p t rows st) p t' = tableOf st p t'.
Proof.
  intros Hne. unfold tableOf, putTable. simpl.
  destruct (files st !! p) as [d|] eqn:Hd; simpl; [|by rewrite Hd].
  rewrite lookup_insert_eq. simpl. by rewrite lookup_insert_ne.
Qed.

Lemma putTable_putTable (st : St) (p t : string) (r1 r2 : list (gmap string value)) :
  putTable p t r2 (putTable p t r1 st) = putTable p t r2 st.
Proof.
  unfold putTable, set_files. simpl. f_equal.
  destruct (files st !! p) as [d|] eqn:Hd; simpl; [|by rewrite Hd].
  by rewrite lookup_insert_eq, !insert_insert_eq.
Qed.

Lemma exec_Update (db : Anonymiser) (st : St) (t : string)
  (set : gmap string setexpr) (ws : list cond) (rows : list (gmap string value)) :
  tableOf st (workPath db) t = Some rows →
  exec db (Update t set ws) st
  = (Ok tt, putTable (workPath db) t (update_rows set ws rows) st).
Proof.
  intros (d & Hd & Ht)%tableOf_Some. unfold exec, putTable, set_files, run_stmt.
  by rewrite Hd, Ht.
Qed.

Lemma queryRows_ok (db : Anonymiser) (st : St) (q : query) (rows : list (gmap string value)) :
  tableOf st (workPath db) (q_from q) = Some rows →
  queryRows db q st = (Ok (select_rows q rows), st).
Proof.
  intros (d & Hd & Ht)%tableOf_Some. unfold queryRows, run_query.
  by rewrite Hd, Ht.
Qed.

Lemma apply_set_singleton (c : string) (e : setexpr) (r : gmap string value) :
  apply_set {[ c := e ]} r = <[c := eval_set r e]> r.
Proof. unfold apply_set. by rewrite map_fmap_singleton, insert_union_singleton_l. Qed.

Lemma col_insert (r : gmap string value) (c c' : string) (v : value) :
  col (<[c := v]> r) c' = if decide (c = c') then v else col r c'.
Proof. unfold col. rewrite lookup_insert. by case_decide. Qed.

(** ** Files *)

(** C10: the file stage rewrites [basename] of every row of the files
    table to the text of that row's [id], whatever it was before, with one
    UPDATE without WHERE in one transaction; nothing is obfuscated row by
    row (no random draw is made) and no other column changes. *)
Theorem anonymiseFiles_basename (db : Anonymiser) (st : St)
  (rows : list (gmap string value)) :
  tableOf st (workPath db) fileTable = Some rows →
  ∃ st',
    anonymiseFiles db st = (Ok tt, st')
    ∧ tableOf st' (workPath db) fileTable
      = Some (map (fun r => <["basename" := castVarchar (col r idColumn)]> r) rows)
    ∧ rpos st' = rpos st
    ∧ (∀ r z, r ∈ rows → col r idColumn = VInt z →
         col (<["basename" := castVarchar (col r idColumn)]> r) "basename" = VText (itoa z)).
Proof.
  intros Ht. eexists. split; [|split; [|split]].
  - unfold anonymiseFiles, bind, logger_Infof, WithTxn, wrapErr.
    erewrite exec_Update; [reflexivity |]. exact Ht.
  - erewrite tableOf_putTable; [|exact Ht]. f_equal.
    unfold update_rows. apply map_ext. intros r. simpl.
    by rewrite apply_set_singleton.
  - reflexivity.
  - intros r z _ Hz. rewrite col_insert. simpl. by rewrite Hz.
Qed.

Lemma anonymiseFiles_basename_witness :
  tableOf sampleFilesSt (workPath outDB) fileTable = Some sampleFiles
  ∧ ∃ st',
      anonymiseFiles outDB sampleFilesSt = (Ok tt, st')
      ∧ tableOf st' (workPath outDB) fileTable
        = Some (map (fun r => <["basename" := castVarchar (col r idColumn)]> r) sampleFiles)
      ∧ rpos st' = rpos sampleFilesSt
      ∧ (∀ r z, r ∈ sampleFiles → col r idColumn = VInt z →
           col (<["basename" := castVarchar (col r idColumn)]> r) "basename" = VText (itoa z)).
Proof.
  assert (H : tableOf sampleFilesSt (workPath outDB) fileTable = Some sampleFiles)
    by (vm_compute; reflexivity).
  split; [exact H |].
  exact (anonymiseFiles_basename outDB sampleFilesSt sampleFiles H).
Defined.

(** ** The folder tree *)

Section Forest.
Context (sk : list (value * value)) (ht : Z → nat).
Hypothesis forest : folderForest sk ht.

Lemma parent_unique (i p p' : Z) :
  hasParent sk i p → hasParent sk i p' → p = p'.
Proof.
  intros H1 H2. pose proof (ff_unique _ _ forest _ _ _ H1 H2). congruence.
Qed.

Lemma relPath_ht (a i : Z) (s : string) :
  relPath sk a i s → (ht i < ht a)%nat.
Proof.
  induction 1 as [i Hi|i p s Hi _ IH].
  - by apply (ff_acyclic _ _ forest).
  - pose proof (ff_acyclic _ _ forest _ _ Hi). lia.
Qed.

Lemma relPath_irrefl (a : Z) (s : string) : ¬ relPath sk a a s.
Proof. intros H%relPath_ht. lia. Qed.

Lemma relPath_det (a i : Z) (s s' : string) :
  relPath sk a i s → relPath sk a i s' → s = s'.
Proof.
  intros H. revert s'. induction H as [i Hi|i p s Hi Hp IH]; intros s' H'.
  - inversion H' as [? Hi'|? p' s0 Hi' Hp']; subst; [done |].
    rewrite (parent_unique _ _ _ Hi' Hi) in Hp'. by apply relPath_irrefl in Hp'.
  - inversion H' as [? Hi'|? p' s0 Hi' Hp']; subst.
    + rewrite (parent_unique _ _ _ Hi Hi') in Hp. by apply relPath_irrefl in Hp.
    + rewrite (parent_unique _ _ _ Hi' Hi) in Hp'. by rewrite (IH _ Hp').
Qed.

(** A descendant of [a] is a child of [a] or lies below exactly one child. *)
Lemma relPath_decomp (a i : Z) (s : string) :
  relPath sk a i s →
  (hasParent sk i a ∧ s = Separator +:+ itoa i)
  ∨ ∃ c s1, hasParent sk c a ∧ relPath sk c i s1
            ∧ s = (Separator +:+ itoa c) +:+ s1.
Proof.
  induction 1 as [i Hi|i p s Hi Hp IH]; [by left |]. right.
  destruct IH as [[Hpa ->]|(c & s1 & Hc & Hci & ->)].
  - exists p, (Separator +:+ itoa i). split; [done |]. split; [by constructor | done].
  - exists c, (s1 +:+ Separator +:+ itoa i). split; [done |].
    split; [by econstructor | by rewrite !append_assoc].
Qed.

Lemma relPath_below_child (a c i : Z) (s1 : string) :
  hasParent sk c a → relPath sk c i s1 →
  relPath sk a i ((Separator +:+ itoa c) +:+ s1).
Proof.
  intros Hc. induction 1 as [i Hi|i p s Hi Hp IH].
  - apply (rp_step sk a i c); [done | by constructor].
  - rewrite <- append_assoc. by apply (rp_step sk a i p).
Qed.

(** The ancestors of a folder form a chain. *)
Lemma relPath_chain (a b i : Z) (s t : string) :
  relPath sk a i s → relPath sk b i t →
  a = b ∨ (∃ u, relPath sk a b u) ∨ (∃ u, relPath sk b a u).
Proof.
  intros H. revert b t. induction H as [i Hi|i p s Hi Hp IH]; intros b t H'.
  - inversion H' as [? Hi'|? p' s0 Hi' Hp']; subst.
    + left. by eapply parent_unique.
    + right; right. rewrite (parent_unique _ _ _ Hi' Hi) in Hp'. eauto.
  - inversion H' as [? Hi'|? p' s0 Hi' Hp']; subst.
    + right; left. rewrite (parent_unique _ _ _ Hi Hi') in Hp. eauto.
    + rewrite (parent_unique _ _ _ Hi' Hi) in Hp'. eauto.
Qed.

(** Nothing lies below two folders with the same parent. *)
Lemma relPath_not_below_sibling (a c c' : Z) (u : string) :
  hasParent sk c a → hasParent sk c' a → ¬ relPath sk c c' u.
Proof.
  intros Hc Hc' H. pose proof (ff_acyclic _ _ forest _ _ Hc) as Hlt.
  inversion H as [? Hi'|? p' s0 Hi' Hp']; subst.
  - rewrite (parent_unique _ _ _ Hi' Hc') in Hlt. lia.
  - rewrite (parent_unique _ _ _ Hi' Hc') in Hp'. apply relPath_ht in Hp'. lia.
Qed.

Lemma child_unique (a c c' i : Z) (s t : string) :
  hasParent sk c a → hasParent sk c' a →
  relPath sk c i s → relPath sk c' i t → c = c'.
Proof.
  intros Hc Hc' H H'.
  destruct (relPath_chain _ _ _ _ _ H H') as [?|[[u Hu]|[u Hu]]]; [done | |].
  - by apply (relPath_not_below_sibling a c c') in Hu.
  - by apply (relPath_not_below_sibling a c' c) in Hu.
Qed.

Lemma isRoot_no_parent (c p : Z) : (VInt c, VNull) ∈ sk → ¬ hasParent sk c p.
Proof. intros H1 H2. by pose proof (ff_unique _ _ forest _ _ _ H1 H2). Qed.

Lemma root_unique (c c' i : Z) (s t : string) :
  (VInt c, VNull) ∈ sk → (VInt c', VNull) ∈ sk →
  relPath sk c i s → relPath sk c' i t → c = c'.
Proof.
  intros Hc Hc' H H'.
  destruct (relPath_chain _ _ _ _ _ H H') as [?|[[u Hu]|[u Hu]]]; [done | |].
  - inversion Hu; subst; by eapply isRoot_no_parent in Hc'.
  - inversion Hu; subst; by eapply isRoot_no_parent in Hc.
Qed.

(** Every folder with a parent lies below a root. *)
Lemma below_some_root (n : nat) (i p : Z) :
  (ht p < n)%nat → (∀ j pp, (VInt j, pp) ∈ sk → (ht j < n)%nat) →
  hasParent sk i p →
  ∃ c s, (VInt c, VNull) ∈ sk ∧ relPath sk c i s.
Proof.
  intros Hp Hbound. remember (n - ht p)%nat as m eqn:Hm.
  revert i p Hp Hm. induction m as [m IH] using lt_wf_ind. intros i p Hp Hm Hi.
  destruct (ff_fk _ _ forest _ _ Hi) as [pp Hpp].
  destruct (ff_parents _ _ forest _ _ Hpp) as [->|[p2 ->]].
  - exists p, (Separator +:+ itoa i). split; [done | by constructor].
  - pose proof (ff_acyclic _ _ forest _ _ Hpp) as Hlt.
    destruct (ff_fk _ _ forest _ _ Hpp) as [pp2 Hpp2].
    pose proof (Hbound _ _ Hpp2) as Hb.
    destruct (IH (n - ht p2)%nat ltac:(lia) p p2 Hb eq_refl Hpp) as (c & s & Hc & Hs).
    exists c, (s +:+ Separator +:+ itoa i). split; [done | by econstructor].
Qed.

Lemma compatible_tail (k : Z * string) (kp : list (Z * string)) :
  compatible sk (k :: kp) → compatible sk kp.
Proof.
  intros H a pa b pb i s t Ha Hb. apply H; by apply list_elem_of_further.
Qed.

Lemma compatible_children (pid : Z) (ppath : string) (kp : list (Z * string)) :
  (∀ c pc, (c, pc) ∈ kp → hasParent sk c pid ∧ pc = ppath +:+ Separator +:+ itoa c) →
  compatible sk kp.
Proof.
  intros Hkp a pa b pb i s t [Ha ->]%Hkp [Hb ->]%Hkp Hs Ht.
  pose proof (child_unique _ _ _ _ _ _ Ha Hb Hs Ht) as <-.
  by rewrite (relPath_det _ _ _ _ Hs Ht).
Qed.

Lemma compatible_roots (kp : list (Z * string)) :
  (∀ c pc, (c, pc) ∈ kp → (VInt c, VNull) ∈ sk ∧ pc = itoa c) →
  compatible sk kp.
Proof.
  intros Hkp a pa b pb i s t [Ha ->]%Hkp [Hb ->]%Hkp Hs Ht.
  pose proof (root_unique _ _ _ _ _ Ha Hb Hs Ht) as <-.
  by rewrite (relPath_det _ _ _ _ Hs Ht).
Qed.

Lemma col_same (r r' : gmap string value) (c : string) :
  r' !! c = r !! c → col r' c = col r c.
Proof. unfold col. by intros ->. Qed.

Lemma subtreesDone_nil (r : gmap string value) : subtreesDone sk [] r r.
Proof. split; [done |]. split; [|by left]. intros i a pa s _ H. by apply elem_of_nil in H. Qed.

Lemma subtreesDone_cons (a : Z) (pa : string) (kp : list (Z * string))
  (r r1 r2 : gmap string value) :
  compatible sk ((a, pa) :: kp) →
  subtreeDone sk a pa r r1 → subtreesDone sk kp r1 r2 →
  subtreesDone sk ((a, pa) :: kp) r r2.
Proof.
  intros Hcompat (Hs1 & Hp1 & Hu1) (Hs2 & Hp2 & Hu2).
  assert (Hid : col r1 "id" = col r "id") by (by apply col_same, Hs1).
  split; [|split].
  - intros c Hc. by rewrite Hs2, Hs1.
  - intros i b pb s Hi Hb Hs. rewrite <- Hid in Hi.
    apply elem_of_cons in Hb as [[= -> ->]|Hb]; [|by eapply Hp2].
    destruct Hu2 as [->|(i' & c & pc & t & Hi' & Hc & Ht)].
    + rewrite Hid in Hi. by eapply Hp1.
    + rewrite Hi in Hi'. injection Hi' as <-.
      rewrite (Hp2 _ _ _ _ Hi Hc Ht). f_equal. symmetry.
      eapply Hcompat; [by left | by right | done..].
  - destruct Hu2 as [->|(i' & c & pc & t & Hi' & Hc & Ht)].
    + destruct Hu1 as [->|(i & s & Hi & Hs)]; [by left | right].
      exists i, a, pa, s. split; [done |]. split; [by left | done].
    + right. exists i', c, pc, t. rewrite <- Hid. split; [done |].
      split; [by right | done].
Qed.

(** The bulk update of the children of [pid] followed by the calls for
    these children amounts to the call for [pid]. *)
Lemma subtreeDone_of_children (pid : Z) (ppath : string) (kp : list (Z * string))
  (i : Z) (r r1 r' : gmap string value) :
  (∀ c pc, (c, pc) ∈ kp ↔ hasParent sk c pid ∧ pc = ppath +:+ Separator +:+ itoa c) →
  col r "id" = VInt i →
  (∀ c, c ≠ "path" → r1 !! c = r !! c) →
  (hasParent sk i pid → col r1 "path" = VText (ppath +:+ Separator +:+ itoa i)) →
  (¬ hasParent sk i pid → col r1 "path" = col r "path") →
  subtreesDone sk kp r1 r' →
  subtreeDone sk pid ppath r r'.
Proof.
  intros Hkp Hi Hs1 Hch Hnch (Hs2 & Hp2 & Hu2).
  assert (Hid : col r1 "id" = VInt i) by (by rewrite (col_same r r1), Hi; [|apply Hs1]).
  split; [|split].
  - intros c Hc. by rewrite Hs2, Hs1.
  - intros i' s Hi' Hs. rewrite Hi in Hi'. injection Hi' as <-.
    destruct (relPath_decomp _ _ _ Hs) as [[Hpar ->]|(c & s1 & Hc & Hci & ->)].
    + destruct Hu2 as [->|(i' & c & pc & t & Hi' & [Hc ->]%Hkp & Ht)]; [by apply Hch |].
      rewrite Hid in Hi'. injection Hi' as <-.
      exfalso. by apply (relPath_not_below_sibling pid c i t Hc Hpar).
    + rewrite (Hp2 i c (ppath +:+ Separator +:+ itoa c) s1 Hid); [|by apply Hkp | done].
      by rewrite !append_assoc.
  - destruct Hu2 as [->|(i' & c & pc & t & Hi' & [Hc ->]%Hkp & Ht)].
    + destruct (decide ((VInt i, VInt pid) ∈ sk)) as [Hpar|Hpar].
      * right. exists i, (Separator +:+ itoa i). split; [done | by constructor].
      * left. by apply Hnch.
    + right. rewrite Hid in Hi'. injection Hi' as <-.
      exists i, ((Separator +:+ itoa c) +:+ t). split; [done |].
      by apply relPath_below_child.
Qed.
End Forest.

Lemma Forall2_map_l_in {A B} (f : A → A) (P Q : A → B → Prop) (l : list A) (k : list B) :
  Forall2 Q (map f l) k →
  (∀ x y, x ∈ l → Q (f x) y → P x y) →
  Forall2 P l k.
Proof.
  revert k. induction l as [|x l IH]; intros k H HP; simpl in H.
  - inversion H. constructor.
  - inversion H as [|? y ? k' Hxy Hrest]; subst. constructor.
    + apply HP; [by left | done].
    + apply IH; [done |]. intros x' y' Hx'. apply HP. by right.
Qed.

Lemma Forall2_compose {A} (P Q R : A → A → Prop) (l1 l2 l3 : list A) :
  Forall2 P l1 l2 → Forall2 Q l2 l3 →
  (∀ x y z, P x y → Q y z → R x z) →
  Forall2 R l1 l3.
Proof.
  intros H. revert l3. induction H as [|x y l1 l2 Hxy _ IH]; intros l3 H' HR.
  - inversion H'. constructor.
  - inversion H' as [|? z ? l3' Hyz Hrest]; subst. constructor; eauto.
Qed.

Lemma skeleton_same (rows rows' : list (gmap string value)) :
  Forall2 (fun r r' => ∀ c, c ≠ "path" → r' !! c = r !! c) rows rows' →
  skeleton rows' = skeleton rows.
Proof.
  induction 1 as [|r r' rows rows' Hr _ IH]; simpl; [done |].
  unfold col at 1 2. rewrite !Hr by done. by rewrite IH.
Qed.

Lemma skeleton_elem (rows : list (gmap string value)) (r : gmap string value) :
  r ∈ rows → (col r "id", col r "parent_folder_id") ∈ skeleton rows.
Proof.
  intros H. unfold skeleton. apply list_elem_of_In, in_map_iff.
  exists r. split; [done | by apply list_elem_of_In].
Qed.

Lemma putTable_same (st : St) (p t : string) (rows : list (gmap string value)) :
  tableOf st p t = Some rows → putTable p t rows st = st.
Proof.
  intros (d & Hd & Ht)%tableOf_Some. unfold putTable, set_files. rewrite Hd.
  rewrite (insert_id d), (insert_id (files st)) by done. by destruct st.
Qed.

Lemma updChild_same (ppath : string) (ws : list cond) (r : gmap string value) (c : string) :
  c ≠ "path" →
  (if matches ws r then apply_set (childStmtSet ppath) r else r) !! c = r !! c.
Proof.
  intros Hc. destruct (matches ws r); [|done].
  unfold childStmtSet. rewrite apply_set_singleton. by rewrite lookup_insert_ne.
Qed.

Lemma matches_parent (pid : Z) (r : gmap string value) :
  matches [Eq "parent_folder_id" (VInt pid)] r = true ↔ col r "parent_folder_id" = VInt pid.
Proof.
  unfold matches. simpl. rewrite andb_true_r.
  destruct (col r "parent_folder_id") as [|z|s|b]; simpl; try (split; done).
  rewrite Z.eqb_eq. split; congruence.
Qed.

Lemma matches_root (r : gmap string value) :
  matches [IsNull "parent_folder_id"] r = true ↔ col r "parent_folder_id" = VNull.
Proof.
  unfold matches. simpl. rewrite andb_true_r. apply bool_decide_eq_true.
Qed.

Lemma select_children (pid : Z) (ppath : string) (rows : list (gmap string value)) :
  (∀ r, r ∈ rows → ∃ i, col r "id" = VInt i) →
  select_rows (Query folderTable [idColumn; "path"] [Eq "parent_folder_id" (VInt pid)] None)
    (update_rows (childStmtSet ppath) [Eq "parent_folder_id" (VInt pid)] rows)
  = map kidRow (kidsOf pid ppath rows).
Proof.
  unfold select_rows, update_rows, kidsOf.
  cbn [q_limit q_where q_select take_limit].
  induction rows as [|r rows IH]; intros Hids; [done |].
  destruct (Hids r) as [i Hi]; [by left |].
  rewrite map_cons. cbn [omap list_omap].
  specialize (IH (fun r' Hr' => Hids r' (list_elem_of_further _ _ _ Hr'))).
  rewrite Hi. destruct (matches _ r) eqn:Hm.
  - pose proof (proj1 (matches_parent pid r) Hm) as Hp. rewrite Hp, Z.eqb_refl.
    rewrite filter_cons_True.
    2:{ apply matches_parent. unfold childStmtSet. rewrite apply_set_singleton.
        by rewrite col_insert. }
    rewrite !map_cons, IH. f_equal.
    unfold kidRow, childStmtSet. cbn [map fst snd].
    rewrite apply_set_singleton, !col_insert. cbn [eval_set]. unfold idColumn.
    rewrite !decide_False, decide_True, Hi by done.
    unfold sql_concat. cbn [sql_text]. by rewrite append_assoc.
  - rewrite filter_cons_False by (by rewrite Hm). rewrite IH.
    destruct (col r "parent_folder_id") as [|p|?|?] eqn:Hp; try done.
    destruct (Z.eqb_spec p pid) as [->|Hne]; [|done].
    apply matches_parent in Hp. congruence.
Qed.

Lemma kidsOf_elem (pid : Z) (ppath : string) (rows : list (gmap string value))
  (c : Z) (pc : string) :
  (c, pc) ∈ kidsOf pid ppath rows ↔
  hasParent (skeleton rows) c pid ∧ pc = ppath +:+ Separator +:+ itoa c.
Proof.
  unfold kidsOf, hasParent, skeleton. rewrite list_elem_of_omap. split.
  - intros (r & Hr & Hk).
    destruct (col r "id") as [|c'|?|?] eqn:Hi; try done.
    destruct (col r "parent_folder_id") as [|p|?|?] eqn:Hp; try done.
    destruct (Z.eqb_spec p pid) as [->|?]; [|done]. injection Hk as <- <-.
    split; [|done]. apply list_elem_of_In, in_map_iff. exists r.
    rewrite Hi, Hp. split; [done | by apply list_elem_of_In].
  - intros [(r & Hr & Hin)%list_elem_of_In%in_map_iff ->]. exists r.
    split; [by apply list_elem_of_In |]. injection Hr as -> ->.
    by rewrite Z.eqb_refl.
Qed.

Lemma select_roots (rows : list (gmap string value)) :
  (∀ r, r ∈ rows → ∃ i, col r "id" = VInt i) →
  select_rows (Query folderTable [idColumn; "path"] [IsNull "parent_folder_id"] None)
    (update_rows rootStmtSet [IsNull "parent_folder_id"] rows)
  = map kidRow (rootsOf rows).
Proof.
  unfold select_rows, update_rows, rootsOf.
  cbn [q_limit q_where q_select take_limit].
  induction rows as [|r rows IH]; intros Hids; [done |].
  destruct (Hids r) as [i Hi]; [by left |].
  rewrite map_cons. cbn [omap list_omap].
  specialize (IH (fun r' Hr' => Hids r' (list_elem_of_further _ _ _ Hr'))).
  rewrite Hi. destruct (matches _ r) eqn:Hm.
  - pose proof (proj1 (matches_root r) Hm) as Hp. rewrite Hp.
    rewrite filter_cons_True.
    2:{ apply matches_root. unfold rootStmtSet. rewrite apply_set_singleton.
        by rewrite col_insert. }
    rewrite !map_cons, IH. f_equal.
    unfold kidRow, rootStmtSet. cbn [map fst snd].
    rewrite apply_set_singleton, !col_insert. cbn [eval_set]. unfold idColumn.
    rewrite !decide_False, decide_True, Hi by done. done.
  - rewrite filter_cons_False by (by rewrite Hm). rewrite IH.
    destruct (col r "parent_folder_id") as [|p|?|?] eqn:Hp; try done.
    apply matches_root in Hp. congruence.
Qed.

Lemma rootsOf_elem (rows : list (gmap string value)) (c : Z) (pc : string) :
  (c, pc) ∈ rootsOf rows ↔ (VInt c, VNull) ∈ skeleton rows ∧ pc = itoa c.
Proof.
  unfold rootsOf, skeleton. rewrite list_elem_of_omap. split.
  - intros (r & Hr & Hk).
    destruct (col r "id") as [|c'|?|?] eqn:Hi; try done.
    destruct (col r "parent_folder_id") as [|p|?|?] eqn:Hp; try done.
    injection Hk as <- <-.
    split; [|done]. apply list_elem_of_In, in_map_iff. exists r.
    rewrite Hi, Hp. split; [done | by apply list_elem_of_In].
  - intros [(r & Hr & Hin)%list_elem_of_In%in_map_iff ->]. exists r.
    split; [by apply list_elem_of_In |]. by injection Hr as -> ->.
Qed.

Lemma Forall2_diag' {A} (P : A → A → Prop) (l : list A) :
  (∀ x, P x x) → Forall2 P l l.
Proof. intros H. induction l; constructor; auto. Qed.

Section FolderRun.
Context (db : Anonymiser) (ht : Z → nat).

Lemma recurse_step (k : nat) (pid : Z) (ppath : string) :
  anonymiseFoldersRecurse (S k) db pid ppath
  = (_ <- wrapErr ("anonymising " +:+ folderTable)
            (exec db (if (pid =? 0)%Z
                      then Update folderTable rootStmtSet [IsNull "parent_folder_id"]
                      else Update folderTable (childStmtSet ppath)
                             [Eq "parent_folder_id" (VInt pid)])) ;;
     queryFunc db
       (Query folderTable [idColumn; "path"]
          (if (pid =? 0)%Z then [IsNull "parent_folder_id"]
           else [Eq "parent_folder_id" (VInt pid)]) None)
       (folderVisit k db) tt).
Proof. reflexivity. Qed.

Lemma folderVisit_kid (k : nat) (c : Z) (pc : string) :
  folderVisit k db (kidRow (c, pc)) tt = anonymiseFoldersRecurse k db c pc.
Proof. reflexivity. Qed.

Lemma forRows_kids (k : nat) :
  recurseSpec db ht k →
  ∀ kp st rows,
    tableOf st (workPath db) folderTable = Some rows →
    folderForest (skeleton rows) ht →
    compatible (skeleton rows) kp →
    (∀ c pc, (c, pc) ∈ kp → c ≠ 0%Z ∧ (ht c < k)%nat) →
    ∃ rows',
      forRows (map kidRow kp) (folderVisit k db) tt st
      = (Ok tt, putTable (workPath db) folderTable rows' st)
      ∧ Forall2 (subtreesDone (skeleton rows) kp) rows rows'.
Proof.
  intros IH. induction kp as [|[c pc] kp IHkp]; intros st rows Ht Hf Hcompat Hkp.
  - exists rows. simpl. rewrite putTable_same by done. split; [done |].
    apply Forall2_diag', subtreesDone_nil.
  - destruct (Hkp c pc) as [Hc0 Hck]; [by left |].
    destruct (IH c pc st rows Hc0 Ht Hf Hck) as (rows1 & Hrun1 & HF1).
    assert (Hsk : skeleton rows1 = skeleton rows).
    { apply skeleton_same. eapply Forall2_impl; [exact HF1 |]. by intros r r' [H _]. }
    destruct (IHkp (putTable (workPath db) folderTable rows1 st) rows1)
      as (rows2 & Hrun2 & HF2).
    + by eapply tableOf_putTable.
    + by rewrite Hsk.
    + rewrite Hsk. by eapply compatible_tail.
    + intros c' pc' H'. apply (Hkp c' pc'). by right.
    + exists rows2. split.
      * rewrite map_cons. cbn [forRows]. unfold bind at 1.
        rewrite folderVisit_kid, Hrun1, Hrun2.
        by rewrite putTable_putTable.
      * rewrite Hsk in HF2. eapply Forall2_compose; [exact HF1 | exact HF2 |].
        intros x y z Hxy Hyz. by eapply subtreesDone_cons.
Qed.

Lemma recurse_spec (k : nat) : recurseSpec db ht k.
Proof.
  induction k as [|k IH]; intros pid ppath st rows Hpid Ht Hf Hk; [lia |].
  rewrite recurse_step. destruct (Z.eqb_spec pid 0) as [?|_]; [done |].
  set (rows1 := update_rows (childStmtSet ppath) [Eq "parent_folder_id" (VInt pid)] rows).
  assert (Hids : ∀ r, r ∈ rows → ∃ i, col r "id" = VInt i).
  { intros r Hr. destruct (ff_ids _ _ Hf _ _ (skeleton_elem _ _ Hr)) as (i & Hi & _). eauto. }
  assert (HF1 : Forall2 (fun r r' => ∀ c, c ≠ "path" → r' !! c = r !! c) rows rows1).
  { unfold rows1, update_rows. clear. induction rows; constructor; [|done].
    intros c Hc. by apply updChild_same. }
  pose proof (skeleton_same _ _ HF1) as Hsk.
  destruct (forRows_kids k IH (kidsOf pid ppath rows)
              (putTable (workPath db) folderTable rows1 st) rows1)
    as (rows2 & Hrun2 & HF2).
  - by eapply tableOf_putTable.
  - by rewrite Hsk.
  - rewrite Hsk. eapply compatible_children; [exact Hf |].
    intros c pc Hc. by apply kidsOf_elem in Hc.
  - intros c pc [Hc _]%kidsOf_elem.
    destruct (ff_ids _ _ Hf _ _ Hc) as (i & [= <-] & Hi).
    pose proof (ff_acyclic _ _ Hf _ _ Hc). split; [done | lia].
  - exists rows2. split.
    + unfold bind, wrapErr. rewrite (exec_Update db st _ _ _ rows Ht).
      unfold queryFunc, bind.
      rewrite (queryRows_ok db _ _ rows1) by (by eapply tableOf_putTable).
      unfold rows1 at 1. rewrite select_children by done.
      fold rows1. rewrite Hrun2. by rewrite putTable_putTable.
    + rewrite Hsk in HF2. eapply Forall2_map_l_in.
      * exact HF2.
      * intros r r' Hr Hrr'.
        pose proof (skeleton_elem _ _ Hr) as Hel.
        destruct (ff_ids _ _ Hf _ _ Hel) as (i & Hi & _).
        eapply (subtreeDone_of_children _ ht Hf pid ppath (kidsOf pid ppath rows) i).
        -- intros c pc. apply kidsOf_elem.
        -- done.
        -- intros c Hc. by apply updChild_same.
        -- intros Hpar. rewrite Hi in Hel.
           pose proof (ff_unique _ _ Hf _ _ _ Hel Hpar) as Hp.
           rewrite (proj2 (matches_parent pid r) Hp).
           unfold childStmtSet. rewrite apply_set_singleton, col_insert.
           rewrite decide_True by done. cbn [eval_set]. rewrite Hi.
           unfold sql_concat. cbn [sql_text]. by rewrite append_assoc.
        -- intros Hpar. destruct (matches _ r) eqn:Hm; [|done].
           apply matches_parent in Hm. rewrite Hi, Hm in Hel. done.
        -- exact Hrr'.
Qed.
End FolderRun.

Lemma skeleton_row (rows : list (gmap string value)) (v pp : value) :
  (v, pp) ∈ skeleton rows →
  ∃ r, r ∈ rows ∧ col r "id" = v ∧ col r "parent_folder_id" = pp.
Proof.
  intros (r & [= <- <-] & Hr)%list_elem_of_In%in_map_iff.
  exists r. split; [by apply list_elem_of_In | done].
Qed.

Lemma Forall2_impl_in {A B} (P Q : A → B → Prop) (l : list A) (k : list B) :
  Forall2 P l k → (∀ x y, x ∈ l → P x y → Q x y) → Forall2 Q l k.
Proof.
  induction 1 as [|x y l k Hxy _ IH]; intros HQ; constructor.
  - apply HQ; [by left | done].
  - apply IH. intros x' y' Hx'. apply HQ. by right.
Qed.

(** What the whole folder stage does to a row. *)
Lemma rootsDone_row (sk : list (value * value)) (ht : Z → nat) (kp : list (Z * string))
  (i : Z) (r r1 r' : gmap string value) :
  folderForest sk ht →
  (∀ c pc, (c, pc) ∈ kp ↔ (VInt c, VNull) ∈ sk ∧ pc = itoa c) →
  col r "id" = VInt i →
  (∀ c, c ≠ "path" → r1 !! c = r !! c) →
  ((VInt i, VNull) ∈ sk → col r1 "path" = VText (itoa i)) →
  subtreesDone sk kp r1 r' →
  folderDone sk i r r'.
Proof.
  intros Hf Hkp Hi Hs1 Hroot (Hs2 & Hp2 & Hu2).
  assert (Hid : col r1 "id" = VInt i) by (by rewrite (col_same r r1), Hi; [|apply Hs1]).
  split; [|split].
  - intros c Hc. by rewrite Hs2, Hs1.
  - intros Hr. destruct Hu2 as [->|(i' & c & pc & t & Hi' & _ & Ht)]; [by apply Hroot |].
    rewrite Hid in Hi'. injection Hi' as <-.
    inversion Ht; subst; by eapply (isRoot_no_parent sk ht Hf) in Hr.
  - intros c s Hc Hs. eapply Hp2; [done | | done]. by apply Hkp.
Qed.

Lemma anonymiseFolders_run (db : Anonymiser) (st : St) (rows : list (gmap string value))
  (ht : Z → nat) (bound fuel : nat) :
  tableOf st (workPath db) folderTable = Some rows →
  folderForest (skeleton rows) ht →
  (∀ i pp, (VInt i, pp) ∈ skeleton rows → (ht i < bound)%nat) →
  (bound < fuel)%nat →
  ∃ st' rows',
    anonymiseFolders fuel db st = (Ok tt, st')
    ∧ tableOf st' (workPath db) folderTable = Some rows'
    ∧ Forall2 (fun r r' => ∀ i, col r "id" = VInt i → folderDone (skeleton rows) i r r')
              rows rows'.
Proof.
  intros Ht Hf Hbound Hfuel. destruct fuel as [|k]; [lia |].
  set (st0 := mkSt (files st) (opened st) (rnd st) (rpos st) (faults st)
                (log st ++ ["Anonymising folders"])).
  assert (Ht0 : tableOf st0 (workPath db) folderTable = Some rows) by done.
  set (rows1 := update_rows rootStmtSet [IsNull "parent_folder_id"] rows).
  assert (Hids : ∀ r, r ∈ rows → ∃ i, col r "id" = VInt i).
  { intros r Hr. destruct (ff_ids _ _ Hf _ _ (skeleton_elem _ _ Hr)) as (i & Hi & _). eauto. }
  assert (Hsame : ∀ (r : gmap string value) c, c ≠ "path" →
            (if matches [IsNull "parent_folder_id"] r then apply_set rootStmtSet r else r) !! c
            = r !! c).
  { intros r c Hc. destruct (matches _ r); [|done].
    unfold rootStmtSet. rewrite apply_set_singleton. by rewrite lookup_insert_ne. }
  assert (HF1 : Forall2 (fun r r' => ∀ c, c ≠ "path" → r' !! c = r !! c) rows rows1).
  { unfold rows1, update_rows. clear -Hsame. induction rows; constructor; [|done].
    intros c Hc. by apply Hsame. }
  pose proof (skeleton_same _ _ HF1) as Hsk.
  destruct (forRows_kids db ht k (recurse_spec db ht k) (rootsOf rows)
              (putTable (workPath db) folderTable rows1 st0) rows1)
    as (rows2 & Hrun2 & HF2).
  - by eapply tableOf_putTable.
  - by rewrite Hsk.
  - rewrite Hsk. eapply compatible_roots; [exact Hf |].
    intros c pc Hc. by apply rootsOf_elem in Hc.
  - intros c pc [Hc _]%rootsOf_elem.
    destruct (ff_ids _ _ Hf _ _ Hc) as (i & [= <-] & Hi).
    pose proof (Hbound _ _ Hc). split; [done | lia].
  - exists (putTable (workPath db) folderTable rows2 st0), rows2.
    split; [|split].
    + unfold anonymiseFolders, bind at 1, logger_Infof. fold st0.
      unfold WithTxn. rewrite recurse_step. cbn [Z.eqb].
      unfold bind, wrapErr. rewrite (exec_Update db st0 _ _ _ rows Ht0).
      unfold queryFunc, bind.
      rewrite (queryRows_ok db _ _ rows1) by (by eapply tableOf_putTable).
      unfold rows1 at 1. rewrite select_roots by done.
      fold rows1. rewrite Hrun2. by rewrite putTable_putTable.
    + by eapply tableOf_putTable.
    + rewrite Hsk in HF2. eapply Forall2_map_l_in; [exact HF2 |].
      intros r r' Hr Hrr' i Hi.
      pose proof (skeleton_elem _ _ Hr) as Hel.
      eapply (rootsDone_row _ ht (rootsOf rows) i r _ r' Hf).
      * intros c pc. apply rootsOf_elem.
      * done.
      * intros c Hc. by apply Hsame.
      * intros Hroot. rewrite Hi in Hel.
        pose proof (ff_unique _ _ Hf _ _ _ Hel Hroot) as Hp.
        rewrite (proj2 (matches_root r) Hp).
        unfold rootStmtSet. rewrite apply_set_singleton, col_insert.
        rewrite decide_True by done. cbn [eval_set]. unfold idColumn. by rewrite Hi.
      * exact Hrr'.
Qed.

(** C5: after the folder stage every root folder has the text of its own
    identifier as path, and every folder with a parent has the path of its
    parent, the separator and the text of its own identifier, at every depth;
    the stage returns for every budget above the depth of the forest and
    changes no other column. *)
Theorem anonymiseFolders_tree (db : Anonymiser) (st : St)
  (rows : list (gmap string value)) (ht : Z → nat) (bound fuel : nat) :
  tableOf st (workPath db) folderTable = Some rows →
  folderForest (skeleton rows) ht →
  (∀ i pp, (VInt i, pp) ∈ skeleton rows → (ht i < bound)%nat) →
  (bound < fuel)%nat →
  ∃ st' rows',
    anonymiseFolders fuel db st = (Ok tt, st')
    ∧ tableOf st' (workPath db) folderTable = Some rows'
    ∧ Forall2 (fun r r' => ∀ c, c ≠ "path" → r' !! c = r !! c) rows rows'
    ∧ ∀ r' i, r' ∈ rows' → col r' "id" = VInt i →
        (col r' "parent_folder_id" = VNull → col r' "path" = VText (itoa i))
        ∧ (∀ p, col r' "parent_folder_id" = VInt p →
             ∃ q' pp, q' ∈ rows' ∧ col q' "id" = VInt p
                      ∧ col q' "path" = VText pp
                      ∧ col r' "path" = VText (pp +:+ Separator +:+ itoa i)).
Proof.
  intros Ht Hf Hbound Hfuel.
  destruct (anonymiseFolders_run db st rows ht bound fuel Ht Hf Hbound Hfuel)
    as (st' & rows' & Hrun & Ht' & HF).
  exists st', rows'. split; [done |]. split; [done |].
  assert (Hids : ∀ r, r ∈ rows → ∃ i, col r "id" = VInt i).
  { intros r Hr. destruct (ff_ids _ _ Hf _ _ (skeleton_elem _ _ Hr)) as (i & Hi & _). eauto. }
  assert (Hrow : ∀ r', r' ∈ rows' → ∃ r, r ∈ rows ∧
            ∀ i, col r "id" = VInt i → folderDone (skeleton rows) i r r').
  { intros r' (n & Hn)%list_elem_of_lookup.
    destruct (Forall2_lookup_r _ _ _ _ _ HF Hn) as (r & Hr & HP).
    exists r. split; [by eapply list_elem_of_lookup_2 | done]. }
  assert (Hrow' : ∀ r, r ∈ rows → ∃ r', r' ∈ rows' ∧
            ∀ i, col r "id" = VInt i → folderDone (skeleton rows) i r r').
  { intros r (n & Hn)%list_elem_of_lookup.
    destruct (Forall2_lookup_l _ _ _ _ _ HF Hn) as (r' & Hr' & HP).
    exists r'. split; [by eapply list_elem_of_lookup_2 | done]. }
  split.
  { eapply Forall2_impl_in; [exact HF |]. intros r r' Hr HP.
    destruct (Hids r Hr) as [i Hi]. by destruct (HP i Hi) as [H _]. }
  intros r' i Hr' Hi'.
  destruct (Hrow r' Hr') as (r & Hr & Hdone).
  destruct (Hids r Hr) as [i0 Hi0]. destruct (Hdone i0 Hi0) as (Hs & Hroot & Hbelow).
  assert (Hid : col r' "id" = col r "id") by (by apply col_same, Hs).
  assert (Hpar : col r' "parent_folder_id" = col r "parent_folder_id")
    by (by apply col_same, Hs).
  rewrite Hid, Hi0 in Hi'. injection Hi' as ->.
  pose proof (skeleton_elem _ _ Hr) as Hel. rewrite Hi0 in Hel.
  split.
  - intros Hnull. apply Hroot. by rewrite <- Hpar, Hnull in Hel.
  - intros p Hp. rewrite Hpar in Hp. rewrite Hp in Hel.
    destruct (ff_fk _ _ Hf _ _ Hel) as [pp Hpp].
    destruct (skeleton_row _ _ _ Hpp) as (q & Hq & Hqi & Hqp).
    destruct (Hrow' q Hq) as (q' & Hq' & Hqdone).
    destruct (Hqdone p Hqi) as (Hqs & Hqroot & Hqbelow).
    assert (Hq'id : col q' "id" = VInt p) by (by rewrite (col_same q q'), Hqi; [|apply Hqs]).
    destruct (below_some_root _ ht Hf bound i p) as (c & s & Hc & Hcs).
    { by eapply Hbound. }
    { intros j pj Hj. by eapply Hbound. }
    { done. }
    rewrite (Hbelow c s Hc Hcs).
    inversion Hcs as [? Hx|? p' s0 Hx Hy]; subst.
    + pose proof (parent_unique _ ht Hf _ _ _ Hx Hel) as ->.
      exists q', (itoa p). split; [done |]. split; [done |]. split; [|done].
      apply Hqroot. done.
    + pose proof (parent_unique _ ht Hf _ _ _ Hx Hel) as ->.
      exists q', (itoa c +:+ s0). split; [done |]. split; [done |].
      split; [by apply Hqbelow | by rewrite !append_assoc].
Qed.

Lemma sampleFolders_skeleton :
  skeleton sampleFolders = [(VInt 5, VNull); (VInt 9, VInt 5)].
Proof. reflexivity. Qed.

Lemma sampleFolders_forest : folderForest (skeleton sampleFolders) sampleRank.
Proof.
  rewrite sampleFolders_skeleton. unfold hasParent.
  split.
  - intros v pp H. repeat (apply elem_of_cons in H as [[= -> ->]|H]; [eauto with lia |]).
    by apply elem_of_nil in H.
  - intros v pp H. repeat (apply elem_of_cons in H as [[= -> ->]|H]; [eauto |]).
    by apply elem_of_nil in H.
  - intros v pp pp' H H'.
    repeat (apply elem_of_cons in H as [[= -> ->]|H]);
    repeat (apply elem_of_cons in H' as [[= <-]|H']);
    try done; try (by apply elem_of_nil in H); by apply elem_of_nil in H'.
  - intros i p H. repeat (apply elem_of_cons in H as [[= -> ->]|H]).
    + exists VNull. by left.
    + by apply elem_of_nil in H.
  - intros i p H. repeat (apply elem_of_cons in H as [[= -> ->]|H]).
    + vm_compute. lia.
    + by apply elem_of_nil in H.
Qed.

Lemma anonymiseFolders_tree_witness :
  ∃ st' rows',
    anonymiseFolders 3 outDB sampleFoldersSt = (Ok tt, st')
    ∧ tableOf st' (workPath outDB) folderTable = Some rows'
    ∧ Forall2 (fun r r' => ∀ c, c ≠ "path" → r' !! c = r !! c) sampleFolders rows'
    ∧ ∀ r' i, r' ∈ rows' → col r' "id" = VInt i →
        (col r' "parent_folder_id" = VNull → col r' "path" = VText (itoa i))
        ∧ (∀ p, col r' "parent_folder_id" = VInt p →
             ∃ q' pp, q' ∈ rows' ∧ col q' "id" = VInt p
                      ∧ col q' "path" = VText pp
                      ∧ col r' "path" = VText (pp +:+ Separator +:+ itoa i)).
Proof.
  apply (anonymiseFolders_tree outDB sampleFoldersSt sampleFolders sampleRank 2 3).
  - vm_compute. reflexivity.
  - exact sampleFolders_forest.
  - rewrite sampleFolders_skeleton. intros i pp H.
    repeat (apply elem_of_cons in H as [[= -> ->]|H]; [vm_compute; lia |]).
    by apply elem_of_nil in H.
  - lia.
Defined.

(** ** What every step of a run respects *)

Lemma runRel_refl (p : string) (st : St) {A} (r : result A) : runRel p st r st.
Proof. repeat split; try done. left. intros i Hi. lia. Qed.

(** A step that touches only the files at [p] and draws nothing. *)
Lemma runRel_files (p : string) (st st' : St) {A} (r : result A) :
  (∀ q, q ≠ p → files st' !! q = files st !! q) →
  rnd st' = rnd st → faults st' = faults st → rpos st' = rpos st →
  runRel p st r st'.
Proof. intros Hf Hr Hfa Hp. repeat split; try done; [lia |]. left. intros i Hi. lia. Qed.

Lemma runRel_trans (p : string) (st st1 st2 : St) {A B} (a : A) (r : result B) :
  runRel p st (Ok a) st1 → runRel p st1 r st2 → runRel p st r st2.
Proof.
  intros (Hf1 & Hr1 & Hfa1 & Hp1 & Hd1) (Hf2 & Hr2 & Hfa2 & Hp2 & Hd2).
  repeat split.
  - intros q Hq. by rewrite Hf2, Hf1.
  - congruence.
  - congruence.
  - lia.
  - destruct Hd1 as [Hd1|[? _]]; [|done].
    destruct Hd2 as [Hd2|(-> & Hlt & Hlast & Hbefore)].
    + left. intros i Hi. destruct (decide (i < rpos st1)%nat).
      * apply Hd1. lia.
      * rewrite <- Hr1. apply Hd2. lia.
    + right. split; [done |]. split; [lia |]. split; [by rewrite <- Hr1 |].
      intros i Hi. destruct (decide (i < rpos st1)%nat).
      * apply Hd1. lia.
      * rewrite <- Hr1. apply Hbefore. lia.
Qed.

(** The result may be retyped as long as a panic stays the same panic. *)
Lemma runRel_result (p : string) (st st' : St) {A B} (r : result A) (r' : result B) :
  (∀ msg, r = Panic msg → r' = Panic msg) →
  runRel p st r st' → runRel p st r' st'.
Proof.
  intros Hr (Hf & Hrn & Hfa & Hp & Hd). repeat split; try done.
  destruct Hd as [Hd|(-> & Hlt & Hlast)]; [by left | right].
  split; [by apply Hr | done].
Qed.

Lemma sound_ret (p : string) {A} (a : A) : sound p (ret a).
Proof. intros st. apply runRel_refl. Qed.

Lemma sound_fail (p : string) {A} (e : error) : sound p (@fail A e).
Proof. intros st. apply runRel_refl. Qed.

Lemma sound_outOfFuel (p : string) {A} : sound p (@outOfFuel A).
Proof. intros st. apply runRel_refl. Qed.

Lemma sound_columnCount (p : string) {A} : sound p (@columnCount A).
Proof. apply sound_fail. Qed.

Lemma sound_lift (p : string) {A} (x : error + A) : sound p (lift x).
Proof. destruct x; [apply sound_fail | apply sound_ret]. Qed.

Lemma sound_bind (p : string) {A B} (m : M A) (k : A → M B) :
  sound p m → (∀ a, sound p (k a)) → sound p (bind m k).
Proof.
  intros Hm Hk st. unfold bind. specialize (Hm st).
  destruct (m st) as [[a|e|msg|] st1]; simpl in *.
  - eapply runRel_trans; [exact Hm | apply Hk].
  - eapply runRel_result; [|exact Hm]. done.
  - eapply runRel_result; [|exact Hm]. by intros ? [= ->].
  - eapply runRel_result; [|exact Hm]. done.
Qed.

Lemma sound_wrapErr (p : string) {A} (prefix : string) (m : M A) :
  sound p m → sound p (wrapErr prefix m).
Proof.
  intros Hm st. unfold wrapErr. specialize (Hm st).
  destruct (m st) as [[a|e|msg|] st1]; simpl in *; try done.
  eapply runRel_result; [|exact Hm]. done.
Qed.

Lemma sound_logger_Infof (p : string) (msg : string) : sound p (logger_Infof msg).
Proof. intros st. by apply runRel_files. Qed.

Lemma lookup_restore_ne (p q : string) (old : option (gmap string (list (gmap string value))))
  (fs : gmap string (gmap string (list (gmap string value)))) :
  q ≠ p → restore p old fs !! q = fs !! q.
Proof.
  intros Hq. unfold restore. destruct old.
  - by rewrite lookup_insert_ne.
  - by rewrite lookup_delete_ne.
Qed.

Lemma runRel_set_files (p : string) (st st' : St) {A} (r : result A)
  (f : gmap string (gmap string (list (gmap string value)))
       → gmap string (gmap string (list (gmap string value)))) :
  (∀ fs q, q ≠ p → f fs !! q = fs !! q) →
  runRel p st r st' → runRel p st r (set_files f st').
Proof.
  intros Hf (Hf1 & Hrn & Hfa & Hp & Hd). repeat split; try done.
  intros q Hq. simpl. by rewrite Hf, Hf1.
Qed.

Lemma sound_WithTxn {A} (db : Anonymiser) (fn : M A) :
  sound (workPath db) fn → sound (workPath db) (WithTxn db fn).
Proof.
  intros Hm st. unfold WithTxn. specialize (Hm st).
  destruct (fn st) as [[a|e|msg|] st1]; simpl in *; try done.
  - apply runRel_set_files; [|done]. intros fs q Hq. by apply lookup_restore_ne.
  - apply runRel_set_files; [|done]. intros fs q Hq. by apply lookup_restore_ne.
Qed.

Lemma sound_exec (db : Anonymiser) (s : stmt) : sound (workPath db) (exec db s).
Proof.
  intros st. unfold exec. destruct (files st !! workPath db) as [d|]; simpl.
  - destruct (run_stmt s d) as [e|d']; simpl; [apply runRel_refl |].
    apply runRel_files; try done. intros q Hq. simpl. by rewrite lookup_insert_ne.
  - apply runRel_refl.
Qed.

Lemma sound_queryRows (db : Anonymiser) (q : query) : sound (workPath db) (queryRows db q).
Proof.
  intros st. unfold queryRows. destruct (files st !! workPath db) as [d|]; simpl.
  - destruct (run_query q d); apply runRel_refl.
  - apply runRel_refl.
Qed.

Lemma sound_forRows (p : string) {S} (rows : list (list value))
  (f : list value → S → M S) (s : S) :
  (∀ r s, sound p (f r s)) → sound p (forRows rows f s).
Proof.
  intros Hf. revert s. induction rows as [|r rows IH]; intros s; simpl.
  - apply sound_ret.
  - apply sound_bind; [apply Hf | intros s'; apply IH].
Qed.

Lemma sound_queryFunc {S} (db : Anonymiser) (q : query)
  (f : list value → S → M S) (s : S) :
  (∀ r s, sound (workPath db) (f r s)) → sound (workPath db) (queryFunc db q f s).
Proof.
  intros Hf. unfold queryFunc. apply sound_bind; [apply sound_queryRows |].
  intros rows. by apply sound_forRows.
Qed.

Lemma sound_pageLoop (p : string) {C} (fuel : nat) (page : C → M (bool * C)) (c : C) :
  (∀ c, sound p (page c)) → sound p (pageLoop fuel page c).
Proof.
  intros Hp. revert c. induction fuel as [|k IH]; intros c; simpl.
  - apply sound_outOfFuel.
  - apply sound_bind; [apply Hp |]. intros [b c']. simpl.
    destruct b; [apply IH | apply sound_ret].
Qed.

Lemma sound_Do (p : string) (fns : list (M unit)) :
  Forall (sound p) fns → sound p (Do fns).
Proof.
  induction 1 as [|f fns Hf _ IH]; simpl; [apply sound_ret |].
  apply sound_bind; [done | by intros _].
Qed.

(** Obfuscation draws numbers; a failed draw is the last one. *)
Lemma sound_obfuscateLoop (p : string) (cs : list rune) (dict out : string) :
  sound p (obfuscateLoop cs dict out).
Proof.
  revert out. induction cs as [|c cs IH]; intros out; simpl.
  - apply sound_ret.
  - destruct (IsSpace c); [apply IH |].
    intros st. unfold bind, rand_Int.
    destruct (String.length dict) as [|k] eqn:Hlen; simpl; [apply runRel_refl |].
    destruct (rnd st (rpos st)) as [|n] eqn:Hdraw; simpl.
    + repeat split; try done; simpl; [lia |]. right.
      split; [done |]. split; [lia |]. split; [by rewrite Nat.sub_0_r |].
      intros i Hi. lia.
    + set (st1 := mkSt _ _ _ _ _ _).
      assert (H1 : runRel p st (Ok tt) st1).
      { repeat split; try done; simpl; [lia |]. left. intros i Hi.
        assert (i = rpos st) as -> by lia. by rewrite Hdraw. }
      destruct (String.get _ dict) as [b|].
      * eapply runRel_trans; [exact H1 | apply IH].
      * eapply runRel_result; [|exact H1]. done.
Qed.

Lemma sound_obfuscateString (p : string) (s dict : string) :
  sound p (obfuscateString s dict).
Proof. apply sound_obfuscateLoop. Qed.

Lemma sound_obfuscateNullString (p : string) (out : gmap string setexpr)
  (column : string) (i : option string) :
  sound p (obfuscateNullString out column i).
Proof.
  destruct i; simpl; [|apply sound_ret].
  apply sound_bind; [apply sound_obfuscateString | intros; apply sound_ret].
Qed.

Lemma sound_obfuscateColumns (p : string) (cols : list string) :
  ∀ (set : gmap string setexpr) (vals : list value),
    sound p (obfuscateColumns set cols vals).
Proof.
  induction cols as [|c cols IH]; intros set [|v vals]; simpl; try apply sound_ret.
  apply sound_bind; [apply sound_obfuscateNullString | intros; apply IH].
Qed.

Ltac sound_step :=
  lazymatch goal with
  | |- sound _ (bind _ _) => apply sound_bind; [|intros ?]
  | |- sound _ (ret _) => apply sound_ret
  | |- sound _ (lift _) => apply sound_lift
  | |- sound _ columnCount => apply sound_columnCount
  | |- sound _ (logger_Infof _) => apply sound_logger_Infof
  | |- sound _ (wrapErr _ _) => apply sound_wrapErr
  | |- sound _ (exec _ _) => apply sound_exec
  | |- sound _ (WithTxn _ _) => apply sound_WithTxn
  | |- sound _ (queryFunc _ _ _ _) => apply sound_queryFunc; intros ? ?
  | |- sound _ (pageLoop _ _ _) => apply sound_pageLoop; intros ?
  | |- sound _ (obfuscateString _ _) => apply sound_obfuscateString
  | |- sound _ (obfuscateNullString _ _ _) => apply sound_obfuscateNullString
  | |- sound _ (obfuscateColumns _ _ _) => apply sound_obfuscateColumns
  | |- sound _ (match ?x with _ => _ end) => destruct x
  end.

Ltac sound_auto := repeat (sound_step; simpl).

Section Sound.
Context (db : Anonymiser).

Lemma sound_truncateColumn (t c : string) : sound (workPath db) (truncateColumn db t c).
Proof. apply sound_exec. Qed.

Lemma sound_truncateTable (t : string) : sound (workPath db) (truncateTable db t).
Proof. apply sound_exec. Qed.

Lemma sound_deleteBlobs : sound (workPath db) (deleteBlobs db).
Proof.
  apply sound_Do.
  repeat (apply Forall_cons_2;
          [first [apply sound_truncateColumn | apply sound_truncateTable] |]).
  apply Forall_nil_2.
Qed.

Lemma sound_deleteStashIDs : sound (workPath db) (deleteStashIDs db).
Proof.
  apply sound_Do. repeat (apply Forall_cons_2; [apply sound_truncateTable |]).
  apply Forall_nil_2.
Qed.

Lemma sound_anonymiseFoldersRecurse (fuel : nat) (pid : Z) (ppath : string) :
  sound (workPath db) (anonymiseFoldersRecurse fuel db pid ppath).
Proof.
  revert pid ppath. induction fuel as [|k IH]; intros pid ppath.
  - apply sound_outOfFuel.
  - rewrite recurse_step. apply sound_bind; [sound_auto |]. intros _.
    apply sound_queryFunc. intros r u. unfold folderVisit.
    destruct r as [|vid [|vpath [|? ?]]]; try apply sound_columnCount.
    sound_auto. apply IH.
Qed.

Lemma sound_anonymiseFolders (fuel : nat) : sound (workPath db) (anonymiseFolders fuel db).
Proof.
  unfold anonymiseFolders. sound_auto. apply sound_anonymiseFoldersRecurse.
Qed.

Lemma sound_anonymiseFiles : sound (workPath db) (anonymiseFiles db).
Proof. unfold anonymiseFiles. sound_auto. Qed.

Lemma sound_anonymiseText (t c v : string) : sound (workPath db) (anonymiseText db t c v).
Proof. unfold anonymiseText. sound_auto. Qed.

Lemma sound_anonymiseFingerprint (t c v : string) :
  sound (workPath db) (anonymiseFingerprint db t c v).
Proof. unfold anonymiseFingerprint. sound_auto. Qed.

Lemma sound_logProgress (total : Z) (what : string) :
  sound (workPath db) (logProgress total what).
Proof. unfold logProgress. destruct (_ =? _)%Z; sound_auto. Qed.

Lemma sound_updateByID (t : string) (set : gmap string setexpr) (id : Z) :
  sound (workPath db) (updateByID db t set id).
Proof. unfold updateByID. destruct (decide _); sound_auto. Qed.

Ltac sound_more :=
  repeat first
    [ sound_step
    | apply sound_anonymiseText | apply sound_anonymiseFingerprint
    | apply sound_logProgress | apply sound_updateByID ];
  simpl.

Lemma sound_anonymiseFingerprints (fuel : nat) :
  sound (workPath db) (anonymiseFingerprints fuel db).
Proof. unfold anonymiseFingerprints. sound_more. Qed.

Lemma sound_anonymiseScenes (fuel : nat) : sound (workPath db) (anonymiseScenes fuel db).
Proof. unfold anonymiseScenes. sound_more. Qed.

Lemma sound_anonymiseMarkers (fuel : nat) : sound (workPath db) (anonymiseMarkers fuel db).
Proof. unfold anonymiseMarkers. sound_more. Qed.

Lemma sound_patchVisit (t what : string) (cols : list string)
  (r : list value) (s : bool * idCursor) :
  sound (workPath db) (patchVisit db t what cols r s).
Proof. unfold patchVisit. sound_more. Qed.

Lemma sound_patchScan (fuel : nat) (t what : string) (cols : list string) :
  sound (workPath db) (patchScan fuel db t what cols).
Proof. unfold patchScan. sound_auto. apply sound_patchVisit. Qed.

Lemma sound_aliasesScan (fuel : nat) (t idc : string) :
  sound (workPath db) (aliasesScan fuel db t idc).
Proof. unfold aliasesScan. sound_more. Qed.

Lemma sound_anonymiseAliases (fuel : nat) (t idc : string) :
  sound (workPath db) (anonymiseAliases fuel db t idc).
Proof. unfold anonymiseAliases. sound_auto. apply sound_aliasesScan. Qed.

Lemma sound_stages (fuel : nat) : Forall (sound (workPath db)) (stages fuel db).
Proof.
  unfold stages.
  repeat (apply Forall_cons_2;
    [first [ apply sound_deleteBlobs | apply sound_deleteStashIDs
           | apply sound_anonymiseFolders | apply sound_anonymiseFiles
           | apply sound_anonymiseFingerprints | apply sound_anonymiseScenes
           | apply sound_anonymiseMarkers | apply sound_ret
           | unfold anonymiseImages, anonymiseGalleries, anonymisePerformers,
               anonymiseStudios, anonymiseTags, anonymiseMovies;
             sound_auto;
             first [apply sound_patchScan | apply sound_anonymiseAliases] ] |]).
  apply Forall_nil_2.
Qed.

Lemma sound_Close : sound (workPath db) (Close db).
Proof. intros st. by apply runRel_files. Qed.

Lemma sound_Remove : sound (workPath db) (Remove db).
Proof.
  intros st. unfold Remove. destruct (remove_fails (faults st)); simpl.
  - by apply runRel_files.
  - apply runRel_files; try done. intros q Hq. simpl. by rewrite lookup_delete_ne.
Qed.

(** A cleanup that draws nothing may follow any ending. *)
Lemma runRel_cleanup (st st1 st2 : St) {A} (r : result A) :
  runRel (workPath db) st r st1 →
  (∀ q, q ≠ workPath db → files st2 !! q = files st1 !! q) →
  rnd st2 = rnd st1 → faults st2 = faults st1 → rpos st2 = rpos st1 →
  runRel (workPath db) st r st2.
Proof.
  intros (Hf & Hrn & Hfa & Hp & Hd) Hf2 Hrn2 Hfa2 Hp2. repeat split.
  - intros q Hq. by rewrite Hf2, Hf.
  - congruence.
  - congruence.
  - lia.
  - by rewrite Hp2.
Qed.

Lemma sound_Anonymise (fuel : nat) : sound (workPath db) (Anonymise fuel db).
Proof.
  intros st. unfold Anonymise, defer.
  pose proof (sound_Do _ _ (sound_stages fuel) st) as H.
  destruct (Do (stages fuel db) st) as [[[]|e|msg|] st1]; simpl in *.
  - eapply runRel_cleanup; [exact H |..]; done.
  - unfold Remove. simpl. destruct (remove_fails (faults st1)); simpl.
    + eapply runRel_cleanup; [exact H |..]; done.
    + eapply runRel_cleanup; [exact H |..]; try done.
      intros q Hq. simpl. by rewrite lookup_delete_ne.
  - eapply runRel_cleanup; [exact H |..]; done.
  - done.
Qed.
End Sound.

Lemma sound_NewAnonymiser (src : Database) (outPath : string) :
  sound outPath (NewAnonymiser src outPath).
Proof.
  unfold NewAnonymiser. apply sound_bind; [|intros _; apply sound_bind; [|intros _; apply sound_ret]].
  - apply sound_wrapErr. intros st. unfold vacuumInto.
    destruct (vacuum_fails _); simpl; [apply runRel_refl |].
    destruct (files st !! dbPath src); simpl; [|apply runRel_refl].
    destruct (files st !! outPath); simpl; [apply runRel_refl |].
    apply runRel_files; try done. intros q Hq. simpl. by rewrite lookup_insert_ne.
  - apply sound_wrapErr. intros st. unfold Open.
    destruct (open_fails _); simpl; [apply runRel_refl |]. by apply runRel_files.
Qed.

Lemma NewAnonymiser_path (src : Database) (outPath : string) (st st' : St) (db : Anonymiser) :
  NewAnonymiser src outPath st = (Ok db, st') → workPath db = outPath.
Proof.
  unfold NewAnonymiser, bind, wrapErr.
  destruct (vacuumInto src outPath st) as [[[]|?|?|] st1]; try done.
  destruct (Open _ st1) as [[[]|?|?|] st2]; try done.
  unfold ret. by intros [= <- _].
Qed.

Lemma sound_anonymiseDatabase (fuel : nat) (src : Database) (outPath : string) :
  sound outPath (anonymiseDatabase fuel src outPath).
Proof.
  intros st. unfold anonymiseDatabase, bind.
  pose proof (sound_NewAnonymiser src outPath st) as H.
  destruct (NewAnonymiser src outPath st) as [[db|e|msg|] st1] eqn:Hnew; simpl in *.
  - eapply runRel_trans; [exact H |].
    rewrite <- (NewAnonymiser_path _ _ _ _ _ Hnew). apply sound_Anonymise.
  - eapply runRel_result; [|exact H]. done.
  - eapply runRel_result; [|exact H]. by intros ? [= ->].
  - eapply runRel_result; [|exact H]. done.
Qed.

(** ** The run as a whole *)

Lemma NewAnonymiser_same_path (src : Database) (st : St) :
  ∃ e, NewAnonymiser src (dbPath src) st = (Err e, st).
Proof.
  unfold NewAnonymiser, bind, wrapErr, vacuumInto.
  destruct (vacuum_fails _); [eauto |].
  destruct (files st !! dbPath src); eauto.
Qed.

(** C2: a run never changes the source store.  Whatever the budget and
    however the run ends (success, error, panic, or still running), the
    store file of the source is what it was, and so is every other file
    except the one at the destination path: every statement of the run goes
    to the working copy. *)
Theorem source_untouched (fuel : nat) (src : Database) (outPath : string) (st : St) :
  files (anonymiseDatabase fuel src outPath st).2 !! dbPath src = files st !! dbPath src
  ∧ ∀ q, q ≠ outPath →
      files (anonymiseDatabase fuel src outPath st).2 !! q = files st !! q.
Proof.
  pose proof (sound_anonymiseDatabase fuel src outPath st) as (Hframe & _).
  split; [|exact Hframe].
  destruct (decide (dbPath src = outPath)) as [<-|Hne]; [|by apply Hframe].
  unfold anonymiseDatabase, bind.
  destruct (NewAnonymiser_same_path src st) as [e ->]. done.
Qed.

(** X9: the stages of a run that returned an error left no file behind, as
    long as the deletion itself succeeds. *)
Lemma Anonymise_error_removes (fuel : nat) (db : Anonymiser) (st st' : St) (e : error) :
  Anonymise fuel db st = (Err e, st') →
  remove_fails (faults st) = false →
  files st' !! workPath db = None.
Proof.
  unfold Anonymise, defer. intros H Hrm.
  pose proof (sound_Do _ _ (sound_stages db fuel) st) as (_ & _ & Hfa & _).
  destruct (Do (stages fuel db) st) as [[[]|e'|msg|] st1]; simpl in *; try done.
  injection H as _ <-. unfold Remove. simpl. rewrite Hfa, Hrm. simpl.
  apply lookup_delete_eq.
Qed.

(** C1, at the failing input: when opening the fresh copy fails,
    [NewAnonymiser] returns the error and the copy stays at the destination
    path. *)
Theorem open_failure_leaves_copy :
  ∃ e st',
    anonymiseDatabase 5 srcDB "anon.sqlite" openFailSt = (Err e, st')
    ∧ files openFailSt !! "anon.sqlite" = None
    ∧ files st' !! "anon.sqlite" = Some (storeOf []).
Proof. eexists _, _. split; [vm_compute; reflexivity |]. split; reflexivity. Qed.

(** C8 (as amended): a failure of the secure random source during a run is
    fatal and never retried: the failing read is the last read of the run,
    and the run ends there with the panic of [obfuscateString], which the
    caller receives as a panic, not as a returned error. *)
Theorem random_failure_panics (fuel : nat) (db : Anonymiser) (st : St) (i : nat) :
  (rpos st ≤ i < rpos (Anonymise fuel db st).2)%nat →
  rnd st i = RandErr →
  (Anonymise fuel db st).1 = Panic randomPanic
  ∧ S i = rpos (Anonymise fuel db st).2.
Proof.
  intros Hi Hfail.
  destruct (sound_Anonymise db fuel st) as (_ & _ & _ & _ & [Hok|(Hr & Hlt & Hlast & Hbefore)]).
  - by apply Hok in Hi.
  - split; [done |].
    destruct (decide (i < rpos (Anonymise fuel db st).2 - 1)%nat) as [Hlt'|Hge].
    + exfalso. apply (Hbefore i); [lia | done].
    + lia.
Qed.

Lemma random_failure_panics_witness :
  (Anonymise 5 outDB deadReaderSt).1 = Panic randomPanic
  ∧ 1%nat = rpos (Anonymise 5 outDB deadReaderSt).2.
Proof.
  apply (random_failure_panics 5 outDB deadReaderSt 0).
  - vm_compute. lia.
  - reflexivity.
Defined.

(** C8, counterexample: with the random source unavailable the run neither
    returns an error nor deletes the working copy: it panics, and the file
    is still at the destination path. *)
Lemma random_failure_counterexample :
  rnd deadReaderSt 0 = RandErr
  ∧ (∀ e, (Anonymise 5 outDB deadReaderSt).1 ≠ Err e)
  ∧ is_Some (files (Anonymise 5 outDB deadReaderSt).2 !! workPath outDB).
Proof.
  split; [done |].
  assert (H : (Anonymise 5 outDB deadReaderSt).1 = Panic randomPanic)
    by (vm_compute; reflexivity).
  split; [intros e; by rewrite H |].
  assert (H' : bool_decide (is_Some (files (Anonymise 5 outDB deadReaderSt).2
                                       !! workPath outDB)) = true)
    by (vm_compute; reflexivity).
  by apply bool_decide_eq_true in H'.
Qed.

Lemma source_untouched_witness :
  files (anonymiseDatabase 5 srcDB "anon.sqlite" sampleSourceSt).2 !! "stash.sqlite"
  = files sampleSourceSt !! "stash.sqlite".
Proof.
  destruct (source_untouched 5 srcDB "anon.sqlite" sampleSourceSt) as [_ H].
  apply H. done.
Defined.

(** ** Paged scans *)

Lemma select_rows_limit (q : query) (rows : list (gmap string value)) (n : nat) :
  q_limit q = Some n → (length (select_rows q rows) ≤ n)%nat.
Proof.
  intros Hq. unfold select_rows. rewrite Hq. simpl.
  rewrite length_map, length_firstn. lia.
Qed.

(** Every row of a page keyed on [id] lies strictly above the cursor. *)
Lemma idPage_above_cursor (t : string) (cols : list string) (lastID : Z)
  (rows : list (gmap string value)) (r : list value) :
  r ∈ select_rows (idPageQuery t cols lastID) rows →
  ∃ vid vals, r = vid :: vals ∧ sql_gt vid (VInt lastID) = true.
Proof.
  unfold select_rows, idPageQuery. simpl.
  intros (x & <- & Hx)%list_elem_of_In%in_map_iff.
  eexists _, _. split; [done |].
  apply list_elem_of_In, elem_of_take in Hx as (i & Hi%list_elem_of_lookup_2 & _).
  apply list_elem_of_filter in Hi as [Hm _].
  unfold matches in Hm. simpl in Hm. by rewrite andb_true_r in Hm.
Qed.

(** C7, at the failing input: the alias scan pages on (owner, alias) and
    rewrites the alias; the one row of the table, replaced by a value that
    sorts above its old alias, is selected again by the next page and
    processed a second time ([total] is 2 for a table of one row). *)
Theorem aliasesScan_processes_row_twice :
  (length <$> tableOf sampleAliasSt "anon.sqlite" performersAliasesTable) = Some 1%nat
  ∧ (aliasesScan 10 outDB performersAliasesTable "performer_id" sampleAliasSt).1
    = Ok (1%Z, "b", 2%Z)
  ∧ (length <$> tableOf (aliasesScan 10 outDB performersAliasesTable "performer_id"
                            sampleAliasSt).2 "anon.sqlite" performersAliasesTable)
    = Some 1%nat.
Proof. repeat split; vm_compute; reflexivity. Qed.

(** ** Replacement by value *)

(** The row update of [anonymiseText] and [anonymiseFingerprint]. *)
Lemma update_by_value (c v o : string) (rows : list (gmap string value)) :
  update_rows {[ c := Lit (VText o) ]} [Eq c (VText v)] rows
  = map (replaceValue c v o) rows.
Proof.
  unfold update_rows, replaceValue. apply map_ext. intros r.
  unfold matches. simpl. rewrite andb_true_r.
  destruct (sql_eq _ _); [|done]. by rewrite apply_set_singleton.
Qed.


Lemma obfuscateLoop_state (dict : string) (cs : list rune) :
  ∀ out st r st',
    obfuscateLoop cs dict out st = (Ok r, st') →
    st' = mkSt (files st) (opened st) (rnd st)
               (rpos st + length (filter (fun c => IsSpace c = false) cs))
               (faults st) (log st).
Proof.
  induction cs as [|c cs IH]; intros out st r st' H; simpl in H.
  - injection H as _ <-. destruct st. simpl. f_equal. lia.
  - destruct (IsSpace c) eqn:Hc.
    + rewrite filter_cons_False by (by rewrite Hc). by eapply IH.
    + rewrite filter_cons_True by done. unfold bind, rand_Int in H.
      destruct (String.length dict); [done |].
      destruct (rnd st (rpos st)); [done |].
      destruct (String.get _ dict); [|done].
      apply IH in H. rewrite H. simpl. f_equal. lia.
Qed.



(** ** Aliases *)

Lemma pageLoop_ext {C} (fuel : nat) (page1 page2 : C → M (bool * C)) :
  (∀ c st, page1 c st = page2 c st) →
  ∀ c st, pageLoop fuel page1 c st = pageLoop fuel page2 c st.
Proof.
  intros Hp. induction fuel as [|k IH]; intros c st; simpl; [done |].
  unfold bind. rewrite Hp. destruct (page2 c st) as [[[b c']|e|msg|] st1]; try done.
  simpl. destruct b; [apply IH | done].
Qed.








Section AliasScan.
Context (db : Anonymiser) (t idc : string).
Hypothesis idc_alias : idc ≠ "alias".










End AliasScan.





(** ** Invariants of a run *)

Lemma maintains_ret (I : St → Prop) {A} (a : A) (φ : A → Prop) :
  φ a → maintains I (ret a) φ.
Proof. intros Ha st HI. split; [done |]. by intros a' [= <-]. Qed.

Lemma maintains_fail (I : St → Prop) {A} (e : error) (φ : A → Prop) :
  maintains I (fail e) φ.
Proof. intros st HI. split; done. Qed.

Lemma maintains_outOfFuel (I : St → Prop) {A} (φ : A → Prop) :
  maintains I outOfFuel φ.
Proof. intros st HI. split; done. Qed.

Lemma maintains_lift (I : St → Prop) {A} (x : error + A) (φ : A → Prop) :
  (∀ a, x = inr a → φ a) → maintains I (lift x) φ.
Proof. destruct x; intros H; [apply maintains_fail | apply maintains_ret; auto]. Qed.

Lemma maintains_weaken (I : St → Prop) {A} (m : M A) (φ ψ : A → Prop) :
  maintains I m φ → (∀ a, φ a → ψ a) → maintains I m ψ.
Proof. intros Hm Hw st HI. destruct (Hm st HI) as [H1 H2]. split; auto. Qed.

Lemma maintains_bind (I : St → Prop) {A B} (m : M A) (k : A → M B)
  (φ : A → Prop) (ψ : B → Prop) :
  maintains I m φ → (∀ a, φ a → maintains I (k a) ψ) → maintains I (bind m k) ψ.
Proof.
  intros Hm Hk st HI. unfold bind. destruct (Hm st HI) as [H1 H2].
  destruct (m st) as [[a|e|msg|] st1]; simpl in *; try done.
  apply Hk; auto.
Qed.

Lemma maintains_wrapErr (I : St → Prop) {A} (prefix : string) (m : M A) (φ : A → Prop) :
  maintains I m φ → maintains I (wrapErr prefix m) φ.
Proof.
  intros Hm st HI. unfold wrapErr. destruct (Hm st HI) as [H1 H2].
  destruct (m st) as [[a|e|msg|] st1]; simpl in *; done.
Qed.

Lemma maintains_WithTxn (I : St → Prop) {A} (db : Anonymiser) (fn : M A) (φ : A → Prop) :
  txnStable I db → maintains I fn φ → maintains I (WithTxn db fn) φ.
Proof.
  intros Hst Hm st HI. unfold WithTxn. destruct (Hm st HI) as [H1 H2].
  destruct (fn st) as [[a|e|msg|] st1]; simpl in *; try done.
  - split; [by apply Hst | done].
  - split; [by apply Hst | done].
Qed.

Lemma maintains_exec (I : St → Prop) (db : Anonymiser) (s : stmt) :
  stmtStable I db s → maintains I (exec db s) (fun _ => True).
Proof.
  intros Hs st HI. unfold exec.
  destruct (files st !! workPath db) as [d|] eqn:Hd; simpl; [|done].
  destruct (run_stmt s d) as [e|d'] eqn:Hrun; simpl; [done |].
  split; [by eapply Hs | done].
Qed.

(** The rows a query returns satisfy what every row it can select
    satisfies. *)
Lemma maintains_queryRows (I : St → Prop) (db : Anonymiser) (q : query)
  (R : list value → Prop) :
  (∀ tbl r, r ∈ select_rows q tbl → R r) →
  maintains I (queryRows db q) (Forall R).
Proof.
  intros HR st HI. unfold queryRows.
  destruct (files st !! workPath db) as [d|]; simpl; [|done].
  unfold run_query. destruct (d !! q_from q) as [tbl|]; simpl; [|done].
  split; [done |]. intros rows [= <-]. apply Forall_forall. apply HR.
Qed.

Lemma maintains_forRows (I : St → Prop) {S} (rows : list (list value))
  (f : list value → S → M S) (R : list value → Prop) (K : S → Prop) :
  Forall R rows →
  (∀ r s, R r → K s → maintains I (f r s) K) →
  ∀ s, K s → maintains I (forRows rows f s) K.
Proof.
  intros Hrows Hf. induction Hrows as [|r rows Hr _ IH]; intros s Hs; simpl.
  - by apply maintains_ret.
  - eapply maintains_bind; [by apply Hf | apply IH].
Qed.

Lemma maintains_queryFunc (I : St → Prop) {S} (db : Anonymiser) (q : query)
  (f : list value → S → M S) (R : list value → Prop) (K : S → Prop) (s : S) :
  (∀ tbl r, r ∈ select_rows q tbl → R r) →
  (∀ r s, R r → K s → maintains I (f r s) K) →
  K s → maintains I (queryFunc db q f s) K.
Proof.
  intros HR Hf Hs. unfold queryFunc.
  eapply maintains_bind; [by apply maintains_queryRows |].
  intros rows Hrows. by eapply maintains_forRows.
Qed.

Lemma maintains_pageLoop (I : St → Prop) {C} (fuel : nat)
  (page : C → M (bool * C)) (K : C → Prop) :
  (∀ c, K c → maintains I (page c) (fun r => K (snd r))) →
  ∀ c, K c → maintains I (pageLoop fuel page c) K.
Proof.
  intros Hp. induction fuel as [|k IH]; intros c Hc; simpl.
  - apply maintains_outOfFuel.
  - eapply maintains_bind; [by apply Hp |]. intros [b c'] Hc'. simpl in *.
    destruct b; [by apply IH | by apply maintains_ret].
Qed.

Lemma files_obfuscateLoop (cs : list rune) (dict : string) :
  ∀ out st, files (obfuscateLoop cs dict out st).2 = files st.
Proof.
  induction cs as [|c cs IH]; intros out st; simpl; [done |].
  destruct (IsSpace c); [apply IH |].
  unfold bind, rand_Int. destruct (String.length dict); [done |].
  destruct (rnd st (rpos st)); [done |].
  destruct (String.get _ dict); [|done]. by rewrite IH.
Qed.

Lemma maintains_obfuscateString (I : St → Prop) (s dict : string) :
  filesOnly I → maintains I (obfuscateString s dict) (fun _ => True).
Proof.
  intros HI st Hst. split; [|done].
  eapply HI; [|exact Hst]. apply files_obfuscateLoop.
Qed.

Lemma maintains_logger_Infof (I : St → Prop) (msg : string) :
  filesOnly I → maintains I (logger_Infof msg) (fun _ => True).
Proof. intros HI st Hst. split; [|done]. by eapply HI; [|exact Hst]. Qed.

Lemma maintains_logProgress (I : St → Prop) (total : Z) (what : string) :
  filesOnly I → maintains I (logProgress total what) (fun _ => True).
Proof.
  intros HI. unfold logProgress. destruct (_ =? _)%Z.
  - by apply maintains_logger_Infof.
  - by apply maintains_ret.
Qed.

(** The record built by [obfuscateNullString] binds no column but the
    one it is given. *)
Lemma maintains_obfuscateNullString (I : St → Prop) (out : gmap string setexpr)
  (column c : string) (i : option string) :
  filesOnly I → column ≠ c → out !! c = None →
  maintains I (obfuscateNullString out column i) (fun set => set !! c = None).
Proof.
  intros HI Hc Hout. destruct i as [s|]; simpl; [|by apply maintains_ret].
  eapply maintains_bind; [by apply maintains_obfuscateString |].
  intros o _. apply maintains_ret. by rewrite lookup_insert_ne.
Qed.

Lemma maintains_obfuscateColumns (I : St → Prop) (c : string) (cols : list string) :
  filesOnly I → c ∉ cols →
  ∀ (set : gmap string setexpr) (vals : list value),
    set !! c = None →
    maintains I (obfuscateColumns set cols vals) (fun set' => set' !! c = None).
Proof.
  intros HI. induction cols as [|x cols IH]; intros Hc set vals Hset;
    [by destruct vals; apply maintains_ret |].
  apply not_elem_of_cons in Hc as [Hx Hc].
  destruct vals as [|v vals]; simpl; [by apply maintains_ret |].
  eapply maintains_bind; [by apply maintains_obfuscateNullString |].
  intros set' Hset'. by apply IH.
Qed.

Lemma maintains_any {A} (m : M A) : maintains (fun _ => True) m (fun _ => True).
Proof. intros st _. done. Qed.

(** X4: the cursor of a scan keyed on [id] strictly increases from page to
    page, and a page that saw no row leaves it where it was. *)
Lemma patchPage_cursor (db : Anonymiser) (t what : string) (cols : list string)
  (c : idCursor) (st st' : St) (r : bool * idCursor) :
  patchPage db t what cols c st = (Ok r, st') → cursorAdvanced c r.
Proof.
  intros Hrun.
  assert (H : maintains (fun _ => True) (patchPage db t what cols c) (cursorAdvanced c)).
  { unfold patchPage. apply maintains_WithTxn; [done |].
    eapply (maintains_queryFunc _ db _ _
              (fun r => ∃ vid vals, r = vid :: vals ∧ sql_gt vid (VInt (fst c)) = true)).
    - intros tbl r0. apply idPage_above_cursor.
    - intros r0 s (vid & vals & -> & Hgt) _. unfold patchVisit.
      destruct (decide _); [|apply maintains_fail].
      eapply (maintains_bind _ _ _ (fun id => (fst c < id)%Z)).
      { apply maintains_lift. intros id Hid. destruct vid; try done.
        injection Hid as <-. simpl in Hgt. by apply Z.ltb_lt. }
      intros id Hid.
      eapply maintains_bind; [apply maintains_any |]. intros set _.
      eapply maintains_bind; [apply maintains_any |]. intros _ _.
      eapply maintains_bind; [apply maintains_any |]. intros _ _.
      by apply maintains_ret.
    - done. }
  destruct (H st I) as [_ H']. apply H'. by rewrite Hrun.
Qed.

Lemma patchScan_eq (fuel : nat) (db : Anonymiser) (t what : string) (cols : list string) :
  patchScan fuel db t what cols = pageLoop fuel (patchPage db t what cols) (0%Z, 0%Z).
Proof. reflexivity. Qed.

(** ** Values shared between rows *)

Section Shared.
Context (db : Anonymiser) (t c : string) (n i j : nat).









End Shared.




(** What [NewAnonymiser] does when the copy succeeds and the open fails:
    the error is returned and the copy stays where it was written. *)
Lemma NewAnonymiser_open_failure (src : Database) (outPath : string) (st : St)
  (d : gmap string (list (gmap string value))) :
  vacuum_fails (faults st) = false → open_fails (faults st) = true →
  files st !! dbPath src = Some d → files st !! outPath = None →
  ∃ e st', NewAnonymiser src outPath st = (Err e, st')
           ∧ files st' !! outPath = Some d.
Proof.
  intros Hv Ho Hsrc Hout. unfold NewAnonymiser, bind, wrapErr, vacuumInto, Open.
  rewrite Hv, Hsrc, Hout. simpl. rewrite Ho. eexists _, _. split; [done |].
  simpl. apply lookup_insert_eq.
Qed.

(** ** Columns a run leaves alone *)

Section Frozen.
Context (db : Anonymiser) (t c : string) (vals : list (option value)).

Lemma colFrozen_filesOnly : filesOnly (colFrozen (workPath db) t c vals).
Proof.
  intros st st' Hf (rows & Ht & Hv). exists rows. split; [|done].
  unfold tableOf. by rewrite Hf.
Qed.

Lemma colFrozen_txnStable : txnStable (colFrozen (workPath db) t c vals) db.
Proof.
  intros st st' (rows & Ht & Hv) _. exists rows. split; [|done].
  apply tableOf_Some in Ht as (d & Hd & Ht). apply tableOf_Some.
  exists d. split; [|done]. simpl. rewrite Hd. simpl. apply lookup_insert_eq.
Qed.

Lemma colFrozen_Update (t' : string) (set : gmap string setexpr) (ws : list cond) :
  harmless t c t' set →
  stmtStable (colFrozen (workPath db) t c vals) db (Update t' set ws).
Proof.
  intros Hh st d d' (rows & Ht & Hv) Hd Hrun.
  apply tableOf_Some in Ht as (d0 & Hd0 & Ht). rewrite Hd in Hd0. injection Hd0 as <-.
  simpl in Hrun. destruct (d !! t') as [rows'|] eqn:Ht'; [|done]. injection Hrun as <-.
  destruct (decide (t' = t)) as [->|Hne].
  - destruct Hh as [?|Hset]; [done |]. rewrite Ht in Ht'. injection Ht' as <-.
    exists (update_rows set ws rows). split.
    + apply tableOf_Some. eexists. simpl. rewrite lookup_insert_eq.
      split; [done |]. apply lookup_insert_eq.
    + rewrite <- Hv. unfold update_rows. rewrite map_map. apply map_ext.
      intros r. destruct (matches ws r); [|done].
      unfold apply_set. rewrite lookup_union_r; [done |]. by rewrite lookup_fmap, Hset.
  - exists rows. split; [|done]. apply tableOf_Some. eexists. simpl.
    rewrite lookup_insert_eq. split; [done |]. by rewrite lookup_insert_ne.
Qed.

Lemma colFrozen_DeleteFrom (t' : string) :
  t' ≠ t → stmtStable (colFrozen (workPath db) t c vals) db (DeleteFrom t').
Proof.
  intros Hne st d d' (rows & Ht & Hv) Hd Hrun.
  apply tableOf_Some in Ht as (d0 & Hd0 & Ht). rewrite Hd in Hd0. injection Hd0 as <-.
  simpl in Hrun. destruct (d !! t') as [rows'|] eqn:Ht'; [|done]. injection Hrun as <-.
  exists rows. split; [|done]. apply tableOf_Some. eexists. simpl.
  rewrite lookup_insert_eq. split; [done |]. by rewrite lookup_insert_ne.
Qed.

Lemma harmless_singleton (t' c' : string) (e : setexpr) :
  apart t c t' c' → harmless t c t' {[ c' := e ]}.
Proof. intros [?|?]; [by left | right]. by apply lookup_singleton_ne. Qed.

Lemma harmless_empty (t' : string) : harmless t c t' ∅.
Proof. by right. Qed.

#[local] Abbreviation Inv := (colFrozen (workPath db) t c vals).

Lemma frozen_truncateColumn (t' c' : string) :
  apart t c t' c' → maintains Inv (truncateColumn db t' c') (fun _ => True).
Proof. intros H. by apply maintains_exec, colFrozen_Update, harmless_singleton. Qed.

Lemma frozen_truncateTable (t' : string) :
  t' ≠ t → maintains Inv (truncateTable db t') (fun _ => True).
Proof. intros H. by apply maintains_exec, colFrozen_DeleteFrom. Qed.

Lemma maintains_Do (J : St → Prop) (fns : list (M unit)) :
  Forall (fun f => maintains J f (fun _ => True)) fns →
  maintains J (Do fns) (fun _ => True).
Proof.
  induction 1 as [|f fns Hf _ IH]; simpl; [by apply maintains_ret |].
  eapply maintains_bind; [exact Hf | by intros _ _].
Qed.

Lemma frozen_obfuscateNullString (t' : string) (out : gmap string setexpr)
  (column : string) (i : option string) :
  apart t c t' column → harmless t c t' out →
  maintains Inv (obfuscateNullString out column i) (harmless t c t').
Proof.
  intros Hap Hout. destruct i as [s|]; simpl; [|by apply maintains_ret].
  eapply maintains_bind; [apply maintains_obfuscateString, colFrozen_filesOnly |].
  intros o _. apply maintains_ret.
  destruct Hout as [?|Hout]; [by left |]. destruct Hap as [?|?]; [by left | right].
  by rewrite lookup_insert_ne.
Qed.

Lemma frozen_obfuscateColumns (t' : string) (cols : list string) :
  Forall (apart t c t') cols →
  ∀ (set : gmap string setexpr) (vs : list value),
    harmless t c t' set →
    maintains Inv (obfuscateColumns set cols vs) (harmless t c t').
Proof.
  induction 1 as [|x cols Hx _ IH]; intros set vs Hset;
    [by destruct vs; apply maintains_ret |].
  destruct vs as [|v vs]; simpl; [by apply maintains_ret |].
  eapply maintains_bind; [by apply frozen_obfuscateNullString |].
  intros set' Hset'. by apply IH.
Qed.

Lemma frozen_updateByID (t' : string) (set : gmap string setexpr) (id : Z) :
  harmless t c t' set → maintains Inv (updateByID db t' set id) (fun _ => True).
Proof.
  intros Hset. unfold updateByID. destruct (decide _); [by apply maintains_ret |].
  by apply maintains_wrapErr, maintains_exec, colFrozen_Update.
Qed.

Lemma frozen_anonymiseText (t' c' v : string) :
  apart t c t' c' → maintains Inv (anonymiseText db t' c' v) (fun _ => True).
Proof.
  intros Hap. unfold anonymiseText.
  eapply maintains_bind; [apply maintains_obfuscateString, colFrozen_filesOnly |].
  intros o _. by apply maintains_wrapErr, maintains_exec, colFrozen_Update, harmless_singleton.
Qed.

Lemma frozen_anonymiseFingerprint (t' c' v : string) :
  apart t c t' c' → maintains Inv (anonymiseFingerprint db t' c' v) (fun _ => True).
Proof.
  intros Hap. unfold anonymiseFingerprint.
  eapply maintains_bind; [apply maintains_obfuscateString, colFrozen_filesOnly |].
  intros o _. by apply maintains_wrapErr, maintains_exec, colFrozen_Update, harmless_singleton.
Qed.

Lemma frozen_logProgress (total : Z) (what : string) :
  maintains Inv (logProgress total what) (fun _ => True).
Proof. apply maintains_logProgress, colFrozen_filesOnly. Qed.

Lemma frozen_logger_Infof (msg : string) : maintains Inv (logger_Infof msg) (fun _ => True).
Proof. apply maintains_logger_Infof, colFrozen_filesOnly. Qed.

Lemma frozen_patchVisit (t' what : string) (cols : list string)
  (r : list value) (s : bool * idCursor) :
  Forall (apart t c t') cols →
  maintains Inv (patchVisit db t' what cols r s) (fun _ => True).
Proof.
  intros Hcols. unfold patchVisit. destruct r as [|vid vs]; [apply maintains_fail |].
  destruct (decide _); [|apply maintains_fail].
  eapply (maintains_bind _ _ _ (fun _ => True)); [by apply maintains_lift |]. intros id _.
  eapply maintains_bind; [apply frozen_obfuscateColumns; [done | apply harmless_empty] |].
  intros set Hset.
  eapply maintains_bind; [by apply frozen_updateByID |]. intros _ _.
  eapply maintains_bind; [apply frozen_logProgress |]. intros _ _.
  by apply maintains_ret.
Qed.

Lemma frozen_patchScan (fuel : nat) (t' what : string) (cols : list string) :
  Forall (apart t c t') cols →
  maintains Inv (patchScan fuel db t' what cols) (fun _ => True).
Proof.
  intros Hcols. unfold patchScan.
  apply (maintains_pageLoop _ _ _ (fun _ => True)); [|done]. intros cur _.
  apply maintains_WithTxn; [apply colFrozen_txnStable |].
  apply (maintains_queryFunc _ db _ _ (fun _ => True) (fun _ => True)); [done | | done].
  intros r s _ _. by apply frozen_patchVisit.
Qed.

Lemma frozen_aliasesScan (fuel : nat) (t' idc : string) :
  apart t c t' "alias" →
  maintains Inv (aliasesScan fuel db t' idc) (fun _ => True).
Proof.
  intros Hap. unfold aliasesScan.
  apply (maintains_pageLoop _ _ _ (fun _ => True)); [|done].
  intros [[lastID lastAlias] total] _.
  apply maintains_WithTxn; [apply colFrozen_txnStable |].
  apply (maintains_queryFunc _ db _ _ (fun _ => True) (fun _ => True)); [done | | done].
  intros r [b [[x y] tot]] _ _.
  destruct r as [|vid [|valias [|? ?]]]; try apply maintains_fail.
  eapply (maintains_bind _ _ _ (fun _ => True)); [by apply maintains_lift |]. intros id _.
  eapply maintains_bind;
    [apply (frozen_obfuscateNullString t'); [done | apply harmless_empty] |].
  intros set Hset. eapply (maintains_bind _ _ _ (fun _ => True)).
  { destruct (decide _); [by apply maintains_ret |].
    by apply maintains_wrapErr, maintains_exec, colFrozen_Update. }
  intros _ _. eapply maintains_bind; [apply frozen_logProgress |]. intros _ _.
  by apply maintains_ret.
Qed.

Lemma frozen_anonymiseFoldersRecurse (fuel : nat) (pid : Z) (ppath : string) :
  apart t c folderTable "path" →
  maintains Inv (anonymiseFoldersRecurse fuel db pid ppath) (fun _ => True).
Proof.
  intros Hap. revert pid ppath. induction fuel as [|k IH]; intros pid ppath.
  - apply maintains_outOfFuel.
  - rewrite recurse_step.
    eapply (maintains_bind _ _ _ (fun _ => True)).
    { apply maintains_wrapErr, maintains_exec.
      destruct (pid =? 0)%Z; by apply colFrozen_Update, harmless_singleton. }
    intros _ _.
    apply (maintains_queryFunc _ db _ _ (fun _ => True) (fun _ => True)); [done | | done].
    intros r u _ _. unfold folderVisit.
    destruct r as [|vid [|vpath [|? ?]]]; try apply maintains_fail.
    eapply (maintains_bind _ _ _ (fun _ => True)); [by apply maintains_lift |]. intros id _.
    eapply (maintains_bind _ _ _ (fun _ => True)); [by apply maintains_lift |]. intros path _.
    apply IH.
Qed.

Hypothesis not_written : (t, c) ∉ writtenColumns.
Hypothesis not_truncated : t ∉ truncatedTables.

Lemma apart_written (t' c' : string) : (t', c') ∈ writtenColumns → apart t c t' c'.
Proof.
  intros Hin. destruct (decide (t' = t)) as [->|?]; [|by left].
  destruct (decide (c' = c)) as [->|?]; [done | by right].
Qed.

Lemma other_truncated (t' : string) : t' ∈ truncatedTables → t' ≠ t.
Proof. by intros Hin ->. Qed.

Ltac listed := apply (bool_decide_unpack _); vm_compute; exact Logic.I.
Ltac is_apart := apply apart_written; listed.
Ltac all_apart := repeat (apply Forall_cons_2; [is_apart |]); apply Forall_nil_2.

Lemma frozen_deleteBlobs : maintains Inv (deleteBlobs db) (fun _ => True).
Proof.
  apply maintains_Do.
  repeat (apply Forall_cons_2;
          [first [ apply frozen_truncateColumn; is_apart
                 | apply frozen_truncateTable, other_truncated; listed ] |]).
  apply Forall_nil_2.
Qed.

Lemma frozen_deleteStashIDs : maintains Inv (deleteStashIDs db) (fun _ => True).
Proof.
  apply maintains_Do.
  repeat (apply Forall_cons_2; [apply frozen_truncateTable, other_truncated; listed |]).
  apply Forall_nil_2.
Qed.

Lemma frozen_anonymiseFolders (fuel : nat) :
  maintains Inv (anonymiseFolders fuel db) (fun _ => True).
Proof.
  unfold anonymiseFolders.
  eapply maintains_bind; [apply frozen_logger_Infof |]. intros _ _.
  apply maintains_WithTxn; [apply colFrozen_txnStable |].
  apply frozen_anonymiseFoldersRecurse. is_apart.
Qed.

Lemma frozen_anonymiseFiles : maintains Inv (anonymiseFiles db) (fun _ => True).
Proof.
  unfold anonymiseFiles.
  eapply maintains_bind; [apply frozen_logger_Infof |]. intros _ _.
  apply maintains_WithTxn; [apply colFrozen_txnStable |].
  apply maintains_wrapErr, maintains_exec, colFrozen_Update, harmless_singleton. is_apart.
Qed.

Lemma frozen_anonymiseFingerprints (fuel : nat) :
  maintains Inv (anonymiseFingerprints fuel db) (fun _ => True).
Proof.
  unfold anonymiseFingerprints.
  eapply maintains_bind; [apply frozen_logger_Infof |]. intros _ _.
  eapply maintains_bind; [|intros; by apply maintains_ret].
  apply (maintains_pageLoop _ _ _ (fun _ => True)); [|done].
  intros [[lastID lastType] total] _.
  apply maintains_WithTxn; [apply colFrozen_txnStable |].
  apply (maintains_queryFunc _ db _ _ (fun _ => True) (fun _ => True)); [done | | done].
  intros r [b [[x y] tot]] _ _.
  destruct r as [|vid [|vtyp [|vfp [|? ?]]]]; try apply maintains_fail.
  eapply (maintains_bind _ _ _ (fun _ => True)); [by apply maintains_lift |]. intros id _.
  eapply (maintains_bind _ _ _ (fun _ => True)); [by apply maintains_lift |]. intros typ _.
  eapply (maintains_bind _ _ _ (fun _ => True)); [by apply maintains_lift |]. intros fp _.
  eapply maintains_bind; [apply frozen_anonymiseFingerprint; is_apart |]. intros _ _.
  eapply maintains_bind; [apply frozen_logProgress |]. intros _ _.
  by apply maintains_ret.
Qed.

Lemma frozen_anonymiseScenes (fuel : nat) :
  maintains Inv (anonymiseScenes fuel db) (fun _ => True).
Proof.
  unfold anonymiseScenes.
  eapply maintains_bind; [apply frozen_logger_Infof |]. intros _ _.
  eapply maintains_bind; [|intros; by apply maintains_ret].
  apply (maintains_pageLoop _ _ _ (fun _ => True)); [|done]. intros cur _.
  apply maintains_WithTxn; [apply colFrozen_txnStable |].
  apply (maintains_queryFunc _ db _ _ (fun _ => True) (fun _ => True)); [done | | done].
  intros r s _ _.
  destruct r as [|vid [|vtitle [|vdetails [|vurl [|vcode [|vdirector [|? ?]]]]]]];
    try apply maintains_fail.
  eapply (maintains_bind _ _ _ (fun _ => True)); [by apply maintains_lift |]. intros id _.
  eapply maintains_bind;
    [apply (frozen_obfuscateNullString sceneTable); [is_apart | apply harmless_empty] |].
  intros set1 H1.
  eapply maintains_bind;
    [apply (frozen_obfuscateNullString sceneTable); [is_apart | exact H1] |].
  intros set2 H2.
  eapply maintains_bind;
    [apply (frozen_obfuscateNullString sceneTable); [is_apart | exact H2] |].
  intros set3 H3.
  eapply maintains_bind; [by apply frozen_updateByID |]. intros _ _.
  eapply (maintains_bind _ _ _ (fun _ => True)).
  { destruct (scan_NullString vcode);
      [apply frozen_anonymiseText; is_apart | by apply maintains_ret]. }
  intros _ _. eapply (maintains_bind _ _ _ (fun _ => True)).
  { destruct (scan_NullString vdirector);
      [apply frozen_anonymiseText; is_apart | by apply maintains_ret]. }
  intros _ _.
  eapply maintains_bind; [apply frozen_logProgress |]. intros _ _.
  by apply maintains_ret.
Qed.

Lemma frozen_anonymiseMarkers (fuel : nat) :
  maintains Inv (anonymiseMarkers fuel db) (fun _ => True).
Proof.
  unfold anonymiseMarkers.
  eapply maintains_bind; [apply frozen_logger_Infof |]. intros _ _.
  eapply maintains_bind; [|intros; by apply maintains_ret].
  apply (maintains_pageLoop _ _ _ (fun _ => True)); [|done]. intros cur _.
  apply maintains_WithTxn; [apply colFrozen_txnStable |].
  apply (maintains_queryFunc _ db _ _ (fun _ => True) (fun _ => True)); [done | | done].
  intros r s _ _.
  destruct r as [|vid [|vtitle [|? ?]]]; try apply maintains_fail.
  eapply (maintains_bind _ _ _ (fun _ => True)); [by apply maintains_lift |]. intros id _.
  eapply (maintains_bind _ _ _ (fun _ => True)); [by apply maintains_lift |]. intros title _.
  eapply maintains_bind; [apply frozen_anonymiseText; is_apart |]. intros _ _.
  eapply maintains_bind; [apply frozen_logProgress |]. intros _ _.
  by apply maintains_ret.
Qed.

Ltac frozen_patch_stage :=
  eapply maintains_bind; [apply frozen_logger_Infof |]; intros _ _;
  eapply (maintains_bind _ _ _ (fun _ => True));
    [apply frozen_patchScan; all_apart |]; intros _ _.

Lemma frozen_stages (fuel : nat) :
  Forall (fun f => maintains Inv f (fun _ => True)) (stages fuel db).
Proof.
  unfold stages.
  repeat (apply Forall_cons_2;
    [first [ apply frozen_deleteBlobs | apply frozen_deleteStashIDs
           | apply frozen_anonymiseFolders | apply frozen_anonymiseFiles
           | apply frozen_anonymiseFingerprints | apply frozen_anonymiseScenes
           | apply frozen_anonymiseMarkers
           | by apply maintains_ret
           | unfold anonymiseImages, anonymiseGalleries, anonymiseMovies;
             frozen_patch_stage; by apply maintains_ret
           | unfold anonymisePerformers, anonymiseStudios, anonymiseTags;
             frozen_patch_stage; unfold anonymiseAliases;
             (eapply maintains_bind; [apply frozen_aliasesScan; is_apart |]);
             intros _ _; by apply maintains_ret ] |]).
  apply Forall_nil_2.
Qed.

(** Through the whole run, unless it returns an error (and removes the
    file), the column keeps its content. *)
Lemma frozen_Anonymise (fuel : nat) (st : St) :
  Inv st →
  (∀ e, (Anonymise fuel db st).1 ≠ Err e) →
  Inv (Anonymise fuel db st).2.
Proof.
  intros HI Hne. unfold Anonymise, defer in *.
  destruct (maintains_Do _ _ (frozen_stages fuel) st HI) as [H _].
  destruct (Do (stages fuel db) st) as [[[]|e|msg|] st1]; simpl in *.
  - by apply (colFrozen_filesOnly st1).
  - by destruct (Hne e).
  - by apply (colFrozen_filesOnly st1).
  - done.
Qed.
End Frozen.

(** ** Scans that end *)

Lemma noTimeout_ret {A} (a : A) : noTimeout (ret a).
Proof. by intros st. Qed.

Lemma noTimeout_fail {A} (e : error) : noTimeout (@fail A e).
Proof. by intros st. Qed.

Lemma noTimeout_lift {A} (x : error + A) : noTimeout (lift x).
Proof. destruct x; [apply noTimeout_fail | apply noTimeout_ret]. Qed.

Lemma noTimeout_bind {A B} (m : M A) (k : A → M B) :
  noTimeout m → (∀ a, noTimeout (k a)) → noTimeout (bind m k).
Proof.
  intros Hm Hk st. unfold bind. specialize (Hm st).
  destruct (m st) as [[a|e|msg|] st1]; simpl in *; try done. apply Hk.
Qed.

Lemma noTimeout_wrapErr {A} (prefix : string) (m : M A) :
  noTimeout m → noTimeout (wrapErr prefix m).
Proof.
  intros Hm st. unfold wrapErr. specialize (Hm st).
  by destruct (m st) as [[a|e|msg|] st1].
Qed.

Lemma noTimeout_WithTxn {A} (db : Anonymiser) (fn : M A) :
  noTimeout fn → noTimeout (WithTxn db fn).
Proof.
  intros Hm st. unfold WithTxn. specialize (Hm st).
  by destruct (fn st) as [[a|e|msg|] st1].
Qed.

Lemma noTimeout_exec (db : Anonymiser) (s : stmt) : noTimeout (exec db s).
Proof.
  intros st. unfold exec. destruct (files st !! workPath db) as [d|]; [|done].
  by destruct (run_stmt s d).
Qed.

Lemma noTimeout_queryRows (db : Anonymiser) (q : query) : noTimeout (queryRows db q).
Proof.
  intros st. unfold queryRows. destruct (files st !! workPath db) as [d|]; [|done].
  by destruct (run_query q d).
Qed.

Lemma noTimeout_forRows {S} (rows : list (list value)) (f : list value → S → M S) :
  (∀ r s, noTimeout (f r s)) → ∀ s, noTimeout (forRows rows f s).
Proof.
  intros Hf. induction rows as [|r rows IH]; intros s; simpl.
  - apply noTimeout_ret.
  - apply noTimeout_bind; [apply Hf | apply IH].
Qed.

Lemma noTimeout_queryFunc {S} (db : Anonymiser) (q : query)
  (f : list value → S → M S) (s : S) :
  (∀ r s, noTimeout (f r s)) → noTimeout (queryFunc db q f s).
Proof.
  intros Hf. unfold queryFunc. apply noTimeout_bind; [apply noTimeout_queryRows |].
  intros rows. by apply noTimeout_forRows.
Qed.

Lemma noTimeout_obfuscateLoop (cs : list rune) (dict : string) :
  ∀ out, noTimeout (obfuscateLoop cs dict out).
Proof.
  induction cs as [|c cs IH]; intros out; simpl; [apply noTimeout_ret |].
  destruct (IsSpace c); [apply IH |].
  intros st. unfold bind, rand_Int. destruct (String.length dict); [done |].
  destruct (rnd st (rpos st)); [done |].
  destruct (String.get _ dict); [apply IH | done].
Qed.

Lemma noTimeout_obfuscateNullString (out : gmap string setexpr) (column : string)
  (i : option string) : noTimeout (obfuscateNullString out column i).
Proof.
  destruct i; simpl; [|apply noTimeout_ret].
  apply noTimeout_bind; [apply noTimeout_obfuscateLoop | intros; apply noTimeout_ret].
Qed.

Lemma noTimeout_obfuscateColumns (cols : list string) :
  ∀ (set : gmap string setexpr) (vs : list value), noTimeout (obfuscateColumns set cols vs).
Proof.
  induction cols as [|x cols IH]; intros set [|v vs]; simpl; try apply noTimeout_ret.
  apply noTimeout_bind; [apply noTimeout_obfuscateNullString | intros; apply IH].
Qed.

Lemma noTimeout_logProgress (total : Z) (what : string) : noTimeout (logProgress total what).
Proof. unfold logProgress. by destruct (_ =? _)%Z. Qed.

Lemma noTimeout_updateByID (db : Anonymiser) (t : string) (set : gmap string setexpr) (id : Z) :
  noTimeout (updateByID db t set id).
Proof.
  unfold updateByID. destruct (decide _); [apply noTimeout_ret |].
  apply noTimeout_wrapErr, noTimeout_exec.
Qed.

Lemma noTimeout_patchPage (db : Anonymiser) (t what : string) (cols : list string)
  (c : idCursor) : noTimeout (patchPage db t what cols c).
Proof.
  unfold patchPage. apply noTimeout_WithTxn, noTimeout_queryFunc. intros r s.
  unfold patchVisit. destruct r as [|vid vs]; [apply noTimeout_fail |].
  destruct (decide _); [|apply noTimeout_fail].
  apply noTimeout_bind; [apply noTimeout_lift |]. intros id.
  apply noTimeout_bind; [apply noTimeout_obfuscateColumns |]. intros set.
  apply noTimeout_bind; [apply noTimeout_updateByID |]. intros _.
  apply noTimeout_bind; [apply noTimeout_logProgress |]. intros _.
  apply noTimeout_ret.
Qed.

(** The rows a query returns, seen from a state that satisfies the
    invariant. *)
Lemma maintains_queryRows_inv (I : St → Prop) (db : Anonymiser) (q : query)
  (R : list value → Prop) :
  (∀ st tbl r, I st → tableOf st (workPath db) (q_from q) = Some tbl →
               r ∈ select_rows q tbl → R r) →
  maintains I (queryRows db q) (Forall R).
Proof.
  intros HR st HI. unfold queryRows.
  destruct (files st !! workPath db) as [d|] eqn:Hd; simpl; [|done].
  unfold run_query. destruct (d !! q_from q) as [tbl|] eqn:Ht; simpl; [|done].
  split; [done |]. intros rows [= <-]. apply Forall_forall. intros r Hr.
  apply (HR st tbl r HI); [|done]. apply tableOf_Some. eauto.
Qed.

Lemma filter_length_lt {A} (P Q : A → Prop) `{!∀ x, Decision (P x)} `{!∀ x, Decision (Q x)}
  (l : list A) (x0 : A) :
  (∀ x, P x → Q x) → x0 ∈ l → Q x0 → ¬ P x0 →
  (length (filter P l) < length (filter Q l))%nat.
Proof.
  intros HPQ Hin HQ HP.
  assert (Hle : ∀ k : list A, (length (filter P k) ≤ length (filter Q k))%nat).
  { induction k as [|x k IH]; [done |]. rewrite !filter_cons.
    destruct (decide (P x)) as [Hx|Hx].
    - rewrite decide_True by auto. simpl. lia.
    - destruct (decide (Q x)); simpl; lia. }
  induction l as [|x l IH]; [by apply elem_of_nil in Hin |].
  rewrite !filter_cons. apply elem_of_cons in Hin as [<-|Hin].
  - rewrite decide_False, decide_True by done. simpl. specialize (Hle l). lia.
  - specialize (IH Hin). destruct (decide (P x)) as [Hx|Hx].
    + rewrite decide_True by auto. simpl. lia.
    + destruct (decide (Q x)); simpl; lia.
Qed.

Lemma pagesLeft_decreases (vals : list (option value)) (c i : Z) (v : option value) :
  v ∈ vals → default VNull v = VInt i → (c < i)%Z →
  (pagesLeft vals i < pagesLeft vals c)%nat.
Proof.
  intros Hin Hv Hlt. unfold pagesLeft. eapply (filter_length_lt _ _ vals v); [|done|..].
  - intros x Hx. destruct (default VNull x) as [|z|?|?]; simpl in *; try done.
    apply Z.ltb_lt. apply Z.ltb_lt in Hx. lia.
  - rewrite Hv. simpl. by apply Z.ltb_lt.
  - rewrite Hv. simpl. rewrite Z.ltb_irrefl. done.
Qed.

Section ScanEnds.
Context (db : Anonymiser) (t what : string) (cols : list string)
        (vals : list (option value)).
Hypothesis id_not_patched : idColumn ∉ cols.

(** A page keeps the [id] column and leaves the cursor on a row above the
    old cursor. *)
Lemma patchPage_on_row (c : idCursor) :
  maintains (colFrozen (workPath db) t idColumn vals)
    (patchPage db t what cols c) (cursorOnRow vals c).
Proof.
  assert (Hap : Forall (apart t idColumn t) cols).
  { apply Forall_forall. intros k Hk. right. by intros ->. }
  unfold patchPage. apply maintains_WithTxn; [apply colFrozen_txnStable |].
  unfold queryFunc.
  eapply (maintains_bind _ _ _
            (Forall (fun r => ∃ vid vs, r = vid :: vs
                                ∧ sql_gt vid (VInt (fst c)) = true
                                ∧ ∃ v, v ∈ vals ∧ default VNull v = vid))).
  - apply maintains_queryRows_inv. intros st tbl r (rows & Ht & Hv) Ht' Hr.
    simpl in Ht'. rewrite Ht in Ht'. injection Ht' as <-.
    destruct (idPage_above_cursor _ _ _ _ _ Hr) as (vid & vs & -> & Hgt).
    exists vid, vs. split; [done |]. split; [done |].
    unfold select_rows, idPageQuery in Hr. simpl in Hr.
    apply list_elem_of_In, in_map_iff in Hr as (x & [= <- _] & Hx).
    apply list_elem_of_In, elem_of_take in Hx as (n & Hn%list_elem_of_lookup_2 & _).
    apply list_elem_of_filter in Hn as [_ Hn].
    exists (x !! idColumn). split; [|done]. rewrite <- Hv.
    apply list_elem_of_In, in_map. by apply list_elem_of_In.
  - intros rows Hrows.
    eapply (maintains_forRows _ rows _ _ (cursorOnRow vals c)); [exact Hrows | | done].
    intros r s (vid & vs & -> & Hgt & v & Hv & Hvid) _. unfold patchVisit.
    destruct (decide _); [|apply maintains_fail].
    eapply (maintains_bind _ _ _ (fun id => vid = VInt id)).
    { apply maintains_lift. intros id Hid. destruct vid; try done. by injection Hid as <-. }
    intros id ->.
    eapply maintains_bind;
      [apply (frozen_obfuscateColumns db t idColumn vals t); [done | apply harmless_empty] |].
    intros set Hset.
    eapply maintains_bind; [by apply frozen_updateByID |]. intros _ _.
    eapply maintains_bind; [apply frozen_logProgress |]. intros _ _.
    apply maintains_ret. intros _. exists v. split; [done |]. split; [done |].
    simpl in *. by apply Z.ltb_lt.
Qed.

Lemma patchLoop_ends (fuel : nat) :
  ∀ c st,
    colFrozen (workPath db) t idColumn vals st →
    (pagesLeft vals (fst c) < fuel)%nat →
    (pageLoop fuel (patchPage db t what cols) c st).1 ≠ OutOfFuel.
Proof.
  induction fuel as [|k IH]; intros c st HI Hlt; [lia |].
  cbn [pageLoop]. unfold bind.
  pose proof (noTimeout_patchPage db t what cols c st) as Hno.
  destruct (patchPage_on_row c st HI) as [HI1 Hres].
  destruct (patchPage db t what cols c st) as [[[b c1]|e|msg|] st1]; simpl in *; try done.
  destruct b; [|done].
  destruct (Hres (true, c1) eq_refl eq_refl) as (v & Hv & Hdef & Hc).
  apply IH; [done |]. simpl in *.
  pose proof (pagesLeft_decreases vals (fst c) (fst c1) v Hv Hdef Hc). lia.
Qed.
End ScanEnds.

(** X1: a run writes only the columns it anonymises or nulls.  Any other
    column of any table it does not empty (identifiers, references between
    tables, timestamps, ...) holds in every row what it held before, however
    the run ends short of returning an error (which removes the file). *)
Theorem unwritten_columns_untouched (fuel : nat) (db : Anonymiser) (t c : string)
  (vals : list (option value)) (st : St) :
  (t, c) ∉ writtenColumns → t ∉ truncatedTables →
  colFrozen (workPath db) t c vals st →
  (∀ e, (Anonymise fuel db st).1 ≠ Err e) →
  colFrozen (workPath db) t c vals (Anonymise fuel db st).2.
Proof. intros Hw Ht. by apply frozen_Anonymise. Qed.

Lemma unwritten_columns_untouched_witness :
  colFrozen (workPath outDB) folderTable "parent_folder_id" [Some VNull; Some (VInt 5)]
    (Anonymise 5 outDB sampleFoldersSt).2.
Proof.
  apply unwritten_columns_untouched.
  - intros H. apply (bool_decide_pack _) in H. vm_compute in H. exact H.
  - intros H. apply (bool_decide_pack _) in H. vm_compute in H. exact H.
  - exists sampleFolders. split; reflexivity.
  - intros e. vm_compute. discriminate.
Defined.

Lemma empty_name_not_written (t : string) : (t, "") ∉ writtenColumns.
Proof.
  intros H. apply list_elem_of_In in H. unfold writtenColumns in H. simpl in H.
  repeat (destruct H as [H|H]; [discriminate H |]). done.
Qed.

(** X2: a run keeps the number of rows of every table it does not empty. *)
Theorem row_counts_kept (fuel : nat) (db : Anonymiser) (t : string)
  (rows : list (gmap string value)) (st : St) :
  t ∉ truncatedTables →
  tableOf st (workPath db) t = Some rows →
  (∀ e, (Anonymise fuel db st).1 ≠ Err e) →
  ∃ rows', tableOf (Anonymise fuel db st).2 (workPath db) t = Some rows'
           ∧ length rows' = length rows.
Proof.
  intros Ht Hrows Hne.
  destruct (frozen_Anonymise db t "" (map (fun r : gmap string value => r !! "") rows)
              (empty_name_not_written t) Ht fuel st) as (rows' & Ht' & Hv).
  - by exists rows.
  - done.
  - exists rows'. split; [done |].
    apply (f_equal length) in Hv. by rewrite !length_map in Hv.
Qed.

Lemma row_counts_kept_witness :
  ∃ rows', tableOf (Anonymise 5 outDB sampleImagesSt).2 (workPath outDB) imageTable = Some rows'
           ∧ length rows' = length sampleImages.
Proof.
  apply row_counts_kept.
  - intros H. apply (bool_decide_pack _) in H. vm_compute in H. exact H.
  - vm_compute. reflexivity.
  - intros e. vm_compute. discriminate.
Defined.

(** X3: a scan keyed on [id] ends.  With a budget of more pages than the
    table has rows the loop returns (a result or an error), because every
    page that saw a row leaves the cursor on the [id] of a row above the old
    cursor and the scan never writes [id]. *)
Theorem id_scan_ends (fuel : nat) (db : Anonymiser) (t what : string)
  (cols : list string) (st : St) (rows : list (gmap string value)) :
  idColumn ∉ cols →
  tableOf st (workPath db) t = Some rows →
  (length rows < fuel)%nat →
  (patchScan fuel db t what cols st).1 ≠ OutOfFuel.
Proof.
  intros Hid Ht Hlen. rewrite patchScan_eq.
  apply (patchLoop_ends db t what cols (map (fun r : gmap string value => r !! idColumn) rows)
           Hid fuel).
  - by exists rows.
  - unfold pagesLeft. simpl.
    eapply Nat.le_lt_trans; [apply length_filter |]. by rewrite length_map.
Qed.

Lemma id_scan_ends_witness :
  (patchScan 3 outDB imageTable "images" ["title"; "url"] sampleImagesSt).1 ≠ OutOfFuel.
Proof.
  apply (id_scan_ends 3 outDB imageTable "images" ["title"; "url"] sampleImagesSt sampleImages).
  - intros H. apply (bool_decide_pack _) in H. vm_compute in H. exact H.
  - vm_compute. reflexivity.
  - simpl. lia.
Defined.

(** ** Stripping *)

Lemma exec_DeleteFrom (db : Anonymiser) (st : St) (t : string)
  (rows : list (gmap string value)) :
  tableOf st (workPath db) t = Some rows →
  exec db (DeleteFrom t) st = (Ok tt, putTable (workPath db) t [] st).
Proof.
  intros (d & Hd & Ht)%tableOf_Some. unfold exec, putTable, set_files, run_stmt.
  by rewrite Hd, Ht.
Qed.

Lemma nulled_refl (p : string) (st : St) : nulled [] p st st.
Proof.
  intros t rows Ht. exists rows. split; [done |].
  apply Forall2_diag'. intros r c. by rewrite bool_decide_eq_false_2 by apply not_elem_of_nil.
Qed.

Lemma nulled_trans (S1 S2 : list (string * string)) (p : string) (st st1 st2 : St) :
  nulled S1 p st st1 → nulled S2 p st1 st2 → nulled (S1 ++ S2) p st st2.
Proof.
  intros H1 H2 t rows Ht.
  destruct (H1 t rows Ht) as (rows1 & Ht1 & HF1).
  destruct (H2 t rows1 Ht1) as (rows2 & Ht2 & HF2).
  exists rows2. split; [done |].
  eapply Forall2_compose; [exact HF1 | exact HF2 |].
  intros x y z Hxy Hyz c. rewrite Hyz, Hxy.
  destruct (bool_decide_reflect ((t, c) ∈ S2)) as [Hin2|Hin2].
  - rewrite bool_decide_eq_true_2; [done |]. apply elem_of_app. by right.
  - destruct (bool_decide_reflect ((t, c) ∈ S1)) as [Hin1|Hin1].
    + rewrite bool_decide_eq_true_2; [done |]. apply elem_of_app. by left.
    + rewrite bool_decide_eq_false_2; [done |]. rewrite elem_of_app. tauto.
Qed.

Lemma truncateColumn_nulled (db : Anonymiser) (st : St) (t c : string) :
  is_Some (tableOf st (workPath db) t) →
  ∃ st', truncateColumn db t c st = (Ok tt, st')
         ∧ nulled [(t, c)] (workPath db) st st'.
Proof.
  intros [rows Ht]. eexists. split.
  { unfold truncateColumn. by rewrite (exec_Update db st _ _ _ rows Ht). }
  intros t' rows' Ht'. destruct (decide (t' = t)) as [->|Hne].
  - rewrite Ht in Ht'. injection Ht' as <-.
    eexists. split; [by eapply tableOf_putTable |].
    unfold update_rows. simpl. clear Ht. induction rows as [|r rows IH]; constructor; [|done].
    intros c'. rewrite apply_set_singleton. simpl.
    destruct (decide (c' = c)) as [->|Hc].
    + rewrite lookup_insert_eq. rewrite bool_decide_eq_true_2; [done |]. by left.
    + rewrite lookup_insert_ne by done. rewrite bool_decide_eq_false_2; [done |].
      rewrite list_elem_of_singleton. congruence.
  - exists rows'. split; [by rewrite tableOf_putTable_ne |].
    apply Forall2_diag'. intros r c'. rewrite bool_decide_eq_false_2; [done |].
    rewrite list_elem_of_singleton. congruence.
Qed.

Lemma nulled_is_Some (S : list (string * string)) (p : string) (st st' : St) (t : string) :
  nulled S p st st' → is_Some (tableOf st p t) → is_Some (tableOf st' p t).
Proof. intros H [rows Ht]. destruct (H t rows Ht) as (rows' & Ht' & _). eauto. Qed.

(** X5: on a store that has the six tables it names, [deleteBlobs] succeeds;
    afterwards the blobs table is empty, and every other table has the rows
    it had, with exactly the listed blob columns set to NULL. *)
Theorem deleteBlobs_effect (db : Anonymiser) (st : St) :
  (∀ t, t ∈ blobTables → is_Some (tableOf st (workPath db) t)) →
  ∃ st',
    deleteBlobs db st = (Ok tt, st')
    ∧ tableOf st' (workPath db) "blobs" = Some []
    ∧ ∀ t rows, t ≠ "blobs" → tableOf st (workPath db) t = Some rows →
        ∃ rows', tableOf st' (workPath db) t = Some rows'
          ∧ Forall2 (fun r r' : gmap string value =>
                       ∀ c, r' !! c = if bool_decide ((t, c) ∈ blobColumns)
                                      then Some VNull else r !! c)
                    rows rows'.
Proof.
  intros Hex.
  assert (Hin : ∀ t, bool_decide (t ∈ blobTables) = true →
                     is_Some (tableOf st (workPath db) t)).
  { intros t Ht. apply Hex. by apply bool_decide_eq_true in Ht. }
  destruct (truncateColumn_nulled db st "tags" "image_blob" (Hin "tags" eq_refl))
    as (st1 & R1 & N1).
  destruct (truncateColumn_nulled db st1 "studios" "image_blob"
              (nulled_is_Some _ _ _ _ _ N1 (Hin "studios" eq_refl))) as (st2 & R2 & N2).
  pose proof (nulled_trans _ _ _ _ _ _ N1 N2) as N12.
  destruct (truncateColumn_nulled db st2 "performers" "image_blob"
              (nulled_is_Some _ _ _ _ _ N12 (Hin "performers" eq_refl))) as (st3 & R3 & N3).
  pose proof (nulled_trans _ _ _ _ _ _ N12 N3) as N13.
  destruct (truncateColumn_nulled db st3 "scenes" "cover_blob"
              (nulled_is_Some _ _ _ _ _ N13 (Hin "scenes" eq_refl))) as (st4 & R4 & N4).
  pose proof (nulled_trans _ _ _ _ _ _ N13 N4) as N14.
  destruct (truncateColumn_nulled db st4 "movies" "front_image_blob"
              (nulled_is_Some _ _ _ _ _ N14 (Hin "movies" eq_refl))) as (st5 & R5 & N5).
  pose proof (nulled_trans _ _ _ _ _ _ N14 N5) as N15.
  destruct (truncateColumn_nulled db st5 "movies" "back_image_blob"
              (nulled_is_Some _ _ _ _ _ N15 (Hin "movies" eq_refl))) as (st6 & R6 & N6).
  pose proof (nulled_trans _ _ _ _ _ _ N15 N6) as N16.
  destruct (nulled_is_Some _ _ _ _ "blobs" N16 (Hin "blobs" eq_refl)) as [brows Hb].
  exists (putTable (workPath db) "blobs" [] st6). split; [|split].
  - unfold deleteBlobs. cbn [Do]. unfold bind.
    rewrite R1, R2, R3, R4, R5, R6. unfold truncateTable.
    by rewrite (exec_DeleteFrom db st6 "blobs" brows Hb).
  - by eapply tableOf_putTable.
  - intros t rows Hne Ht. destruct (N16 t rows Ht) as (rows' & Ht' & HF).
    exists rows'. split; [by rewrite tableOf_putTable_ne | exact HF].
Qed.

Lemma deleteBlobs_effect_witness :
  ∃ st',
    deleteBlobs outDB sampleBlobsSt = (Ok tt, st')
    ∧ tableOf st' (workPath outDB) "blobs" = Some []
    ∧ ∀ t rows, t ≠ "blobs" → tableOf sampleBlobsSt (workPath outDB) t = Some rows →
        ∃ rows', tableOf st' (workPath outDB) t = Some rows'
          ∧ Forall2 (fun r r' : gmap string value =>
                       ∀ c, r' !! c = if bool_decide ((t, c) ∈ blobColumns)
                                      then Some VNull else r !! c)
                    rows rows'.
Proof.
  apply deleteBlobs_effect. intros t Ht.
  unfold blobTables in Ht.
  repeat (apply elem_of_cons in Ht as [->|Ht]; [vm_compute; eauto |]).
  by apply elem_of_nil in Ht.
Defined.

Lemma truncateTable_ok (db : Anonymiser) (st : St) (t : string) :
  is_Some (tableOf st (workPath db) t) →
  truncateTable db t st = (Ok tt, putTable (workPath db) t [] st).
Proof. intros [rows Ht]. unfold truncateTable. by rewrite (exec_DeleteFrom db st t rows Ht). Qed.

(** X6: on a store that has the three tables, [deleteStashIDs] succeeds,
    leaves the three tables empty and every other table as it was. *)
Theorem deleteStashIDs_effect (db : Anonymiser) (st : St) :
  (∀ t, t ∈ stashIDTables → is_Some (tableOf st (workPath db) t)) →
  ∃ st',
    deleteStashIDs db st = (Ok tt, st')
    ∧ ∀ t, tableOf st' (workPath db) t
           = if bool_decide (t ∈ stashIDTables) then Some []
             else tableOf st (workPath db) t.
Proof.
  intros Hex.
  assert (H1 : is_Some (tableOf st (workPath db) "scene_stash_ids"))
    by (apply Hex; set_solver).
  assert (H2 : is_Some (tableOf st (workPath db) "studio_stash_ids"))
    by (apply Hex; set_solver).
  assert (H3 : is_Some (tableOf st (workPath db) "performer_stash_ids"))
    by (apply Hex; set_solver).
  set (st1 := putTable (workPath db) "scene_stash_ids" [] st).
  set (st2 := putTable (workPath db) "studio_stash_ids" [] st1).
  set (st3 := putTable (workPath db) "performer_stash_ids" [] st2).
  assert (H2' : is_Some (tableOf st1 (workPath db) "studio_stash_ids"))
    by (unfold st1; by rewrite tableOf_putTable_ne).
  assert (H3' : is_Some (tableOf st2 (workPath db) "performer_stash_ids"))
    by (unfold st2, st1; by rewrite !tableOf_putTable_ne).
  exists st3. split.
  - unfold deleteStashIDs. cbn [Do]. unfold bind.
    rewrite (truncateTable_ok db st _ H1). fold st1.
    rewrite (truncateTable_ok db st1 _ H2'). fold st2.
    by rewrite (truncateTable_ok db st2 _ H3').
  - intros t. destruct H1 as [r1 H1], H2' as [r2 H2'], H3' as [r3 H3'].
    unfold st3. destruct (decide (t = "performer_stash_ids")) as [->|N3].
    { by erewrite tableOf_putTable. }
    rewrite tableOf_putTable_ne by done. unfold st2.
    destruct (decide (t = "studio_stash_ids")) as [->|N2].
    { by erewrite tableOf_putTable. }
    rewrite tableOf_putTable_ne by done. unfold st1.
    destruct (decide (t = "scene_stash_ids")) as [->|N1].
    { by erewrite tableOf_putTable. }
    rewrite tableOf_putTable_ne by done.
    rewrite bool_decide_eq_false_2; [done |]. unfold stashIDTables.
    rewrite !elem_of_cons, elem_of_nil. tauto.
Qed.

Lemma deleteStashIDs_effect_witness :
  ∃ st',
    deleteStashIDs outDB sampleBlobsSt = (Ok tt, st')
    ∧ ∀ t, tableOf st' (workPath outDB) t
           = if bool_decide (t ∈ stashIDTables) then Some []
             else tableOf sampleBlobsSt (workPath outDB) t.
Proof.
  apply deleteStashIDs_effect. intros t Ht.
  unfold stashIDTables in Ht.
  repeat (apply elem_of_cons in Ht as [->|Ht]; [vm_compute; eauto |]).
  by apply elem_of_nil in Ht.
Defined.

(** ** What a scan keyed on [id] leaves in the rows *)

Lemma tableOf_files (st st' : St) (p t : string) :
  files st' = files st → tableOf st' p t = tableOf st p t.
Proof. intros H. unfold tableOf. by rewrite H. Qed.

Lemma alive_rnd (st st' : St) : rnd st' = rnd st → alive st → alive st'.
Proof. intros H Hst i. rewrite H. apply Hst. Qed.

Lemma logProgress_ok (total : Z) (what : string) (st : St) :
  ∃ st', logProgress total what st = (Ok tt, st')
         ∧ files st' = files st ∧ rnd st' = rnd st.
Proof.
  unfold logProgress. destruct (_ =? _)%Z; eexists; split; try done.
Qed.

Lemma ascendingIDs_above (lo : Z) (rows : list (gmap string value)) :
  ascendingIDs lo rows →
  Forall (fun r => ∃ z, col r idColumn = VInt z ∧ (lo < z)%Z) rows.
Proof.
  revert lo. induction rows as [|r rows IH]; intros lo H; [constructor |].
  destruct H as (z & Hz & Hlt & Hrest). constructor; [eauto |].
  eapply Forall_impl; [by apply IH |].
  intros r' (z' & Hz' & Hlt'). exists z'. split; [done | lia].
Qed.

Lemma idUpTo_mono (lo hi : Z) (r : gmap string value) :
  (lo ≤ hi)%Z → idUpTo lo r → idUpTo hi r.
Proof. intros Hle (z & Hz & Hlo). exists z. split; [done | lia]. Qed.

Lemma map_fixed {A} (f : A → A) (l : list A) :
  Forall (fun x => f x = x) l → map f l = l.
Proof. induction 1; simpl; [done |]. by f_equal. Qed.

(** The statement of a visit touches the visited row only. *)
Lemma update_one_row (set : gmap string setexpr) (z : Z)
  (seen : list (gmap string value)) (r : gmap string value)
  (rest : list (gmap string value)) (last : Z) :
  Forall (idUpTo last) seen → (last < z)%Z → col r idColumn = VInt z →
  ascendingIDs z rest →
  update_rows set [Eq idColumn (VInt z)] (seen ++ r :: rest)
  = (seen ++ apply_set set r :: rest)%list.
Proof.
  intros Hdone Hlt Hr Hrest. unfold update_rows. rewrite map_app. simpl.
  f_equal; [|f_equal].
  - apply map_fixed. eapply Forall_impl; [exact Hdone |].
    intros r' (z' & Hz' & Hle). unfold matches. simpl. rewrite Hz'. simpl.
    by rewrite (proj2 (Z.eqb_neq z' z)) by lia.
  - unfold matches. simpl. rewrite Hr. simpl. by rewrite Z.eqb_refl.
  - apply map_fixed. eapply Forall_impl; [by apply ascendingIDs_above |].
    intros r' (z' & Hz' & Hgt). unfold matches. simpl. rewrite Hz'. simpl.
    by rewrite (proj2 (Z.eqb_neq z' z)) by lia.
Qed.

Lemma obfuscateString_rel (s : string) (st : St) :
  alive st →
  ∃ o st',
    obfuscateString s letters st = (Ok o, st')
    ∧ files st' = files st ∧ rnd st' = rnd st
    ∧ obf_rel letters (range_string s) o.
Proof.
  intros Hst. unfold obfuscateString.
  destruct (obfuscateLoop_total letters (range_string s) ltac:(done) "" st Hst)
    as (o & st1 & Ho & _).
  exists o, st1. split; [done |].
  pose proof (obfuscateLoop_state _ _ _ _ _ _ Ho) as ->. simpl.
  split; [done |]. split; [done |].
  by apply obfuscateLoop_inv in Ho as (o' & -> & Hrel).
Qed.

(** The record of a visit, column by column. *)
Lemma obfuscateColumns_record (r : gmap string value) (cols : list string) :
  ∀ set0 st, alive st →
    ∃ set st',
      obfuscateColumns set0 cols (map (col r) cols) st = (Ok set, st')
      ∧ files st' = files st ∧ rnd st' = rnd st
      ∧ ∀ c, (c ∉ cols → set !! c = set0 !! c)
             ∧ (c ∈ cols →
                match scan_NullString (col r c) with
                | None => set !! c = set0 !! c
                | Some s => ∃ o, set !! c = Some (Lit (VText o))
                                 ∧ obf_rel letters (range_string s) o
                end).
Proof.
  induction cols as [|c0 cols IH]; intros set0 st Hst; simpl.
  { exists set0, st. repeat split; try done. by intros ?%elem_of_nil. }
  unfold bind.
  assert (H1 : ∃ set1 st1,
             obfuscateNullString set0 c0 (scan_NullString (col r c0)) st = (Ok set1, st1)
             ∧ files st1 = files st ∧ rnd st1 = rnd st
             ∧ match scan_NullString (col r c0) with
               | None => set1 = set0
               | Some s => ∃ o, set1 = <[c0 := Lit (VText o)]> set0
                                ∧ obf_rel letters (range_string s) o
               end).
  { unfold obfuscateNullString. destruct (scan_NullString (col r c0)) as [s|].
    - destruct (obfuscateString_rel s st Hst) as (o & st1 & Ho & Hf & Hr & Hrel).
      unfold bind. rewrite Ho. eexists _, st1. repeat split; try done. eauto.
    - exists set0, st. done. }
  destruct H1 as (set1 & st1 & -> & Hf1 & Hr1 & Hset1).
  destruct (IH set1 st1 (alive_rnd _ _ Hr1 Hst)) as (set & st2 & -> & Hf2 & Hr2 & Hset).
  exists set, st2. split; [done |]. split; [congruence |]. split; [congruence |].
  intros c. destruct (Hset c) as [Hout Hin]. split.
  - intros Hc. apply not_elem_of_cons in Hc as [Hne Hc]. rewrite (Hout Hc).
    destruct (scan_NullString (col r c0)); [|by subst].
    destruct Hset1 as (o & -> & _). by rewrite lookup_insert_ne.
  - intros Hc. destruct (decide (c ∈ cols)) as [Hcin|Hcout].
    + specialize (Hin Hcin). destruct (scan_NullString (col r c)) as [s|] eqn:Hs; [done |].
      rewrite Hin. destruct (decide (c = c0)) as [->|Hne].
      * rewrite Hs in Hset1. by subst.
      * destruct (scan_NullString (col r c0)); [|by subst].
        destruct Hset1 as (o & -> & _). by rewrite lookup_insert_ne.
    + apply elem_of_cons in Hc as [->|Hc]; [|done].
      rewrite (Hout Hcout). destruct (scan_NullString (col r c0)) as [s|]; [|by subst].
      destruct Hset1 as (o & -> & Hrel). exists o. by rewrite lookup_insert_eq.
Qed.

Lemma obfuscateColumns_recordFor (r : gmap string value) (cols : list string) (st : St) :
  alive st →
  ∃ set st',
    obfuscateColumns ∅ cols (map (col r) cols) st = (Ok set, st')
    ∧ files st' = files st ∧ rnd st' = rnd st ∧ recordFor cols r set.
Proof.
  intros Hst.
  destruct (obfuscateColumns_record r cols ∅ st Hst) as (set & st' & Hrun & Hf & Hr & Hset).
  exists set, st'. repeat split; try done.
  - intros Hc. by rewrite (proj1 (Hset c) Hc).
  - intros Hc. pose proof (proj2 (Hset c) Hc) as H.
    destruct (scan_NullString (col r c)); [done |]. by rewrite H.
Qed.

(** Applying the record of a visit to the row it was built from. *)
Lemma recordFor_rowObf (cols : list string) (r : gmap string value)
  (set : gmap string setexpr) :
  recordFor cols r set → rowObf cols r (apply_set set r).
Proof.
  intros Hset c. destruct (Hset c) as [Hout Hin]. unfold apply_set.
  destruct (bool_decide_reflect (c ∈ cols)) as [Hc|Hc].
  - specialize (Hin Hc). unfold valObf. fold (col r c).
    destruct (scan_NullString (col r c)) as [s|].
    + destruct Hin as (o & Ho & Hrel). exists o. split; [|done].
      apply lookup_union_Some_l. by rewrite lookup_fmap, Ho.
    + apply lookup_union_r. by rewrite lookup_fmap, Hin.
  - apply lookup_union_r. by rewrite lookup_fmap, (Hout Hc).
Qed.

Lemma apply_set_empty (r : gmap string value) : apply_set ∅ r = r.
Proof. unfold apply_set. by rewrite fmap_empty, (left_id_L ∅ (∪)). Qed.

Lemma filter_none {A} (P : A → Prop) `{!∀ x, Decision (P x)} (l : list A) :
  Forall (fun x => ¬ P x) l → filter P l = [].
Proof.
  induction 1 as [|x l Hx _ IH]; [done |]. by rewrite filter_cons_False.
Qed.

Lemma filter_all {A} (P : A → Prop) `{!∀ x, Decision (P x)} (l : list A) :
  Forall P l → filter P l = l.
Proof.
  induction 1 as [|x l Hx _ IH]; [done |]. rewrite filter_cons_True by done. by f_equal.
Qed.

Section ScanObfuscates.
Context (db : Anonymiser) (t what : string) (cols : list string).
Hypothesis id_not_patched : idColumn ∉ cols.

Lemma rowObf_id (r r' : gmap string value) :
  rowObf cols r r' → col r' idColumn = col r idColumn.
Proof.
  intros H. specialize (H idColumn).
  rewrite bool_decide_eq_false_2 in H by done. unfold col. by rewrite H.
Qed.

(** One visit: the row is patched in place, the cursor moves to its id. *)
Lemma patchVisit_row (st : St) (seen : list (gmap string value))
  (r : gmap string value) (rest : list (gmap string value))
  (b : bool) (last total z : Z) :
  tableOf st (workPath db) t = Some (seen ++ r :: rest)%list →
  Forall (idUpTo last) seen → col r idColumn = VInt z → (last < z)%Z →
  ascendingIDs z rest → alive st →
  ∃ st' r',
    patchVisit db t what cols (map (col r) (idColumn :: cols)) (b, (last, total)) st
    = (Ok (true, (z, (total + 1)%Z)), st')
    ∧ tableOf st' (workPath db) t = Some (seen ++ r' :: rest)%list
    ∧ rowObf cols r r' ∧ alive st'.
Proof.
  intros Ht Hdone Hr Hlt Hrest Hst.
  destruct (obfuscateColumns_recordFor r cols st Hst)
    as (set & st1 & Hcols & Hf1 & Hr1 & Hset).
  assert (Ht1 : tableOf st1 (workPath db) t = Some (seen ++ r :: rest)%list)
    by (by rewrite (tableOf_files st st1)).
  assert (Hupd : ∃ st2, updateByID db t set z st1 = (Ok tt, st2)
                        ∧ tableOf st2 (workPath db) t
                          = Some (seen ++ apply_set set r :: rest)%list
                        ∧ rnd st2 = rnd st1).
  { unfold updateByID. destruct (decide (set = ∅)) as [->|Hne].
    - exists st1. by rewrite apply_set_empty.
    - unfold wrapErr. rewrite (exec_Update db st1 _ _ _ _ Ht1).
      eexists. split; [done |]. split; [|done].
      erewrite tableOf_putTable by done.
      by rewrite (update_one_row set z seen r rest last). }
  destruct Hupd as (st2 & Hupd & Ht2 & Hr2).
  destruct (logProgress_ok (total + 1) what st2) as (st3 & Hlog & Hf3 & Hr3).
  exists st3, (apply_set set r). split; [|split; [|split]].
  - simpl. rewrite Hr. unfold patchVisit.
    rewrite decide_True by (by rewrite length_map).
    simpl. unfold bind. simpl. rewrite Hcols, Hupd. simpl. by rewrite Hlog.
  - by rewrite (tableOf_files st2 st3).
  - by apply recordFor_rowObf.
  - apply (alive_rnd st); [congruence | done].
Qed.

(** The rows of one page, visited in storage order. *)
Lemma forRows_block (block : list (gmap string value)) :
  ∀ (seen post : list (gmap string value)) (b : bool) (last total : Z) (st : St),
    tableOf st (workPath db) t = Some (seen ++ block ++ post)%list →
    Forall (idUpTo last) seen → ascendingIDs last (block ++ post) → alive st →
    ∃ b' last' st' seen',
      forRows (map (fun r => map (col r) (idColumn :: cols)) block)
        (patchVisit db t what cols) (b, (last, total)) st
      = (Ok (b', (last', (total + Z.of_nat (length block))%Z)), st')
      ∧ tableOf st' (workPath db) t = Some (seen ++ seen' ++ post)%list
      ∧ Forall2 (rowObf cols) block seen'
      ∧ Forall (idUpTo last') (seen ++ seen')
      ∧ ascendingIDs last' post ∧ alive st'
      ∧ b' = (if block is [] then b else true)
      ∧ (block = [] → last' = last).
Proof.
  induction block as [|r block IH]; intros seen post b last total st Ht Hdone Hasc Hst.
  - exists b, last, st, []. simpl. rewrite Z.add_0_r.
    repeat split; try done. by rewrite app_nil_r.
  - destruct Hasc as (z & Hz & Hlt & Hrest).
    destruct (patchVisit_row st seen r (block ++ post) b last total z
                Ht Hdone Hz Hlt Hrest Hst) as (st1 & r' & Hvisit & Ht1 & Hobf & Hst1).
    assert (Hdone1 : Forall (idUpTo z) (seen ++ [r'])).
    { apply Forall_app. split.
      - eapply Forall_impl; [exact Hdone |]. intros x. apply idUpTo_mono. lia.
      - apply Forall_singleton. exists z. split; [|lia].
        by rewrite (rowObf_id r r'). }
    assert (Ht1' : tableOf st1 (workPath db) t = Some ((seen ++ [r']) ++ block ++ post)%list)
      by (by rewrite <- app_assoc).
    destruct (IH (seen ++ [r'])%list post true z (total + 1)%Z st1 Ht1' Hdone1 Hrest Hst1)
      as (b' & last' & st' & seen' & Hrun & Ht' & Hobf' & Hup' & Hasc' & Hst' & Hb' & _).
    exists true, last', st', (r' :: seen').
    split; [|split; [|split; [|split; [|split; [|split; [|split]]]]]]; try done.
    + rewrite map_cons. cbn [forRows]. unfold bind. rewrite Hvisit, Hrun.
      assert (b' = true) as -> by (rewrite Hb'; by destruct block).
      replace (total + Z.of_nat (length (r :: block)))%Z
        with (total + 1 + Z.of_nat (length block))%Z by (cbn [length]; lia).
      done.
    + by rewrite <- app_assoc in Ht'.
    + by constructor.
    + by rewrite <- app_assoc in Hup'.
Qed.

(** One page: the next rows above the cursor, at most a page of them. *)
Lemma patchPage_block (seen post : list (gmap string value)) (last total : Z) (st : St) :
  tableOf st (workPath db) t = Some (seen ++ post)%list →
  Forall (idUpTo last) seen → ascendingIDs last post → alive st →
  ∃ b' last' st' seen',
    patchPage db t what cols (last, total) st
    = (Ok (b', (last', (total + Z.of_nat (length (take pageSize post)))%Z)), st')
    ∧ tableOf st' (workPath db) t = Some (seen ++ seen' ++ drop pageSize post)%list
    ∧ Forall2 (rowObf cols) (take pageSize post) seen'
    ∧ Forall (idUpTo last') (seen ++ seen')
    ∧ ascendingIDs last' (drop pageSize post) ∧ alive st'
    ∧ b' = (if post is [] then false else true)
    ∧ (post = [] → last' = last).
Proof.
  intros Ht Hdone Hasc Hst.
  assert (Hsel : select_rows (idPageQuery t cols last) (seen ++ post)
                 = map (fun r => map (col r) (idColumn :: cols)) (take pageSize post)).
  { unfold select_rows, idPageQuery. cbn [q_select q_limit q_where take_limit].
    f_equal. f_equal. rewrite filter_app.
    rewrite filter_none, filter_all; [done | |].
    - eapply Forall_impl; [by apply ascendingIDs_above |].
      intros r (z & Hz & Hgt). unfold matches. simpl. rewrite Hz. simpl.
      rewrite andb_true_r. by apply Z.ltb_lt.
    - eapply Forall_impl; [exact Hdone |].
      intros r (z & Hz & Hle). unfold matches. simpl. rewrite Hz. simpl.
      rewrite andb_true_r. rewrite (proj2 (Z.ltb_ge last z)) by lia. done. }
  assert (Ht' : tableOf st (workPath db) t
                = Some (seen ++ take pageSize post ++ drop pageSize post)%list)
    by (by rewrite take_drop).
  assert (Hasc' : ascendingIDs last (take pageSize post ++ drop pageSize post))
    by (by rewrite take_drop).
  destruct (forRows_block (take pageSize post) seen (drop pageSize post) false last total
              st Ht' Hdone Hasc' Hst)
    as (b' & last' & st' & seen' & Hrun & Htab & Hobf & Hup & Hasc2 & Hst' & Hb' & Hl').
  exists b', last', st', seen'. split; [|repeat split; try done].
  - unfold patchPage, WithTxn, queryFunc, bind. cbn [fst].
    rewrite (queryRows_ok db st _ (seen ++ post)) by done.
    rewrite Hsel. cbv beta iota. unfold idCursor in *. by rewrite Hrun.
  - rewrite Hb'. by destruct post.
  - intros ->. by apply Hl'.
Qed.

(** The whole scan. *)
Lemma patchLoop_obfuscates (fuel : nat) :
  ∀ (seen post : list (gmap string value)) (last total : Z) (st : St),
    (length post < fuel)%nat →
    tableOf st (workPath db) t = Some (seen ++ post)%list →
    Forall (idUpTo last) seen → ascendingIDs last post → alive st →
    ∃ last' st' seen',
      pageLoop fuel (patchPage db t what cols) (last, total) st
      = (Ok (last', (total + Z.of_nat (length post))%Z), st')
      ∧ tableOf st' (workPath db) t = Some (seen ++ seen')%list
      ∧ Forall2 (rowObf cols) post seen'.
Proof.
  induction fuel as [|fuel IH]; intros seen post last total st Hfuel Ht Hdone Hasc Hst;
    [lia |].
  destruct (patchPage_block seen post last total st Ht Hdone Hasc Hst)
    as (b' & last' & st' & seen' & Hrun & Htab & Hobf & Hup & Hasc' & Hst' & Hb' & Hl').
  cbn [pageLoop]. unfold bind. rewrite Hrun. cbn [fst snd].
  destruct post as [|r post].
  - subst b'. exists last', st', []. simpl in *. inversion Hobf; subst.
    rewrite Z.add_0_r. split; [done |]. split; [|constructor].
    exact Htab.
  - subst b'.
    assert (Hlen : (length (drop pageSize (r :: post)) < fuel)%nat).
    { rewrite length_drop. unfold pageSize. simpl in *. lia. }
    rewrite app_assoc in Htab.
    destruct (IH (seen ++ seen')%list (drop pageSize (r :: post)) last'
                (total + Z.of_nat (length (take pageSize (r :: post))))%Z st'
                Hlen Htab Hup Hasc' Hst') as (last2 & st2 & seen2 & Hloop & Htab2 & Hobf2).
    exists last2, st2, (seen' ++ seen2)%list. split; [|split].
    + rewrite Hloop.
      by rewrite <- Z.add_assoc, <- Nat2Z.inj_add, <- length_app, take_drop.
    + by rewrite <- app_assoc in Htab2.
    + rewrite <- (take_drop pageSize (r :: post)). by apply Forall2_app.
Qed.

End ScanObfuscates.

(** X7: the scan that patches rows by [id] (images, galleries, performers,
    studios, tags, movies), run on a table whose rows hold positive integer
    ids in strictly ascending storage order, with the random source
    available and budget for its pages: it returns, it has counted every row
    once, and every row is what it was with each listed column obfuscated,
    that is a NULL left NULL and a text replaced by an obfuscation of it,
    and with every other column as it was. *)
Theorem id_scan_obfuscates_every_row (fuel : nat) (db : Anonymiser) (t what : string)
  (cols : list string) (st : St) (rows : list (gmap string value)) :
  idColumn ∉ cols →
  tableOf st (workPath db) t = Some rows →
  ascendingIDs 0 rows → alive st → (length rows < fuel)%nat →
  ∃ last st' rows',
    patchScan fuel db t what cols st = (Ok (last, Z.of_nat (length rows)), st')
    ∧ tableOf st' (workPath db) t = Some rows'
    ∧ Forall2 (rowObf cols) rows rows'.
Proof.
  intros Hid Ht Hasc Hst Hfuel.
  destruct (patchLoop_obfuscates db t what cols Hid fuel [] rows 0 0 st
              Hfuel Ht (Forall_nil_2 _) Hasc Hst) as (last & st' & rows' & Hrun & Ht' & Hobf).
  exists last, st', rows'. by rewrite patchScan_eq.
Qed.

Lemma id_scan_obfuscates_every_row_witness :
  ∃ last st' rows',
    patchScan 3 outDB imageTable "images" ["title"; "url"] sampleImagesSt
    = (Ok (last, Z.of_nat (length sampleImages)), st')
    ∧ tableOf st' (workPath outDB) imageTable = Some rows'
    ∧ Forall2 (rowObf ["title"; "url"]) sampleImages rows'.
Proof.
  apply id_scan_obfuscates_every_row.
  - apply (bool_decide_unpack _). vm_compute. exact Logic.I.
  - vm_compute. reflexivity.
  - simpl. exists 1%Z. split; [reflexivity |]. split; [lia |].
    exists 2%Z. split; [reflexivity |]. split; [lia | exact Logic.I].
  - intros i. done.
  - simpl. lia.
Defined.

(** ** Setting up and tearing down the working copy *)

(** X8: when the copy and the open succeed, [NewAnonymiser] returns a
    handle on the destination path, the destination file is an exact copy
    of the source store, the handle is open, and no other file changed. *)
Theorem NewAnonymiser_copies (src : Database) (outPath : string) (st : St)
  (d : gmap string (list (gmap string value))) :
  vacuum_fails (faults st) = false → open_fails (faults st) = false →
  files st !! dbPath src = Some d → files st !! outPath = None →
  ∃ db st',
    NewAnonymiser src outPath st = (Ok db, st')
    ∧ workPath db = outPath
    ∧ files st' = <[outPath := d]> (files st)
    ∧ files st' !! dbPath src = Some d
    ∧ outPath ∈ opened st'.
Proof.
  intros Hv Ho Hsrc Hout. unfold NewAnonymiser, bind, wrapErr, vacuumInto, Open.
  rewrite Hv, Hsrc, Hout. simpl. rewrite Ho. eexists _, _. split; [done |].
  simpl. split; [done |]. split; [done |]. split.
  - rewrite lookup_insert_ne; [done |]. intros Heq. rewrite Heq in Hout. congruence.
  - apply elem_of_union. left. by apply elem_of_singleton.
Qed.

Lemma NewAnonymiser_copies_witness :
  ∃ db st',
    NewAnonymiser srcDB "anon.sqlite" sampleSourceSt = (Ok db, st')
    ∧ workPath db = "anon.sqlite"
    ∧ files st'
      = <["anon.sqlite" := default ∅ (files sampleSourceSt !! "stash.sqlite")]>
          (files sampleSourceSt)
    ∧ files st' !! dbPath srcDB
      = Some (default ∅ (files sampleSourceSt !! "stash.sqlite"))
    ∧ "anon.sqlite" ∈ opened st'.
Proof. apply NewAnonymiser_copies; reflexivity. Defined.

Lemma Anonymise_error_removes_witness :
  ∃ e, (Anonymise 5 outDB emptyStoreSt).1 = Err e
       ∧ files (Anonymise 5 outDB emptyStoreSt).2 !! workPath outDB = None.
Proof.
  exists (SqlError "no such table: tags"). split; [vm_compute; reflexivity |].
  apply (Anonymise_error_removes 5 outDB emptyStoreSt _ (SqlError "no such table: tags")).
  - vm_compute. reflexivity.
  - reflexivity.
Defined.

Lemma exec_no_table (db : Anonymiser) (st : St) (t : string)
  (set : gmap string setexpr) (ws : list cond) :
  tableOf st (workPath db) t = None →
  ∃ e, exec db (Update t set ws) st = (Err e, st).
Proof.
  unfold tableOf, exec. destruct (files st !! workPath db) as [d|]; simpl; [|eauto].
  intros ->. eauto.
Qed.

(** X10: a run that does not return an error leaves the working copy on
    disk, and once it has returned or panicked its handle is closed. *)
Theorem Anonymise_keeps_copy (fuel : nat) (db : Anonymiser) (st : St) :
  (∀ e, (Anonymise fuel db st).1 ≠ Err e) →
  is_Some (files (Anonymise fuel db st).2 !! workPath db)
  ∧ ((Anonymise fuel db st).1 ≠ OutOfFuel →
     workPath db ∉ opened (Anonymise fuel db st).2).
Proof.
  intros Hne. split.
  - destruct (tableOf st (workPath db) "tags") as [rows|] eqn:Ht.
    + destruct (frozen_Anonymise db "tags" ""
                  (map (fun r : gmap string value => r !! "") rows)
                  (empty_name_not_written "tags")
                  ltac:(apply (bool_decide_unpack _); vm_compute; exact Logic.I)
                  fuel st) as (rows' & Ht' & _).
      * by exists rows.
      * done.
      * apply tableOf_Some in Ht' as (d & Hd & _). eauto.
    + exfalso.
      destruct (exec_no_table db st "tags" {[ "image_blob" := Lit VNull ]} [] Ht)
        as [e He].
      apply (Hne e). unfold Anonymise, defer, stages. cbn [Do]. unfold bind at 1.
      unfold deleteBlobs. cbn [Do]. unfold bind at 1. unfold truncateColumn at 1.
      by rewrite He.
  - intros Hfuel. revert Hne Hfuel. unfold Anonymise, defer.
    destruct (Do (stages fuel db) st) as [[[]|e|msg|] st1]; simpl; intros Hne Hfuel.
    + intros [_ H]%elem_of_difference. apply H. by apply elem_of_singleton.
    + by destruct (Hne e).
    + intros [_ H]%elem_of_difference. apply H. by apply elem_of_singleton.
    + done.
Qed.

Lemma Anonymise_keeps_copy_witness :
  is_Some (files (Anonymise 5 outDB sampleFoldersSt).2 !! workPath outDB)
  ∧ ((Anonymise 5 outDB sampleFoldersSt).1 ≠ OutOfFuel →
     workPath outDB ∉ opened (Anonymise 5 outDB sampleFoldersSt).2).
Proof. apply Anonymise_keeps_copy. intros e. vm_compute. discriminate. Defined.

(** ** Random reads *)

(** X11: a call of [obfuscateString] that returns has read the random
    source once per character that is not whitespace, never for a
    whitespace character, and has changed nothing else. *)
Theorem obfuscateString_draws (s dict : string) (st st' : St) (o : string) :
  obfuscateString s dict st = (Ok o, st') →
  st' = mkSt (files st) (opened st) (rnd st)
             (rpos st + length (filter (fun c => IsSpace c = false) (range_string s)))
             (faults st) (log st).
Proof. unfold obfuscateString. apply obfuscateLoop_state. Qed.

Lemma obfuscateString_draws_witness :
  ∃ o, (obfuscateString "a b" letters sampleImagesSt).1 = Ok o
       ∧ rpos (obfuscateString "a b" letters sampleImagesSt).2 = 2%nat.
Proof.
  exists "d e". split; [vm_compute; reflexivity |].
  rewrite (obfuscateString_draws "a b" letters sampleImagesSt
             (obfuscateString "a b" letters sampleImagesSt).2 "d e").
  - reflexivity.
  - vm_compute. reflexivity.
Defined.

Lemma patchPage_cursor_witness :
  ∃ r, (patchPage outDB imageTable "images" ["title"; "url"] (0%Z, 0%Z) sampleImagesSt).1
       = Ok r
       ∧ cursorAdvanced (0%Z, 0%Z) r.
Proof.
  exists (true, (2%Z, 2%Z)). split; [vm_compute; reflexivity |].
  apply (patchPage_cursor outDB imageTable "images" ["title"; "url"] (0%Z, 0%Z)
           sampleImagesSt
           (patchPage outDB imageTable "images" ["title"; "url"] (0%Z, 0%Z)
              sampleImagesSt).2).
  vm_compute. reflexivity.
Defined.

(** ** Scans that replace by value *)

Lemma isASCII_letters : isASCII letters = true.
Proof. reflexivity. Qed.

Lemma isASCII_hex : isASCII hex = true.
Proof. reflexivity. Qed.

Lemma noSpace_of_forallb (dict : string) :
  forallb (fun x => negb (IsSpace x)) (range_string dict) = true →
  ∀ x, In x (range_string dict) → IsSpace x = false.
Proof.
  intros H x Hx. rewrite forallb_forall in H. apply negb_true_iff. by apply H.
Qed.

Lemma noSpace_letters (x : rune) : In x (range_string letters) → IsSpace x = false.
Proof. by apply noSpace_of_forallb. Qed.

Lemma noSpace_hex (x : rune) : In x (range_string hex) → IsSpace x = false.
Proof. by apply noSpace_of_forallb. Qed.

Section Touch.
Context (dict : string).
Hypothesis dict_ascii : isASCII dict = true.
Hypothesis dict_noSpace : ∀ x, In x (range_string dict) → IsSpace x = false.

Lemma reobfuscated_start (s o : string) :
  obf_rel dict (range_string s) o → reobfuscated dict s o.
Proof. intros H. by apply obf_rel_runes. Qed.

Lemma reobfuscated_trans (s v o : string) :
  reobfuscated dict s v → reobfuscated dict v o → reobfuscated dict s o.
Proof.
  unfold reobfuscated.
  generalize (range_string s) (range_string v) (range_string o).
  intros l1 l2 l3 H. revert l3.
  induction H as [|c x l1 l2 Hcx _ IH]; intros l3 H3; inversion H3 as [|? y ? l3' Hxy H3']; subst;
    constructor; [|by apply IH].
  destruct (IsSpace c) eqn:Hc.
  - subst x. by rewrite Hc in Hxy.
  - by rewrite (dict_noSpace x Hcx) in Hxy.
Qed.

Lemma valTouched_trans (a b c : option value) :
  valTouched dict a b → valTouched dict b c → valTouched dict a c.
Proof.
  intros (s & v & -> & -> & H1) (v' & o & [= <-] & -> & H2).
  exists s, o. repeat split; try done. by eapply reobfuscated_trans.
Qed.

Lemma valPending_refl (a : option value) : valPending dict a a.
Proof. by left. Qed.

Lemma valPending_trans (a b c : option value) :
  valPending dict a b → valPending dict b c → valPending dict a c.
Proof.
  intros [->|H1] [->|H2]; [by left | by right | by right |].
  right. by eapply valTouched_trans.
Qed.

Lemma valDone_pending (a b c : option value) :
  valDone dict a b → valPending dict b c → valDone dict a c.
Proof.
  intros H1 [->|H2]; [done |]. right. destruct H1 as [[Hn ->]|H1].
  - destruct H2 as (s & o & -> & _). by destruct (Hn s).
  - by eapply valTouched_trans.
Qed.

Lemma valPending_done (a b c : option value) :
  valPending dict a b → valDone dict b c → valDone dict a c.
Proof.
  intros [->|H1] H2; [done |]. right. destruct H2 as [[Hn ->]|H2]; [done |].
  by eapply valTouched_trans.
Qed.

Lemma valPending_touched (a b c : option value) :
  valPending dict a b → valTouched dict b c → valTouched dict a c.
Proof. intros [->|H1] H2; [done |]. by eapply valTouched_trans. Qed.

Lemma valTouched_pending (a b c : option value) :
  valTouched dict a b → valPending dict b c → valTouched dict a c.
Proof. intros H1 [->|H2]; [done |]. by eapply valTouched_trans. Qed.

Context (idcols valcols : list string).

Lemma rowPending_refl (r : gmap string value) : rowPending dict valcols r r.
Proof. intros c. destruct (bool_decide _); [apply valPending_refl | done]. Qed.

Lemma rowPending_trans (a b c : gmap string value) :
  rowPending dict valcols a b → rowPending dict valcols b c → rowPending dict valcols a c.
Proof.
  intros H1 H2 x. specialize (H1 x). specialize (H2 x).
  destruct (bool_decide _); [by eapply valPending_trans | congruence].
Qed.

Lemma rowDone_pending (a b c : gmap string value) :
  rowDone dict idcols valcols a b → rowPending dict valcols b c →
  rowDone dict idcols valcols a c.
Proof.
  intros H1 H2 x. specialize (H1 x). specialize (H2 x).
  destruct (bool_decide (x ∈ valcols)); [by eapply valDone_pending |].
  by rewrite H2.
Qed.

Lemma rowVisited_done (r0 s r r' : gmap string value) :
  rowPending dict valcols r0 s → rowPending dict valcols s r →
  rowVisited dict idcols valcols s r r' → rowDone dict idcols valcols r0 r'.
Proof.
  intros H1 H2 H3 x. specialize (H1 x). specialize (H2 x). specialize (H3 x).
  destruct (bool_decide (x ∈ valcols)).
  - destruct H3 as [Hstep Hsame].
    destruct (decide (r !! x = s !! x)) as [Heq|Hne].
    + eapply valPending_done; [exact H1 | by apply Hsame].
    + destruct H2 as [H2|H2]; [done |]. right.
      eapply valPending_touched; [exact H1 |].
      by eapply valTouched_pending.
  - rewrite H2 in H3. rewrite H1 in H3. done.
Qed.

Lemma Forall2_rowPending_refl (l : list (gmap string value)) :
  Forall2 (rowPending dict valcols) l l.
Proof. induction l; constructor; [apply rowPending_refl | done]. Qed.

Lemma Forall2_rowPending_trans (l1 l2 l3 : list (gmap string value)) :
  Forall2 (rowPending dict valcols) l1 l2 → Forall2 (rowPending dict valcols) l2 l3 →
  Forall2 (rowPending dict valcols) l1 l3.
Proof.
  intros H. revert l3. induction H; intros l3 H3; inversion H3; subst; constructor.
  - by eapply rowPending_trans.
  - eauto.
Qed.

Lemma Forall2_rowDone_pending (l1 l2 l3 : list (gmap string value)) :
  Forall2 (rowDone dict idcols valcols) l1 l2 → Forall2 (rowPending dict valcols) l2 l3 →
  Forall2 (rowDone dict idcols valcols) l1 l3.
Proof.
  intros H. revert l3. induction H; intros l3 H3; inversion H3; subst; constructor.
  - by eapply rowDone_pending.
  - eauto.
Qed.

(** One replacement by value. *)
Lemma replaceValue_other (c v o : string) (r : gmap string value) (c' : string) :
  c' ≠ c → replaceValue c v o r !! c' = r !! c'.
Proof.
  intros Hne. unfold replaceValue. destruct (sql_eq _ _); [|done].
  by rewrite lookup_insert_ne.
Qed.

Lemma replaceValue_hit (c v o : string) (r : gmap string value) :
  r !! c = Some (VText v) → replaceValue c v o r !! c = Some (VText o).
Proof.
  intros H. unfold replaceValue, col. rewrite H. simpl.
  rewrite String.eqb_refl. apply lookup_insert_eq.
Qed.

Lemma replaceValue_miss (c v o : string) (r : gmap string value) :
  r !! c ≠ Some (VText v) → replaceValue c v o r = r.
Proof.
  intros H. unfold replaceValue, col.
  destruct (r !! c) as [[|z|x|b]|]; simpl; try done.
  destruct (String.eqb_spec x v) as [->|Hne]; done.
Qed.

Lemma replaceValue_stepOn (c v o : string) (s : gmap string value) :
  obf_rel dict (range_string v) o → sql_text (col s c) = Some v →
  stepOn dict c s (replaceValue c v o).
Proof.
  intros Hrel Hs. split; [|split].
  - intros x c' Hne. by apply replaceValue_other.
  - intros x. destruct (decide (x !! c = Some (VText v))) as [Hx|Hx].
    + right. exists v, o. split; [done |]. split; [by apply replaceValue_hit |].
      by apply reobfuscated_start.
    + left. by rewrite replaceValue_miss.
  - intros x Hx. unfold col in Hs.
    destruct (s !! c) as [[|z|y|b]|] eqn:Hsc; simpl in Hs; try done.
    + left. split; [done |]. rewrite replaceValue_miss; [done |]. by rewrite Hx.
    + injection Hs as ->. right. exists v, o. split; [done |].
      split; [by apply replaceValue_hit |]. by apply reobfuscated_start.
    + left. split; [done |]. rewrite replaceValue_miss; [done |]. by rewrite Hx.
Qed.

Lemma id_stepOn (c : string) (s : gmap string value) :
  sql_text (col s c) = None → stepOn dict c s (fun x => x).
Proof.
  intros Hs. split; [done |]. split; [intros x; apply valPending_refl |].
  intros x Hx. left. split; [|done]. intros y Hy. unfold col in Hs.
  by rewrite Hy in Hs.
Qed.

Lemma stepOn_rowPending (c : string) (s : gmap string value)
  (f : gmap string value → gmap string value) (x : gmap string value) :
  c ∈ valcols → stepOn dict c s f → rowPending dict valcols x (f x).
Proof.
  intros Hc (Hother & Hstep & _) c'. destruct (decide (c' = c)) as [->|Hne].
  - rewrite bool_decide_eq_true_2 by done. apply Hstep.
  - rewrite (Hother x c' Hne). destruct (bool_decide _); [apply valPending_refl | done].
Qed.

End Touch.

Section KeyedScan.
Context {K : Type} (key : gmap string value → option K) (lt : K → K → Prop).
Context (db : Anonymiser) (t : string) (sel : list string) (pq : K → query)
  (where_ : K → list cond).
Context (dict : string) (idcols valcols : list string).
Context (Pre : gmap string value → Prop).
Context (visit : list value → bool * (K * Z) → M (bool * (K * Z))).
Hypothesis dict_noSpace : ∀ x, In x (range_string dict) → IsSpace x = false.
Hypothesis lt_trans : ∀ a b c, lt a b → lt b c → lt a c.
Hypothesis lt_irrefl : ∀ a, ¬ lt a a.
Hypothesis pq_eq : ∀ k, pq k = Query t sel (where_ k) (Some pageSize).
Hypothesis where_spec :
  ∀ k r k', key r = Some k' → (matches (where_ k) r = true ↔ lt k k').
Hypothesis key_stable :
  ∀ r r', (∀ c, c ∉ valcols → c ∉ idcols → r' !! c = r !! c) → key r' = key r.
Hypothesis Pre_stable : ∀ r r', Pre r → rowPending dict valcols r r' → Pre r'.
Hypothesis visit_spec :
  ∀ (st : St) (seen : list (gmap string value)) (r : gmap string value)
    (rest : list (gmap string value)) (s : gmap string value)
    (b : bool) (last : K) (total : Z) (k : K),
    tableOf st (workPath db) t = Some (seen ++ r :: rest)%list → alive st →
    Pre s → key s = Some k → rowPending dict valcols s r →
    Forall (keyUpTo key lt last) seen → lt last k → ascendingKeys key lt k rest →
    ∃ st' seen' r' rest',
      visit (map (col s) sel) (b, (last, total)) st
      = (Ok (true, (k, (total + 1)%Z)), st')
      ∧ tableOf st' (workPath db) t = Some (seen' ++ r' :: rest')%list
      ∧ alive st'
      ∧ Forall2 (rowPending dict valcols) seen seen'
      ∧ rowVisited dict idcols valcols s r r'
      ∧ Forall2 (rowPending dict valcols) rest rest'.

Lemma rowPending_key (r r' : gmap string value) :
  rowPending dict valcols r r' → key r' = key r.
Proof.
  intros H. apply key_stable. intros c Hc _. specialize (H c).
  by rewrite bool_decide_eq_false_2 in H.
Qed.

Lemma rowVisited_key (s r r' : gmap string value) :
  rowVisited dict idcols valcols s r r' → key r' = key r.
Proof.
  intros H. apply key_stable. intros c Hc Hc'. specialize (H c).
  by rewrite !bool_decide_eq_false_2 in H.
Qed.

Lemma keyUpTo_mono (lo hi : K) (r : gmap string value) :
  lt lo hi → keyUpTo key lt lo r → keyUpTo key lt hi r.
Proof.
  intros Hlt (k & Hk & Hle). exists k. split; [done |]. right.
  destruct Hle as [->|Hle]; [done |]. by eapply lt_trans.
Qed.

Lemma keyUpTo_stable (hi : K) (l l' : list (gmap string value)) :
  Forall2 (rowPending dict valcols) l l' →
  Forall (keyUpTo key lt hi) l → Forall (keyUpTo key lt hi) l'.
Proof.
  induction 1 as [|r r' l l' Hr _ IH]; intros H; [constructor |].
  apply Forall_cons in H as [(k & Hk & Hle) H]. constructor; [|by apply IH].
  exists k. split; [|done]. by rewrite (rowPending_key r r').
Qed.

Lemma ascendingKeys_stable (l l' : list (gmap string value)) :
  Forall2 (rowPending dict valcols) l l' →
  ∀ lo, ascendingKeys key lt lo l → ascendingKeys key lt lo l'.
Proof.
  induction 1 as [|r r' l l' Hr _ IH]; intros lo H; [done |].
  destruct H as (k & Hk & Hlt & H). exists k.
  split; [by rewrite (rowPending_key r r') |]. split; [done |]. by apply IH.
Qed.

Lemma ascendingKeys_above (lo : K) (rows : list (gmap string value)) :
  ascendingKeys key lt lo rows →
  Forall (fun r => ∃ k, key r = Some k ∧ lt lo k) rows.
Proof.
  revert lo. induction rows as [|r rows IH]; intros lo H; [constructor |].
  destruct H as (k & Hk & Hlt & Hrest). constructor; [eauto |].
  eapply Forall_impl; [by apply IH |].
  intros r' (k' & Hk' & Hlt'). exists k'. split; [done |]. by eapply lt_trans.
Qed.

(** The rows of one page, visited in storage order. *)
Lemma keyed_block (blockS : list (gmap string value)) :
  ∀ (block0 block seen0 seen post0 post : list (gmap string value))
    (b : bool) (last : K) (total : Z) (st : St),
    tableOf st (workPath db) t = Some (seen ++ block ++ post)%list →
    Forall2 (rowDone dict idcols valcols) seen0 seen →
    Forall2 (rowPending dict valcols) block0 blockS →
    Forall2 (rowPending dict valcols) blockS block →
    Forall2 (rowPending dict valcols) post0 post →
    Forall Pre blockS →
    Forall (keyUpTo key lt last) seen → ascendingKeys key lt last (block ++ post) →
    alive st →
    ∃ b' last' st' seen' block' post',
      forRows (map (fun s => map (col s) sel) blockS) visit (b, (last, total)) st
      = (Ok (b', (last', (total + Z.of_nat (length blockS))%Z)), st')
      ∧ tableOf st' (workPath db) t = Some (seen' ++ block' ++ post')%list
      ∧ Forall2 (rowDone dict idcols valcols) seen0 seen'
      ∧ Forall2 (rowDone dict idcols valcols) block0 block'
      ∧ Forall2 (rowPending dict valcols) post0 post'
      ∧ Forall (keyUpTo key lt last') (seen' ++ block')
      ∧ ascendingKeys key lt last' post' ∧ alive st'
      ∧ b' = (if blockS is [] then b else true).
Proof.
  induction blockS as [|s blockS IH];
    intros block0 block seen0 seen post0 post b last total st
           Ht Hseen Hb0 Hb Hpost HPre Hup Hasc Hst.
  - inversion Hb0; subst. inversion Hb; subst.
    exists b, last, st, seen, [], post. simpl in *. rewrite Z.add_0_r.
    repeat split; try done. by rewrite app_nil_r.
  - inversion Hb0 as [|r0 ? block0' ? Hr0 Hb0']; subst.
    inversion Hb as [|? r ? block' Hr Hb']; subst.
    apply Forall_cons in HPre as [HPs HPre].
    destruct Hasc as (k & Hk & Hlt & Hrest).
    assert (Hks : key s = Some k) by (by rewrite <- (rowPending_key s r)).
    destruct (visit_spec st seen r (block' ++ post) s b last total k
                Ht Hst HPs Hks Hr Hup Hlt Hrest)
      as (st1 & seen1 & r1 & rest1 & Hvisit & Ht1 & Hst1 & Hseen1 & Hr1 & Hrest1).
    apply Forall2_app_inv_l in Hrest1 as (block1 & post1 & Hblock1 & Hpost1 & ->).
    assert (Ht1' : tableOf st1 (workPath db) t
                   = Some ((seen1 ++ [r1]) ++ block1 ++ post1)%list)
      by (by rewrite <- app_assoc).
    assert (Hseen' : Forall2 (rowDone dict idcols valcols) (seen0 ++ [r0]) (seen1 ++ [r1])).
    { apply Forall2_app.
      - by eapply Forall2_rowDone_pending.
      - constructor; [|constructor]. by eapply rowVisited_done. }
    assert (Hup1 : Forall (keyUpTo key lt k) (seen1 ++ [r1])).
    { apply Forall_app. split.
      - eapply keyUpTo_stable; [exact Hseen1 |].
        eapply Forall_impl; [exact Hup |]. intros x. by apply keyUpTo_mono.
      - apply Forall_singleton. exists k. split; [|by left].
        by rewrite (rowVisited_key s r r1). }
    assert (Hasc1 : ascendingKeys key lt k (block1 ++ post1)).
    { eapply ascendingKeys_stable; [|exact Hrest]. by apply Forall2_app. }
    destruct (IH block0' block1 (seen0 ++ [r0])%list (seen1 ++ [r1])%list post0 post1
                true k (total + 1)%Z st1 Ht1' Hseen' Hb0'
                (Forall2_rowPending_trans dict dict_noSpace valcols _ _ _ Hb' Hblock1)
                (Forall2_rowPending_trans dict dict_noSpace valcols _ _ _ Hpost Hpost1)
                HPre Hup1 Hasc1 Hst1)
      as (b' & last' & st' & seen' & block2 & post2
          & Hrun & Ht' & Hs' & Hb2 & Hp2 & Hup' & Hasc' & Hst' & Hb'').
    apply Forall2_app_inv_l in Hs' as (seen2 & r2 & Hs2 & Hr2 & ->).
    exists true, last', st', seen2, (r2 ++ block2)%list, post2.
    split; [|split; [|split; [|split; [|split; [|split; [|split; [|split]]]]]]]; try done.
    + rewrite map_cons. cbn [forRows]. unfold bind. rewrite Hvisit, Hrun.
      assert (b' = true) as -> by (rewrite Hb''; by destruct blockS).
      replace (total + Z.of_nat (length (s :: blockS)))%Z
        with (total + 1 + Z.of_nat (length blockS))%Z by (cbn [length]; lia).
      done.
    + by rewrite <- !app_assoc in *.
    + inversion Hr2 as [|? r2' ? l2 Hr2' Hnil]; subst. inversion Hnil; subst.
      by constructor.
    + by rewrite <- !app_assoc in *.
Qed.

(** The rows a page selects. *)
Lemma keyed_select (seen post : list (gmap string value)) (last : K) :
  Forall (keyUpTo key lt last) seen → ascendingKeys key lt last post →
  select_rows (pq last) (seen ++ post)
  = map (fun r => map (col r) sel) (take pageSize post).
Proof.
  intros Hup Hasc.
  rewrite pq_eq. unfold select_rows. cbn [q_select q_limit q_where take_limit].
  f_equal. f_equal. rewrite filter_app.
  rewrite filter_none, filter_all; [done | |].
  - eapply Forall_impl; [by apply ascendingKeys_above |].
    intros r (k & Hk & Hlt). by apply (where_spec last r k).
  - eapply Forall_impl; [exact Hup |].
    intros r (k & Hk & Hle) Hlt%(where_spec last r k Hk).
    destruct Hle as [->|Hle]; [by apply (lt_irrefl last) |].
    apply (lt_irrefl last). by eapply lt_trans.
Qed.

(** One page: the next rows above the cursor, at most a page of them. *)
Lemma keyed_page (seen0 seen post0 post : list (gmap string value))
  (last : K) (total : Z) (st : St) :
  tableOf st (workPath db) t = Some (seen ++ post)%list →
  Forall2 (rowDone dict idcols valcols) seen0 seen →
  Forall2 (rowPending dict valcols) post0 post →
  Forall Pre (take pageSize post0) →
  Forall (keyUpTo key lt last) seen → ascendingKeys key lt last post → alive st →
  ∃ b' last' st' seen' post',
    keyedPage db pq visit (last, total) st
    = (Ok (b', (last', (total + Z.of_nat (length (take pageSize post)))%Z)), st')
    ∧ tableOf st' (workPath db) t = Some (seen' ++ post')%list
    ∧ Forall2 (rowDone dict idcols valcols) (seen0 ++ take pageSize post0) seen'
    ∧ Forall2 (rowPending dict valcols) (drop pageSize post0) post'
    ∧ Forall (keyUpTo key lt last') seen'
    ∧ ascendingKeys key lt last' post' ∧ alive st'
    ∧ b' = (if post is [] then false else true).
Proof.
  intros Ht Hseen Hpost HPre Hup Hasc Hst.
  pose proof (keyed_select seen post last Hup Hasc) as Hsel.
  assert (Ht' : tableOf st (workPath db) t
                = Some (seen ++ take pageSize post ++ drop pageSize post)%list)
    by (by rewrite take_drop).
  assert (Hasc' : ascendingKeys key lt last (take pageSize post ++ drop pageSize post))
    by (by rewrite take_drop).
  assert (HPreS : Forall Pre (take pageSize post)).
  { pose proof (Forall2_take _ _ _ pageSize Hpost) as Htk.
    clear -Htk HPre Pre_stable. induction Htk; [constructor |].
    apply Forall_cons in HPre as [Hx HPre].
    constructor; [by eapply Pre_stable | by apply IHHtk]. }
  destruct (keyed_block (take pageSize post) (take pageSize post0) (take pageSize post)
              seen0 seen (drop pageSize post0) (drop pageSize post) false last total st
              Ht' Hseen (Forall2_take _ _ _ _ Hpost)
              (Forall2_rowPending_refl dict valcols _)
              (Forall2_drop _ _ _ _ Hpost) HPreS Hup Hasc' Hst)
    as (b' & last' & st' & seen' & block' & post' & Hrun & Htab & Hs' & Hb' & Hp'
        & Hup' & Hasc2 & Hst' & Hbb).
  exists b', last', st', (seen' ++ block')%list, post'.
  split; [|repeat split; try done].
  - unfold keyedPage, WithTxn, queryFunc, bind. cbn [fst].
    rewrite pq_eq. rewrite <- (pq_eq last).
    rewrite (queryRows_ok db st _ (seen ++ post)) by (by rewrite pq_eq).
    rewrite Hsel. cbv beta iota. by rewrite Hrun.
  - by rewrite <- app_assoc.
  - by apply Forall2_app.
  - rewrite Hbb. by destruct post.
Qed.

(** The whole scan. *)
Lemma keyed_loop (fuel : nat) :
  ∀ (seen0 seen post0 post : list (gmap string value)) (last : K) (total : Z) (st : St),
    (length post < fuel)%nat →
    tableOf st (workPath db) t = Some (seen ++ post)%list →
    Forall2 (rowDone dict idcols valcols) seen0 seen →
    Forall2 (rowPending dict valcols) post0 post →
    Forall Pre post0 →
    Forall (keyUpTo key lt last) seen → ascendingKeys key lt last post → alive st →
    ∃ last' st' rows',
      pageLoop fuel (keyedPage db pq visit) (last, total) st
      = (Ok (last', (total + Z.of_nat (length post))%Z), st')
      ∧ tableOf st' (workPath db) t = Some rows'
      ∧ Forall2 (rowDone dict idcols valcols) (seen0 ++ post0) rows'
      ∧ alive st'.
Proof.
  induction fuel as [|fuel IH];
    intros seen0 seen post0 post last total st Hfuel Ht Hseen Hpost HPre Hup Hasc Hst;
    [lia |].
  destruct (keyed_page seen0 seen post0 post last total st Ht Hseen Hpost
              (Forall_take _ _ _ HPre) Hup Hasc Hst)
    as (b' & last' & st' & seen' & post' & Hrun & Htab & Hs' & Hp' & Hup' & Hasc' & Hst' & Hb').
  cbn [pageLoop]. unfold bind. rewrite Hrun. cbn [fst snd].
  destruct post as [|r post].
  - subst b'. inversion Hpost; subst. rewrite drop_nil in Hp'. inversion Hp'; subst.
    rewrite app_nil_r in Htab. rewrite take_nil in Hs'.
    exists last', st', seen'. rewrite take_nil.
    split; [done |]. split; [done |]. split; [done | done].
  - subst b'.
    assert (Hlen : (length post' < fuel)%nat).
    { apply Forall2_length in Hp'. apply Forall2_length in Hpost.
      rewrite <- Hp', length_drop, Hpost. unfold pageSize. simpl in *. lia. }
    assert (HPre' : Forall Pre (drop pageSize post0)) by (by apply Forall_drop).
    destruct (IH (seen0 ++ take pageSize post0)%list seen' (drop pageSize post0) post' last'
                (total + Z.of_nat (length (take pageSize (r :: post))))%Z st'
                Hlen Htab Hs' Hp' HPre' Hup' Hasc' Hst')
      as (last2 & st2 & rows2 & Hloop & Htab2 & Hdone2 & Hst2).
    exists last2, st2, rows2. split; [|split; [|split]]; try done.
    + rewrite Hloop.
      assert (Hl : (length (take pageSize (r :: post)) + length post'
                    = length (r :: post))%nat).
      { apply Forall2_length in Hp'. apply Forall2_length in Hpost.
        rewrite <- Hp', length_drop, length_take, Hpost. lia. }
      by rewrite <- Z.add_assoc, <- Nat2Z.inj_add, Hl.
    + by rewrite <- app_assoc, take_drop in Hdone2.
Qed.

Lemma keyed_scan (fuel : nat) (lo : K) (st : St) (rows : list (gmap string value)) :
  tableOf st (workPath db) t = Some rows →
  ascendingKeys key lt lo rows → Forall Pre rows → alive st → (length rows < fuel)%nat →
  ∃ last st' rows',
    pageLoop fuel (keyedPage db pq visit) (lo, 0%Z) st
    = (Ok (last, Z.of_nat (length rows)), st')
    ∧ tableOf st' (workPath db) t = Some rows'
    ∧ Forall2 (rowDone dict idcols valcols) rows rows'
    ∧ alive st'.
Proof.
  intros Ht Hasc HPre Hst Hfuel.
  apply (keyed_loop fuel [] [] rows rows lo 0%Z st); try done;
    first [apply Forall2_rowPending_refl | constructor].
Qed.

End KeyedScan.

(** *** The pieces of a visit *)

Lemma bind_ret {A B} (a : A) (f : A → M B) (st : St) : (x <- ret a ;; f x) st = f a st.
Proof. reflexivity. Qed.

Lemma bind_ok {A B} (m : M A) (f : A → M B) (st st' : St) (a : A) :
  m st = (Ok a, st') → (x <- m ;; f x) st = f a st'.
Proof. intros H. unfold bind. by rewrite H. Qed.

Lemma obfuscate_three {A} (c1 c2 c3 : string) (v1 v2 v3 : value)
  (k : gmap string setexpr → M A) (st : St) :
  (set <- obfuscateNullString ∅ c1 (scan_NullString v1) ;;
   set <- obfuscateNullString set c2 (scan_NullString v2) ;;
   set <- obfuscateNullString set c3 (scan_NullString v3) ;;
   k set) st
  = (set <- obfuscateColumns ∅ [c1; c2; c3] [v1; v2; v3] ;; k set) st.
Proof.
  cbn [obfuscateColumns]. unfold bind.
  destruct (obfuscateNullString ∅ c1 _ st) as [[s1|?|?|] st1]; try done.
  destruct (obfuscateNullString s1 c2 _ st1) as [[s2|?|?|] st2]; try done.
  by destruct (obfuscateNullString s2 c3 _ st2) as [[s3|?|?|] st3].
Qed.

Lemma apply_set_lookup (set : gmap string setexpr) (r : gmap string value) (c : string) :
  apply_set set r !! c
  = match set !! c with
    | Some e => Some (eval_set r e)
    | None => r !! c
    end.
Proof.
  unfold apply_set. destruct (set !! c) as [e|] eqn:H.
  - apply lookup_union_Some_l. by rewrite lookup_fmap, H.
  - apply lookup_union_r. by rewrite lookup_fmap, H.
Qed.

(** The patch by id of the visited row. *)
Lemma rowVisited_patch (dict : string) (idcols : list string)
  (s r : gmap string value) (set : gmap string setexpr) :
  recordFor idcols s set → (∀ c, c ∈ idcols → r !! c = s !! c) →
  rowVisited dict idcols [] s r (apply_set set r).
Proof.
  intros Hset Hsame c. rewrite bool_decide_eq_false_2 by apply not_elem_of_nil.
  destruct (Hset c) as [Hout Hin]. rewrite apply_set_lookup.
  destruct (bool_decide_reflect (c ∈ idcols)) as [Hc|Hc].
  - specialize (Hin Hc). unfold valObf. fold (col s c).
    destruct (scan_NullString (col s c)).
    + destruct Hin as (o & -> & Hrel). simpl. eauto.
    + rewrite Hin. by apply Hsame.
  - by rewrite (Hout Hc).
Qed.

Lemma rowVisited_same (dict : string) (s r : gmap string value) :
  rowVisited dict [] [] s r r.
Proof. intros c. by rewrite !bool_decide_eq_false_2 by apply not_elem_of_nil. Qed.

(** One more column replaced by value. *)
Lemma rowVisited_step (dict : string) (idcols cs : list string)
  (s r r' : gmap string value) (c : string)
  (f : gmap string value → gmap string value) :
  rowVisited dict idcols cs s r r' → c ∉ cs → c ∉ idcols → stepOn dict c s f →
  rowVisited dict idcols (c :: cs) s r (f r').
Proof.
  intros H Hc Hc' (Hother & Hstep & Hdone) x. specialize (H x).
  destruct (decide (x = c)) as [->|Hne].
  - rewrite bool_decide_eq_true_2 by left.
    rewrite !bool_decide_eq_false_2 in H by done. rewrite <- H.
    split; [apply Hstep | apply Hdone].
  - rewrite (Hother r' x Hne).
    replace (bool_decide (x ∈ c :: cs)) with (bool_decide (x ∈ cs)); [done |].
    apply bool_decide_ext. rewrite elem_of_cons. tauto.
Qed.

Lemma rowVisited_perm (dict : string) (idcols l l' : list string)
  (s r r' : gmap string value) :
  (∀ c, c ∈ l ↔ c ∈ l') → rowVisited dict idcols l s r r' →
  rowVisited dict idcols l' s r r'.
Proof.
  intros Hp H c. specialize (H c). by rewrite (bool_decide_ext _ _ (Hp c)) in H.
Qed.

Lemma Forall2_map_rowPending (dict : string) (valcols : list string)
  (f : gmap string value → gmap string value) (l : list (gmap string value)) :
  (∀ x, rowPending dict valcols x (f x)) →
  Forall2 (rowPending dict valcols) l (map f l).
Proof. intros Hf. induction l; simpl; constructor; [apply Hf | done]. Qed.

Lemma obfuscateString_rel_dict (dict s : string) (st : St) :
  dict ≠ "" → alive st →
  ∃ o st',
    obfuscateString s dict st = (Ok o, st')
    ∧ files st' = files st ∧ rnd st' = rnd st
    ∧ obf_rel dict (range_string s) o.
Proof.
  intros Hd Hst. unfold obfuscateString.
  destruct (obfuscateLoop_total dict (range_string s) Hd "" st Hst)
    as (o & st1 & Ho & _).
  exists o, st1. split; [done |].
  pose proof (obfuscateLoop_state _ _ _ _ _ _ Ho) as ->. simpl.
  split; [done |]. split; [done |].
  by apply obfuscateLoop_inv in Ho as (o' & -> & Hrel).
Qed.

(** One call of [anonymiseText] with the random source available. *)
Lemma anonymiseText_step (db : Anonymiser) (t c v : string) (st : St)
  (rows : list (gmap string value)) :
  tableOf st (workPath db) t = Some rows → alive st →
  ∃ o st',
    anonymiseText db t c v st = (Ok tt, st')
    ∧ tableOf st' (workPath db) t = Some (map (replaceValue c v o) rows)
    ∧ alive st' ∧ obf_rel letters (range_string v) o.
Proof.
  intros Ht Hst.
  destruct (obfuscateString_rel_dict letters v st ltac:(done) Hst)
    as (o & st1 & Ho & Hf & Hr & Hrel).
  assert (Ht1 : tableOf st1 (workPath db) t = Some rows)
    by (by rewrite (tableOf_files st st1)).
  exists o. eexists. split; [|split; [|split]].
  - unfold anonymiseText. rewrite (bind_ok _ _ _ _ _ Ho). unfold wrapErr.
    by rewrite (exec_Update db st1 _ _ _ rows Ht1).
  - erewrite tableOf_putTable by done. by rewrite update_by_value.
  - by apply (alive_rnd st).
  - done.
Qed.

(** One call of [anonymiseFingerprint] with the random source available. *)
Lemma anonymiseFingerprint_step (db : Anonymiser) (t c v : string) (st : St)
  (rows : list (gmap string value)) :
  tableOf st (workPath db) t = Some rows → alive st →
  ∃ o st',
    anonymiseFingerprint db t c v st = (Ok tt, st')
    ∧ tableOf st' (workPath db) t = Some (map (replaceValue c v o) rows)
    ∧ alive st' ∧ obf_rel hex (range_string v) o.
Proof.
  intros Ht Hst.
  destruct (obfuscateString_rel_dict hex v st ltac:(done) Hst)
    as (o & st1 & Ho & Hf & Hr & Hrel).
  assert (Ht1 : tableOf st1 (workPath db) t = Some rows)
    by (by rewrite (tableOf_files st st1)).
  exists o. eexists. split; [|split; [|split]].
  - unfold anonymiseFingerprint. rewrite (bind_ok _ _ _ _ _ Ho). unfold wrapErr.
    by rewrite (exec_Update db st1 _ _ _ rows Ht1).
  - erewrite tableOf_putTable by done. by rewrite update_by_value.
  - by apply (alive_rnd st).
  - done.
Qed.

(** [if v.Valid { anonymiseText(table, c, v.String) }] for the row read as [s]. *)
Lemma anonymiseText_valid (db : Anonymiser) (t c : string) (s : gmap string value)
  (st : St) (rows : list (gmap string value)) :
  tableOf st (workPath db) t = Some rows → alive st →
  ∃ st' f,
    match scan_NullString (col s c) with
    | Some v => anonymiseText db t c v
    | None => ret tt
    end st = (Ok tt, st')
    ∧ tableOf st' (workPath db) t = Some (map f rows)
    ∧ alive st' ∧ stepOn letters c s f.
Proof.
  intros Ht Hst. destruct (scan_NullString (col s c)) as [v|] eqn:Hs.
  - destruct (anonymiseText_step db t c v st rows Ht Hst) as (o & st' & Hrun & Ht' & Hst' & Hrel).
    exists st', (replaceValue c v o). repeat split; try done;
      by apply (replaceValue_stepOn letters isASCII_letters c v o s).
  - exists st, (fun x => x). split; [done |]. split; [by rewrite map_id |].
    split; [done |]. by apply id_stepOn.
Qed.

(** *** Keys of the scans on [id] *)

Lemma idKey_Some (r : gmap string value) (z : Z) :
  idKey r = Some z ↔ col r idColumn = VInt z.
Proof. unfold idKey. destruct (col r idColumn); split; intros; try done; congruence. Qed.

Lemma ascendingIDs_keys (rows : list (gmap string value)) :
  ∀ lo, ascendingIDs lo rows ↔ ascendingKeys idKey Z.lt lo rows.
Proof.
  induction rows as [|r rows IH]; intros lo; simpl; [done |].
  split; intros (z & Hz & Hlt & H); exists z;
    (split; [by apply idKey_Some |]); (split; [done |]); by apply IH.
Qed.

Lemma idUpTo_keys (hi : Z) (r : gmap string value) :
  keyUpTo idKey Z.lt hi r → idUpTo hi r.
Proof.
  intros (k & Hk%idKey_Some & Hle). exists k. split; [done |].
  destruct Hle as [->|Hle]; lia.
Qed.

Lemma idWhere_spec (k : Z) (r : gmap string value) (k' : Z) :
  idKey r = Some k' → (matches [Gt idColumn (VInt k)] r = true ↔ (k < k')%Z).
Proof.
  intros Hk%idKey_Some. unfold matches. simpl. rewrite Hk. simpl.
  rewrite andb_true_r. apply Z.ltb_lt.
Qed.

Lemma idKey_stable (idcols valcols : list string) :
  idColumn ∉ idcols → idColumn ∉ valcols →
  ∀ r r' : gmap string value,
    (∀ c, c ∉ valcols → c ∉ idcols → r' !! c = r !! c) → idKey r' = idKey r.
Proof. intros H1 H2 r r' H. unfold idKey, col. by rewrite (H idColumn). Qed.

Ltac listed := apply (bool_decide_unpack _); vm_compute; exact Logic.I.

(** The update by id of the visited row, for a scan keyed on [id]. *)
Lemma updateByID_row (db : Anonymiser) (t : string) (set : gmap string setexpr)
  (st : St) (seen : list (gmap string value)) (r : gmap string value)
  (rest : list (gmap string value)) (last k : Z) :
  tableOf st (workPath db) t = Some (seen ++ r :: rest)%list →
  Forall (keyUpTo idKey Z.lt last) seen → (last < k)%Z → col r idColumn = VInt k →
  ascendingKeys idKey Z.lt k rest →
  ∃ st', updateByID db t set k st = (Ok tt, st')
         ∧ tableOf st' (workPath db) t = Some (seen ++ apply_set set r :: rest)%list
         ∧ rnd st' = rnd st.
Proof.
  intros Ht Hup Hlt Hr Hasc. unfold updateByID.
  destruct (decide (set = ∅)) as [->|Hne].
  - exists st. by rewrite apply_set_empty.
  - unfold wrapErr. rewrite (exec_Update db st _ _ _ _ Ht).
    eexists. split; [done |]. split; [|done].
    erewrite tableOf_putTable by done.
    rewrite (update_one_row set k seen r rest last); try done.
    + eapply Forall_impl; [exact Hup |]. apply idUpTo_keys.
    + by apply ascendingIDs_keys.
Qed.

(** *** Scenes *)

Lemma anonymiseScenes_eq (fuel : nat) (db : Anonymiser) :
  anonymiseScenes fuel db
  = (_ <- logger_Infof "Anonymising scenes" ;;
     _ <- pageLoop fuel
            (keyedPage db
               (idPageQuery sceneTable ["title"; "details"; "url"; "code"; "director"])
               (sceneVisit db)) (0%Z, 0%Z) ;;
     ret tt).
Proof. reflexivity. Qed.

Lemma sceneVisit_spec (db : Anonymiser) (st : St) (seen : list (gmap string value))
  (r : gmap string value) (rest : list (gmap string value)) (s : gmap string value)
  (b : bool) (last total k : Z) :
  tableOf st (workPath db) sceneTable = Some (seen ++ r :: rest)%list → alive st →
  True → idKey s = Some k → rowPending letters ["code"; "director"] s r →
  Forall (keyUpTo idKey Z.lt last) seen → (last < k)%Z →
  ascendingKeys idKey Z.lt k rest →
  ∃ st' seen' r' rest',
    sceneVisit db
      (map (col s) (idColumn :: ["title"; "details"; "url"; "code"; "director"]))
      (b, (last, total)) st
    = (Ok (true, (k, (total + 1)%Z)), st')
    ∧ tableOf st' (workPath db) sceneTable = Some (seen' ++ r' :: rest')%list
    ∧ alive st'
    ∧ Forall2 (rowPending letters ["code"; "director"]) seen seen'
    ∧ rowVisited letters ["title"; "details"; "url"] ["code"; "director"] s r r'
    ∧ Forall2 (rowPending letters ["code"; "director"]) rest rest'.
Proof.
  intros Ht Hst _ Hk Hsr Hup Hlt Hasc.
  apply idKey_Some in Hk.
  assert (Hsame : ∀ c, c ∈ ["title"; "details"; "url"] → r !! c = s !! c).
  { intros c Hc. specialize (Hsr c). rewrite bool_decide_eq_false_2 in Hsr; [done |].
    repeat (apply elem_of_cons in Hc as [->|Hc]; [listed |]). by apply elem_of_nil in Hc. }
  assert (Hrid : col r idColumn = VInt k).
  { specialize (Hsr idColumn). rewrite bool_decide_eq_false_2 in Hsr by listed.
    unfold col. by rewrite Hsr. }
  destruct (obfuscateColumns_recordFor s ["title"; "details"; "url"] st Hst)
    as (set & st1 & Hcols & Hf1 & Hr1 & Hset).
  assert (Ht1 : tableOf st1 (workPath db) sceneTable = Some (seen ++ r :: rest)%list)
    by (by rewrite (tableOf_files st st1)).
  destruct (updateByID_row db sceneTable set st1 seen r rest last k Ht1 Hup Hlt Hrid Hasc)
    as (st2 & Hupd & Ht2 & Hr2).
  assert (Hst2 : alive st2) by (apply (alive_rnd st); [congruence | done]).
  destruct (anonymiseText_valid db sceneTable "code" s st2 _ Ht2 Hst2)
    as (st3 & f1 & Hcode & Ht3 & Hst3 & Hstep1).
  destruct (anonymiseText_valid db sceneTable "director" s st3 _ Ht3 Hst3)
    as (st4 & f2 & Hdir & Ht4 & Hst4 & Hstep2).
  destruct (logProgress_ok (total + 1) "scenes" st4) as (st5 & Hlog & Hf5 & Hr5).
  assert (Hf : ∀ l, Forall2 (rowPending letters ["code"; "director"]) l (map f2 (map f1 l))).
  { intros l. eapply (Forall2_rowPending_trans letters noSpace_letters).
    - apply Forall2_map_rowPending. intros x.
      eapply stepOn_rowPending; [|exact Hstep1]. listed.
    - apply Forall2_map_rowPending. intros x.
      eapply stepOn_rowPending; [|exact Hstep2]. listed. }
  exists st5, (map f2 (map f1 seen)), (f2 (f1 (apply_set set r))), (map f2 (map f1 rest)).
  split; [|split; [|split; [|split; [|split]]]].
  - unfold sceneVisit. cbn [map]. cbv zeta. rewrite Hk. cbn [scan_int lift].
    rewrite bind_ret. rewrite obfuscate_three.
    cbn [map] in Hcols. rewrite (bind_ok _ _ _ _ _ Hcols).
    rewrite (bind_ok _ _ _ _ _ Hupd).
    rewrite (bind_ok _ _ _ _ _ Hcode).
    rewrite (bind_ok _ _ _ _ _ Hdir).
    cbn [snd]. by rewrite (bind_ok _ _ _ _ _ Hlog).
  - rewrite (tableOf_files st4 st5) by done. rewrite Ht4.
    by rewrite !map_app, !map_cons.
  - by apply (alive_rnd st4).
  - apply Hf.
  - apply (rowVisited_perm letters _ ["director"; "code"]).
    { intros c. rewrite !elem_of_cons, !elem_of_nil. tauto. }
    apply rowVisited_step; [| listed | listed | exact Hstep2].
    apply rowVisited_step; [| apply not_elem_of_nil | listed | exact Hstep1].
    by apply rowVisited_patch.
  - apply Hf.
Qed.

(** X12: the scene stage, run on a table whose rows hold positive integer
    ids in strictly ascending storage order, with the random source
    available and budget for its pages: it returns without error, and
    every row ends with title, details and url obfuscated (NULL left NULL),
    with code and director replaced if they held a text (the replacement
    has the whitespace of the original where it stood and alphanumeric
    symbols elsewhere), and with every other column as it was. *)
Theorem scene_scan_obfuscates_every_row (fuel : nat) (db : Anonymiser) (st : St)
  (rows : list (gmap string value)) :
  tableOf st (workPath db) sceneTable = Some rows →
  ascendingIDs 0 rows → alive st → (length rows < fuel)%nat →
  ∃ st' rows',
    anonymiseScenes fuel db st = (Ok tt, st')
    ∧ tableOf st' (workPath db) sceneTable = Some rows'
    ∧ Forall2 (rowDone letters ["title"; "details"; "url"] ["code"; "director"])
              rows rows'.
Proof.
  intros Ht Hasc Hst Hfuel.
  set (st0 := (logger_Infof "Anonymising scenes" st).2).
  destruct (keyed_scan idKey Z.lt db sceneTable
              (idColumn :: ["title"; "details"; "url"; "code"; "director"])
              (idPageQuery sceneTable ["title"; "details"; "url"; "code"; "director"])
              (fun k => [Gt idColumn (VInt k)]) letters
              ["title"; "details"; "url"] ["code"; "director"] (fun _ => True)
              (sceneVisit db) noSpace_letters Z.lt_trans Z.lt_irrefl
              ltac:(done) idWhere_spec
              (idKey_stable ["title"; "details"; "url"] ["code"; "director"]
                 ltac:(listed) ltac:(listed))
              ltac:(done) (sceneVisit_spec db) fuel 0%Z st0 rows)
    as (last & st' & rows' & Hrun & Ht' & Hdone & _); try done.
  - by apply ascendingIDs_keys.
  - by apply Forall_true.
  - exists st', rows'. split; [|done].
    rewrite anonymiseScenes_eq. unfold bind at 1. cbn [logger_Infof].
    fold st0. unfold idCursor in *. by rewrite (bind_ok _ _ _ _ _ Hrun).
Qed.

Lemma scene_scan_obfuscates_every_row_witness :
  ∃ st' rows',
    anonymiseScenes 3 outDB sharedCodeSt = (Ok tt, st')
    ∧ tableOf st' (workPath outDB) sceneTable = Some rows'
    ∧ Forall2 (rowDone letters ["title"; "details"; "url"] ["code"; "director"])
              sharedScenes rows'.
Proof.
  apply scene_scan_obfuscates_every_row.
  - vm_compute. reflexivity.
  - simpl. exists 1%Z. split; [reflexivity |]. split; [lia |].
    exists 2%Z. split; [reflexivity |]. split; [lia | exact Logic.I].
  - intros i. done.
  - simpl. lia.
Defined.

(** *** Scene markers *)

Lemma anonymiseMarkers_eq (fuel : nat) (db : Anonymiser) :
  anonymiseMarkers fuel db
  = (_ <- logger_Infof "Anonymising scene markers" ;;
     _ <- pageLoop fuel
            (keyedPage db (idPageQuery sceneMarkerTable ["title"]) (markerVisit db))
            (0%Z, 0%Z) ;;
     ret tt).
Proof. reflexivity. Qed.

Lemma nonNull_stable (dict c : string) (r r' : gmap string value) :
  col r c ≠ VNull → rowPending dict [c] r r' → col r' c ≠ VNull.
Proof.
  intros Hr H. specialize (H c).
  rewrite bool_decide_eq_true_2 in H by apply list_elem_of_singleton, eq_refl.
  unfold col in *. destruct H as [->|(s & o & _ & -> & _)]; done.
Qed.

Lemma markerVisit_spec (db : Anonymiser) (st : St) (seen : list (gmap string value))
  (r : gmap string value) (rest : list (gmap string value)) (s : gmap string value)
  (b : bool) (last total k : Z) :
  tableOf st (workPath db) sceneMarkerTable = Some (seen ++ r :: rest)%list → alive st →
  col s "title" ≠ VNull → idKey s = Some k → rowPending letters ["title"] s r →
  Forall (keyUpTo idKey Z.lt last) seen → (last < k)%Z →
  ascendingKeys idKey Z.lt k rest →
  ∃ st' seen' r' rest',
    markerVisit db (map (col s) (idColumn :: ["title"])) (b, (last, total)) st
    = (Ok (true, (k, (total + 1)%Z)), st')
    ∧ tableOf st' (workPath db) sceneMarkerTable = Some (seen' ++ r' :: rest')%list
    ∧ alive st'
    ∧ Forall2 (rowPending letters ["title"]) seen seen'
    ∧ rowVisited letters [] ["title"] s r r'
    ∧ Forall2 (rowPending letters ["title"]) rest rest'.
Proof.
  intros Ht Hst Htitle Hk Hsr Hup Hlt Hasc.
  apply idKey_Some in Hk.
  assert (Hv : ∃ v, sql_text (col s "title") = Some v).
  { destruct (col s "title"); simpl; eauto. done. }
  destruct Hv as [v Hv].
  destruct (anonymiseText_step db sceneMarkerTable "title" v st _ Ht Hst)
    as (o & st1 & Htext & Ht1 & Hst1 & Hrel).
  destruct (logProgress_ok (total + 1) "scene markers" st1) as (st2 & Hlog & Hf2 & Hr2).
  pose proof (replaceValue_stepOn letters isASCII_letters "title" v o s Hrel Hv) as Hstep.
  assert (Hf : ∀ l, Forall2 (rowPending letters ["title"]) l
                       (map (replaceValue "title" v o) l)).
  { intros l. apply Forall2_map_rowPending. intros x.
    eapply stepOn_rowPending; [|exact Hstep]. listed. }
  exists st2, (map (replaceValue "title" v o) seen), (replaceValue "title" v o r),
    (map (replaceValue "title" v o) rest).
  split; [|split; [|split; [|split; [|split]]]].
  - unfold markerVisit. cbn [map]. cbv zeta. rewrite Hk. cbn [scan_int lift].
    rewrite bind_ret. unfold scan_string. rewrite Hv. cbn [lift]. rewrite bind_ret.
    rewrite (bind_ok _ _ _ _ _ Htext).
    cbn [snd]. by rewrite (bind_ok _ _ _ _ _ Hlog).
  - rewrite (tableOf_files st1 st2) by done. rewrite Ht1.
    by rewrite !map_app, !map_cons.
  - by apply (alive_rnd st1).
  - apply Hf.
  - apply rowVisited_step; [| apply not_elem_of_nil | apply not_elem_of_nil | exact Hstep].
    apply rowVisited_same.
  - apply Hf.
Qed.

(** X13: the marker stage, run on a table whose rows hold positive integer
    ids in strictly ascending storage order and a title each, with the
    random source available and budget for its pages: it returns without
    error, and every row ends with its title replaced if it held a text
    (whitespace where it stood, alphanumeric symbols elsewhere) and with
    every other column as it was. *)
Theorem marker_scan_obfuscates_every_row (fuel : nat) (db : Anonymiser) (st : St)
  (rows : list (gmap string value)) :
  tableOf st (workPath db) sceneMarkerTable = Some rows →
  ascendingIDs 0 rows → Forall (fun r => col r "title" ≠ VNull) rows →
  alive st → (length rows < fuel)%nat →
  ∃ st' rows',
    anonymiseMarkers fuel db st = (Ok tt, st')
    ∧ tableOf st' (workPath db) sceneMarkerTable = Some rows'
    ∧ Forall2 (rowDone letters [] ["title"]) rows rows'.
Proof.
  intros Ht Hasc Htitles Hst Hfuel.
  set (st0 := (logger_Infof "Anonymising scene markers" st).2).
  destruct (keyed_scan idKey Z.lt db sceneMarkerTable (idColumn :: ["title"])
              (idPageQuery sceneMarkerTable ["title"])
              (fun k => [Gt idColumn (VInt k)]) letters [] ["title"]
              (fun r => col r "title" ≠ VNull)
              (markerVisit db) noSpace_letters Z.lt_trans Z.lt_irrefl
              ltac:(done) idWhere_spec
              (idKey_stable [] ["title"] ltac:(listed) ltac:(listed))
              (nonNull_stable letters "title") (markerVisit_spec db) fuel 0%Z st0 rows)
    as (last & st' & rows' & Hrun & Ht' & Hdone & _); try done.
  - by apply ascendingIDs_keys.
  - exists st', rows'. split; [|done].
    rewrite anonymiseMarkers_eq. unfold bind at 1. cbn [logger_Infof].
    fold st0. unfold idCursor in *. by rewrite (bind_ok _ _ _ _ _ Hrun).
Qed.

Lemma marker_scan_obfuscates_every_row_witness :
  ∃ st' rows',
    anonymiseMarkers 3 outDB sampleMarkersSt = (Ok tt, st')
    ∧ tableOf st' (workPath outDB) sceneMarkerTable = Some rows'
    ∧ Forall2 (rowDone letters [] ["title"]) sampleMarkers rows'.
Proof.
  apply marker_scan_obfuscates_every_row.
  - vm_compute. reflexivity.
  - simpl. exists 1%Z. split; [reflexivity |]. split; [lia |].
    exists 3%Z. split; [reflexivity |]. split; [lia | exact Logic.I].
  - repeat constructor; discriminate.
  - intros i. done.
  - simpl. lia.
Defined.

(** *** Fingerprints *)

Lemma ltb_trans (a b c : string) :
  String.ltb a b = true → String.ltb b c = true → String.ltb a c = true.
Proof.
  unfold String.ltb. intros H1 H2.
  destruct (String.compare a b) eqn:Hab; try done.
  destruct (String.compare b c) eqn:Hbc; try done.
  apply OrderedTypeEx.String_as_OT.cmp_lt in Hab, Hbc.
  pose proof (OrderedTypeEx.String_as_OT.lt_trans _ _ _ Hab Hbc) as H.
  apply OrderedTypeEx.String_as_OT.cmp_lt in H.
  unfold OrderedTypeEx.String_as_OT.cmp in H. by rewrite H.
Qed.

Lemma ltb_irrefl (a : string) : String.ltb a a = false.
Proof.
  unfold String.ltb.
  assert (H : String.compare a a = Datatypes.Eq) by (by apply OrderedTypeEx.String_as_OT.cmp_eq).
  by rewrite H.
Qed.

Lemma fpLt_trans (a b c : Z * string) : fpLt a b → fpLt b c → fpLt a c.
Proof.
  unfold fpLt. intros [H1|[H1 H1']] [H2|[H2 H2']]; try (left; lia).
  right. split; [lia |]. by eapply ltb_trans.
Qed.

Lemma fpLt_irrefl (a : Z * string) : ¬ fpLt a a.
Proof. unfold fpLt. intros [H|[_ H]]; [lia |]. by rewrite ltb_irrefl in H. Qed.

Lemma fpKey_Some (r : gmap string value) (k : Z * string) :
  fpKey r = Some k ↔ col r fileIDColumn = VInt (fst k) ∧ col r "type" = VText (snd k).
Proof.
  unfold fpKey. destruct k as [z ty]. simpl.
  destruct (col r fileIDColumn), (col r "type"); split; try done;
    try (by intros [? ?]); try (intros [= -> ->]; done).
  by intros [[= ->] [= ->]].
Qed.

Lemma fpWhere_spec (k : Z * string) (r : gmap string value) (k' : Z * string) :
  fpKey r = Some k' → (matches (q_where (fpQuery k)) r = true ↔ fpLt k k').
Proof.
  intros [Hid Hty]%fpKey_Some. unfold matches, fpLt. simpl.
  unfold fileIDColumn in Hid. rewrite Hid, Hty. simpl. rewrite andb_true_r.
  rewrite orb_true_iff, andb_true_iff, Z.ltb_lt, Z.eqb_eq.
  split; (intros [H|[H1 H2]]; [by left | right; split; [lia | done]]).
Qed.

Lemma fpKey_stable (r r' : gmap string value) :
  (∀ c, c ∉ ["fingerprint"] → c ∉ @nil string → r' !! c = r !! c) → fpKey r' = fpKey r.
Proof.
  intros H. unfold fpKey, col.
  rewrite (H fileIDColumn), (H "type"); [done | listed | | listed |];
    apply not_elem_of_nil.
Qed.

Lemma anonymiseFingerprints_eq (fuel : nat) (db : Anonymiser) (st : St) :
  anonymiseFingerprints fuel db st
  = (_ <- logger_Infof "Anonymising fingerprints" ;;
     _ <- pageLoop fuel (keyedPage db fpQuery (fingerprintVisit db)) (0%Z, "", 0%Z) ;;
     ret tt) st.
Proof.
  unfold anonymiseFingerprints, bind. destruct (logger_Infof _ st) as [[[]|?|?|] st0]; try done.
  rewrite (pageLoop_ext fuel _ (keyedPage db fpQuery (fingerprintVisit db))); [done |].
  by intros [[lastID lastType] total] st'.
Qed.

Lemma fingerprintVisit_spec (db : Anonymiser) (st : St)
  (seen : list (gmap string value)) (r : gmap string value)
  (rest : list (gmap string value)) (s : gmap string value)
  (b : bool) (last : Z * string) (total : Z) (k : Z * string) :
  tableOf st (workPath db) fingerprintTable = Some (seen ++ r :: rest)%list → alive st →
  col s "fingerprint" ≠ VNull → fpKey s = Some k →
  rowPending hex ["fingerprint"] s r →
  Forall (keyUpTo fpKey fpLt last) seen → fpLt last k →
  ascendingKeys fpKey fpLt k rest →
  ∃ st' seen' r' rest',
    fingerprintVisit db (map (col s) [fileIDColumn; "type"; "fingerprint"])
      (b, (last, total)) st
    = (Ok (true, (k, (total + 1)%Z)), st')
    ∧ tableOf st' (workPath db) fingerprintTable = Some (seen' ++ r' :: rest')%list
    ∧ alive st'
    ∧ Forall2 (rowPending hex ["fingerprint"]) seen seen'
    ∧ rowVisited hex [] ["fingerprint"] s r r'
    ∧ Forall2 (rowPending hex ["fingerprint"]) rest rest'.
Proof.
  intros Ht Hst Hfp Hk Hsr _ _ _.
  apply fpKey_Some in Hk as [Hid Hty].
  assert (Hv : ∃ v, sql_text (col s "fingerprint") = Some v).
  { destruct (col s "fingerprint"); simpl; eauto. done. }
  destruct Hv as [v Hv].
  destruct (anonymiseFingerprint_step db fingerprintTable "fingerprint" v st _ Ht Hst)
    as (o & st1 & Htext & Ht1 & Hst1 & Hrel).
  destruct (logProgress_ok (total + 1) "fingerprints" st1) as (st2 & Hlog & Hf2 & Hr2).
  pose proof (replaceValue_stepOn hex isASCII_hex "fingerprint" v o s Hrel Hv) as Hstep.
  assert (Hf : ∀ l, Forall2 (rowPending hex ["fingerprint"]) l
                       (map (replaceValue "fingerprint" v o) l)).
  { intros l. apply Forall2_map_rowPending. intros x.
    eapply stepOn_rowPending; [|exact Hstep]. listed. }
  exists st2, (map (replaceValue "fingerprint" v o) seen),
    (replaceValue "fingerprint" v o r), (map (replaceValue "fingerprint" v o) rest).
  split; [|split; [|split; [|split; [|split]]]].
  - unfold fingerprintVisit. destruct last as [lastID lastType]. destruct k as [z ty].
    cbn [map]. cbv zeta. simpl in Hid, Hty. rewrite Hid, Hty.
    cbn [scan_int lift]. rewrite bind_ret.
    unfold scan_string at 1. cbn [sql_text lift]. rewrite bind_ret.
    unfold scan_string. rewrite Hv. cbn [lift]. rewrite bind_ret.
    rewrite (bind_ok _ _ _ _ _ Htext).
    by rewrite (bind_ok _ _ _ _ _ Hlog).
  - rewrite (tableOf_files st1 st2) by done. rewrite Ht1.
    by rewrite !map_app, !map_cons.
  - by apply (alive_rnd st1).
  - apply Hf.
  - apply rowVisited_step; [| apply not_elem_of_nil | apply not_elem_of_nil | exact Hstep].
    apply rowVisited_same.
  - apply Hf.
Qed.

(** X14: the fingerprint stage, run on a table whose rows hold a
    fingerprint each and keys (file_id, type) in strictly ascending storage
    order above (0, empty), with the random source available and budget for
    its pages: it returns without error, and every row ends with its
    fingerprint replaced if it held a text (whitespace where it stood,
    hexadecimal digits elsewhere) and with every other column as it was; a
    fingerprint that is no text is left as it is. *)
Theorem fingerprint_scan_obfuscates_every_row (fuel : nat) (db : Anonymiser) (st : St)
  (rows : list (gmap string value)) :
  tableOf st (workPath db) fingerprintTable = Some rows →
  ascendingKeys fpKey fpLt (0%Z, "") rows →
  Forall (fun r => col r "fingerprint" ≠ VNull) rows →
  alive st → (length rows < fuel)%nat →
  ∃ st' rows',
    anonymiseFingerprints fuel db st = (Ok tt, st')
    ∧ tableOf st' (workPath db) fingerprintTable = Some rows'
    ∧ Forall2 (rowDone hex [] ["fingerprint"]) rows rows'.
Proof.
  intros Ht Hasc Hfps Hst Hfuel.
  set (st0 := (logger_Infof "Anonymising fingerprints" st).2).
  destruct (keyed_scan fpKey fpLt db fingerprintTable [fileIDColumn; "type"; "fingerprint"]
              fpQuery (fun k => q_where (fpQuery k)) hex [] ["fingerprint"]
              (fun r => col r "fingerprint" ≠ VNull)
              (fingerprintVisit db) noSpace_hex fpLt_trans fpLt_irrefl
              ltac:(done) fpWhere_spec fpKey_stable
              (nonNull_stable hex "fingerprint") (fingerprintVisit_spec db)
              fuel (0%Z, "") st0 rows)
    as (last & st' & rows' & Hrun & Ht' & Hdone & _); try done.
  exists st', rows'. split; [|done].
  rewrite anonymiseFingerprints_eq. unfold bind at 1. cbn [logger_Infof].
  fold st0. by rewrite (bind_ok _ _ _ _ _ Hrun).
Qed.

Lemma fingerprint_scan_obfuscates_every_row_witness :
  ∃ st' rows',
    anonymiseFingerprints 4 outDB sampleFingerprintsSt = (Ok tt, st')
    ∧ tableOf st' (workPath outDB) fingerprintTable = Some rows'
    ∧ Forall2 (rowDone hex [] ["fingerprint"]) sampleFingerprints rows'.
Proof.
  apply fingerprint_scan_obfuscates_every_row.
  - vm_compute. reflexivity.
  - simpl. exists (1%Z, "md5"). split; [reflexivity |]. split; [left; simpl; lia |].
    exists (1%Z, "oshash"). split; [reflexivity |]. split; [by right |].
    exists (2%Z, "md5"). split; [reflexivity |]. split; [left; simpl; lia |].
    exact Logic.I.
  - repeat constructor; discriminate.
  - intros i. done.
  - simpl. lia.
Defined.

(** *** A marker without a title *)

Lemma forRows_app {S} (l1 l2 : list (list value)) (f : list value → S → M S) :
  ∀ (s : S) (st : St),
    forRows (l1 ++ l2) f s st = (s' <- forRows l1 f s ;; forRows l2 f s') st.
Proof.
  induction l1 as [|r l1 IH]; intros s st; [done |].
  cbn [app forRows]. unfold bind.
  destruct (f r s st) as [[s1|?|?|] st1]; done.
Qed.

Lemma bind_err {A B} (m : M A) (f : A → M B) (st st' : St) (e : error) :
  m st = (Err e, st') → (x <- m ;; f x) st = (Err e, st').
Proof. intros H. unfold bind. by rewrite H. Qed.

Lemma Forall2_nonNull (dict c : string) (l l' : list (gmap string value)) :
  Forall2 (rowPending dict [c]) l l' →
  Forall (fun r => col r c ≠ VNull) l → Forall (fun r => col r c ≠ VNull) l'.
Proof.
  induction 1 as [|r r' l l' Hr _ IH]; intros H; [constructor |].
  apply Forall_cons in H as [Hx H]. constructor; [|by apply IH].
  by eapply nonNull_stable.
Qed.

Lemma null_stable (dict c : string) (r r' : gmap string value) :
  col r c = VNull → rowPending dict [c] r r' → col r' c = VNull.
Proof.
  intros Hr H. specialize (H c).
  rewrite bool_decide_eq_true_2 in H by apply list_elem_of_singleton, eq_refl.
  unfold col in *. destruct H as [->|(s & o & Hs & _ & _)]; [done |].
  by rewrite Hs in Hr.
Qed.

Section MarkerFails.
Context (db : Anonymiser).

Lemma marker_loop_fails (fuel : nat) :
  ∀ (seen0 seen good0 more0 post : list (gmap string value)) (bad0 : gmap string value)
    (last total : Z) (st : St),
    (length good0 < fuel)%nat →
    tableOf st (workPath db) sceneMarkerTable = Some (seen ++ post)%list →
    Forall2 (rowDone letters [] ["title"]) seen0 seen →
    Forall2 (rowPending letters ["title"]) (good0 ++ bad0 :: more0) post →
    Forall (fun r => col r "title" ≠ VNull) good0 → col bad0 "title" = VNull →
    Forall (keyUpTo idKey Z.lt last) seen → ascendingKeys idKey Z.lt last post →
    alive st →
    ∃ st',
      pageLoop fuel
        (keyedPage db (idPageQuery sceneMarkerTable ["title"]) (markerVisit db))
        (last, total) st
      = (Err (ScanError "converting NULL to string is unsupported"), st').
Proof.
  induction fuel as [|fuel IH];
    intros seen0 seen good0 more0 post bad0 last total st
           Hfuel Ht Hseen Hpost Hgood Hbad Hup Hasc Hst; [lia |].
  destruct (decide (pageSize ≤ length good0)%nat) as [Hbig|Hsmall].
  - assert (HPre : Forall (fun r => col r "title" ≠ VNull)
                     (take pageSize (good0 ++ bad0 :: more0))).
    { rewrite take_app_le by done. by apply Forall_take. }
    destruct (keyed_page idKey Z.lt db sceneMarkerTable (idColumn :: ["title"])
                (idPageQuery sceneMarkerTable ["title"])
                (fun k => [Gt idColumn (VInt k)]) letters [] ["title"]
                (fun r => col r "title" ≠ VNull)
                (markerVisit db) noSpace_letters Z.lt_trans Z.lt_irrefl
                ltac:(done) idWhere_spec
                (idKey_stable [] ["title"] ltac:(listed) ltac:(listed))
                (nonNull_stable letters "title") (markerVisit_spec db)
                seen0 seen (good0 ++ bad0 :: more0)%list post last total st
                Ht Hseen Hpost HPre Hup Hasc Hst)
      as (b' & last' & st' & seen' & post' & Hrun & Htab & Hs' & Hp' & Hup' & Hasc'
          & Hst' & Hb').
    assert (b' = true) as ->.
    { rewrite Hb'. destruct post; [|done]. apply Forall2_length in Hpost.
      rewrite length_app in Hpost. simpl in Hpost. lia. }
    rewrite take_app_le in Hs' by done. rewrite drop_app_le in Hp' by done.
    destruct (IH (seen0 ++ take pageSize good0)%list seen' (drop pageSize good0) more0
                post' bad0 last'
                (total + Z.of_nat (length (take pageSize post)))%Z st') as [st2 Hloop];
      try done.
    + rewrite length_drop. unfold pageSize in *. lia.
    + by apply Forall_drop.
    + exists st2. cbn [pageLoop]. unfold idCursor in *.
      by rewrite (bind_ok _ _ _ _ _ Hrun).
  - apply Forall2_app_inv_l in Hpost as (good & rest & Hgood2 & Hrest & ->).
    apply Forall2_cons_inv_l in Hrest as (bad & more & Hbad2 & Hmore & ->).
    assert (Hlen : length good = length good0) by (symmetry; by eapply Forall2_length).
    pose proof (keyed_select idKey Z.lt sceneMarkerTable (idColumn :: ["title"])
                  (idPageQuery sceneMarkerTable ["title"])
                  (fun k => [Gt idColumn (VInt k)]) Z.lt_trans Z.lt_irrefl
                  ltac:(done) idWhere_spec seen (good ++ bad :: more)%list last Hup Hasc)
      as Hsel.
    rewrite take_app_ge in Hsel by lia.
    destruct (pageSize - length good)%nat as [|m] eqn:Hm; [lia |].
    cbn [take] in Hsel.
    destruct (keyed_block idKey Z.lt db sceneMarkerTable (idColumn :: ["title"])
                letters [] ["title"] (fun r => col r "title" ≠ VNull)
                (markerVisit db) noSpace_letters Z.lt_trans
                (idKey_stable [] ["title"] ltac:(listed) ltac:(listed))
                (markerVisit_spec db)
                good good0 good seen0 seen (bad0 :: more0) (bad :: more)
                false last total st)
      as (b1 & last1 & st1 & seen1 & block1 & post1 & Hrun & _); try done.
    + apply Forall2_rowPending_refl.
    + by constructor.
    + by eapply Forall2_nonNull.
    + assert (Hkey : ∃ z, col bad idColumn = VInt z).
      { apply (ascendingKeys_above idKey Z.lt Z.lt_trans) in Hasc.
        apply Forall_app in Hasc as [_ Hasc].
        apply Forall_cons in Hasc as [(z & Hz%idKey_Some & _) _]. eauto. }
      destruct Hkey as [z Hz].
      pose proof (null_stable letters "title" bad0 bad Hbad Hbad2) as Hnull.
      eexists. cbn [pageLoop]. unfold bind at 1.
      unfold keyedPage at 1, WithTxn, queryFunc. cbn [fst].
      rewrite (bind_ok _ _ _ _ _
                 (queryRows_ok db st (idPageQuery sceneMarkerTable ["title"] last) _ Ht)).
      rewrite Hsel, map_app, map_cons, forRows_app.
      unfold idCursor in *. rewrite (bind_ok _ _ _ _ _ Hrun).
      cbn [forRows map]. unfold bind at 1. unfold markerVisit at 1.
      rewrite Hz, Hnull. cbn. reflexivity.
Qed.

End MarkerFails.

(** X15: a marker without a title stops the marker stage.  On a table with
    positive integer ids in strictly ascending storage order in which some
    row holds NULL as its title, with the random source available for the
    rows before it and budget to reach it, the stage returns the scan error
    of that row. *)
Theorem marker_without_title_fails (fuel : nat) (db : Anonymiser) (st : St)
  (good : list (gmap string value)) (bad : gmap string value)
  (more : list (gmap string value)) :
  tableOf st (workPath db) sceneMarkerTable = Some (good ++ bad :: more)%list →
  ascendingIDs 0 (good ++ bad :: more) →
  Forall (fun r => col r "title" ≠ VNull) good → col bad "title" = VNull →
  alive st → (length good < fuel)%nat →
  ∃ st',
    anonymiseMarkers fuel db st
    = (Err (ScanError "converting NULL to string is unsupported"), st').
Proof.
  intros Ht Hasc Hgood Hbad Hst Hfuel.
  set (st0 := (logger_Infof "Anonymising scene markers" st).2).
  destruct (marker_loop_fails db fuel [] [] good more (good ++ bad :: more)%list bad
              0%Z 0%Z st0) as [st' Hloop]; try done.
  - apply Forall2_rowPending_refl.
  - by apply ascendingIDs_keys.
  - exists st'. rewrite anonymiseMarkers_eq. unfold bind at 1. cbn [logger_Infof].
    fold st0. unfold idCursor in *. by rewrite (bind_err _ _ _ _ _ Hloop).
Qed.

Lemma marker_without_title_fails_witness :
  ∃ st',
    anonymiseMarkers 2 outDB untitledMarkerSt
    = (Err (ScanError "converting NULL to string is unsupported"), st').
Proof.
  apply (marker_without_title_fails 2 outDB untitledMarkerSt
           [mkRow [("id", VInt 1); ("title", VText "x y")]]
           (mkRow [("id", VInt 2); ("title", VNull)]) []).
  - vm_compute. reflexivity.
  - simpl. exists 1%Z. split; [reflexivity |]. split; [lia |].
    exists 2%Z. split; [reflexivity |]. split; [lia | exact Logic.I].
  - repeat constructor; discriminate.
  - reflexivity.
  - intros i. done.
  - simpl. lia.
Defined.
